(** * Verification of the JSON configuration merger (merge_config_json.py)

    The development embeds the program shallowly: JSON documents are an
    inductive type, Python dictionaries are insertion-ordered association
    lists, methods that mutate [self] or the file system are computations in
    a state-and-exception monad, and the logger is a list of records kept in
    the state. *)

From Stdlib Require Import String Ascii List ZArith Lia Bool Arith Permutation
  DecimalString Sorted.
Import ListNotations.
Local Open Scope string_scope.
Local Open Scope list_scope.

(* ================================================================== *)
(** * JSON values and Python dictionaries *)
(* ================================================================== *)

(** What [json.load] produces.  Numbers are integers; objects keep their
    insertion order, as Python dictionaries do. *)
#[warnings="-register-all"]
Inductive json : Type :=
| JNull
| JBool (b : bool)
| JNum (n : Z)
| JStr (s : string)
| JArr (items : list json)
| JObj (fields : list (string * json)).

(** [d.get(key)]: the value bound to [key], if any. *)
Fixpoint dict_get (key : string) (d : list (string * json)) : option json :=
  match d with
  | [] => None
  | (k, v) :: rest => if String.eqb k key then Some v else dict_get key rest
  end.

(** [d[key] = value]: overwrite in place when the key is bound, append
    otherwise. *)
Fixpoint dict_set (key : string) (value : json) (d : list (string * json))
  : list (string * json) :=
  match d with
  | [] => [(key, value)]
  | (k, v) :: rest =>
      if String.eqb k key then (k, value) :: rest
      else (k, v) :: dict_set key value rest
  end.

Definition dict_keys (d : list (string * json)) : list string := map fst d.

(** [value == name] for a [str] name: only an equal string is equal. *)
Definition eq_str (value : json) (name : string) : bool :=
  match value with
  | JStr s => String.eqb s name
  | _ => false
  end.

(* ================================================================== *)
(** * Exceptions, log records and the state-and-exception monad *)
(* ================================================================== *)

Inductive exn : Type :=
| KeyError (key : string)
| TypeError (msg : string)
| ValueError (msg : string)
| FileNotFoundError (msg : string)
| IsADirectoryError (msg : string)
| NotADirectoryError (msg : string)
| FileExistsError (msg : string)
| JSONDecodeError (msg : string)
| OSError (msg : string)
| RecursionError
| SortingGroupDoesNotExist (group_name : string).

Inductive level : Type := INFO | WARNING | ERROR.

(** An argument of a log call: a string, a [", ".join] of names, or the
    [json.dumps] of a value (kept as the value, or as the address of the
    object on the heap). *)
Inductive log_arg : Type :=
| AStr (s : string)
| AJoin (names : list string)
| ADump (value : json)
| AObject (address : nat).

(** [logger.<level>(fmt, *args)]. *)
Record log_record : Type := LogRecord {
  lvl : level;
  fmt : string;
  args : list log_arg
}.

Inductive outcome (A : Type) : Type :=
| Ret (a : A)
| Raise (e : exn).
Arguments Ret {A} a.
Arguments Raise {A} e.

(** A computation over a state [S]: the state survives an exception, as the
    mutations of a Python method do. *)
Definition M (S A : Type) : Type := S -> outcome A * S.

Definition ret {S A} (a : A) : M S A := fun s => (Ret a, s).

Definition bind {S A B} (m : M S A) (k : A -> M S B) : M S B :=
  fun s =>
    match m s with
    | (Ret a, s') => k a s'
    | (Raise e, s') => (Raise e, s')
    end.

Definition raise {S A} (e : exn) : M S A := fun s => (Raise e, s).

Definition get {S} : M S S := fun s => (Ret s, s).

Definition put {S} (s : S) : M S unit := fun _ => (Ret tt, s).

Definition lift {S A} (o : outcome A) : M S A := fun s => (o, s).

(** [try: body / except <class>: handler].  The handler answers [None] for an
    exception its [except] clause does not match, which then propagates. *)
Definition try_except {S A} (body : M S A) (handler : exn -> option (M S A))
  : M S A :=
  fun s =>
    match body s with
    | (Ret a, s') => (Ret a, s')
    | (Raise e, s') =>
        match handler e with
        | Some h => h s'
        | None => (Raise e, s')
        end
    end.

Declare Scope py_scope.
Delimit Scope py_scope with py.
Notation "x <- c1 ;; c2" := (bind c1 (fun x => c2))
  (at level 61, c1 at next level, right associativity) : py_scope.
Notation "c1 ;; c2" := (bind c1 (fun _ => c2))
  (at level 61, right associativity) : py_scope.
Local Open Scope py_scope.

(** [for x in xs: acc = body(x, acc)], stopping at the first exception. *)
Fixpoint for_each {S A B} (xs : list A) (body : A -> B -> M S B) (acc : B)
  : M S B :=
  match xs with
  | [] => ret acc
  | x :: rest => acc' <- body x acc ;; for_each rest body acc'
  end.

(** [obj[key]] for a [str] key: only a dictionary can be subscripted so. *)
Definition getitem (data_obj : json) (key : string) : outcome json :=
  match data_obj with
  | JObj fields =>
      match dict_get key fields with
      | Some v => Ret v
      | None => Raise (KeyError key)
      end
  | _ => Raise (TypeError "object is not subscriptable by a str key")
  end.

(* ================================================================== *)
(** * Python list slices and small sets *)
(* ================================================================== *)

(** [xs[:hi]], [xs[lo:]] and [xs[lo:hi]] for non-negative bounds. *)
Definition slice_to {A} (hi : nat) (xs : list A) : list A := firstn hi xs.
Definition slice_from {A} (lo : nat) (xs : list A) : list A := skipn lo xs.
Definition slice {A} (lo hi : nat) (xs : list A) : list A :=
  skipn lo (firstn hi xs).

(** A [set] of strings, by membership. *)
Definition set_mem (x : string) (s : list string) : bool :=
  existsb (String.eqb x) s.
Definition set_add (x : string) (s : list string) : list string :=
  if set_mem x s then s else s ++ [x].
Definition set_of_list (xs : list string) : list string :=
  fold_left (fun s x => set_add x s) xs [].
Definition set_difference (s other : list string) : list string :=
  filter (fun x => negb (set_mem x other)) s.

(* ================================================================== *)
(** * The ordering engine: [CustomConfigSorter] *)
(* ================================================================== *)

Module Sorter.

(** [GroupOrderingDataItem]. *)
Record GroupOrderingDataItem : Type := Item {
  first_item_index : option nat;
  last_item_index : option nat
}.

Definition is_none {A} (o : option A) : bool :=
  match o with None => true | Some _ => false end.

Definition is_found (item : GroupOrderingDataItem) : bool :=
  negb (is_none (first_item_index item)) && negb (is_none (last_item_index item)).

(** The sorter object, together with the process-wide logger. *)
Record state : Type := State {
  _custom_config : list json;
  _ordering_data : list string;
  logged : list log_record
}.

Definition log (l : level) (f : string) (a : list log_arg) : M state unit :=
  fun s => (Ret tt, State (_custom_config s) (_ordering_data s)
                          (logged s ++ [LogRecord l f a])).

Definition set_custom_config (c : list json) : M state unit :=
  fun s => (Ret tt, State c (_ordering_data s) (logged s)).

(** [CustomConfigSorter(custom_config, ordering_data)]: the constructor
    deep-copies the sequence; on immutable values the copy is the value. *)
Definition init (custom_config : list json) (ordering_data : list string)
  (logger : list log_record) : state :=
  State custom_config ordering_data logger.

(** The loop of [_collect_group_ordering_data_item], from index [i]. *)
Fixpoint collect_loop (group_name : string) (i : nat) (items : list json)
  (item : GroupOrderingDataItem) : M state GroupOrderingDataItem :=
  match items with
  | [] => ret item
  | data_obj :: rest =>
      data_obj_group <-
        try_except (lift (getitem data_obj "group"))
          (fun e =>
             match e with
             | KeyError _ =>
                 Some (log ERROR
                         "Malformed custom config object - 'group' key is missing:\n%s"
                         [ADump data_obj] ;;
                       raise e)
             | _ => None
             end) ;;
      let item1 :=
        if is_none (first_item_index item) && eq_str data_obj_group group_name
        then Item (Some i) (last_item_index item)
        else item in
      let item2 :=
        if eq_str data_obj_group group_name
        then Item (first_item_index item1) (Some i)
        else item1 in
      collect_loop group_name (S i) rest item2
  end.

Definition _collect_group_ordering_data_item (group_name : string)
  : M state GroupOrderingDataItem :=
  self <- get ;;
  item <- collect_loop group_name 0 (_custom_config self) (Item None None) ;;
  if negb (is_found item) then
    log WARNING "Group '%s' is not found in custom config" [AStr group_name] ;;
    raise (SortingGroupDoesNotExist group_name)
  else ret item.

(** An index read from a found item; [None + 1] and a [None] bound are
    type errors that [is_found] rules out. *)
Definition index (o : option nat) : M state nat :=
  match o with
  | Some i => ret i
  | None => raise (TypeError "unsupported operand type(s) for +: 'NoneType' and 'int'")
  end.

Definition _pop_group_2 (group_name_2 : string) : M state (list json) :=
  item <- _collect_group_ordering_data_item group_name_2 ;;
  first <- index (first_item_index item) ;;
  last <- index (last_item_index item) ;;
  self <- get ;;
  let before_group_2 := slice_to first (_custom_config self) in
  let group_2 := slice first (last + 1) (_custom_config self) in
  let after_group_2 := slice_from (last + 1) (_custom_config self) in
  set_custom_config (before_group_2 ++ after_group_2) ;;
  ret group_2.

Definition _insert_group_2_after_group_1 (group_name_1 : string)
  (group_2 : list json) : M state unit :=
  item <- _collect_group_ordering_data_item group_name_1 ;;
  last <- index (last_item_index item) ;;
  self <- get ;;
  let before_group_2 := slice_to (last + 1) (_custom_config self) in
  let after_group_2 := slice_from (last + 1) (_custom_config self) in
  set_custom_config (before_group_2 ++ group_2 ++ after_group_2).

(** The body of the loop over [zip(ordering_data, ordering_data[1:])]. *)
Definition sort_pair (pair : string * string) (missing_groups : list string)
  : M state (list string) :=
  let '(group_name_1, group_name_2) := pair in
  try_except
    (group_2 <- _pop_group_2 group_name_2 ;;
     _insert_group_2_after_group_1 group_name_1 group_2 ;;
     ret missing_groups)
    (fun e =>
       match e with
       | SortingGroupDoesNotExist g => Some (ret (set_add g missing_groups))
       | _ => None
       end).

(** [zip(xs, xs[1:])]. *)
Definition adjacent_pairs {A} (xs : list A) : list (A * A) :=
  combine xs (slice_from 1 xs).

Definition get_sorted_custom_config : M state (list json) :=
  self <- get ;;
  missing_groups <-
    for_each (adjacent_pairs (_ordering_data self)) sort_pair [] ;;
  let sorted_groups :=
    set_difference (set_of_list (_ordering_data self)) missing_groups in
  let sorted_groups :=
    filter (fun group_name => set_mem group_name sorted_groups)
           (_ordering_data self) in
  log INFO "Sorted custom config groups: %s" [AJoin sorted_groups] ;;
  self <- get ;;
  ret (_custom_config self).

(** The whole engine on a sequence and a specification, with a fresh log. *)
Definition run (custom_config : list json) (ordering_data : list string)
  : outcome (list json) * state :=
  get_sorted_custom_config (init custom_config ordering_data []).

Definition sorted (custom_config : list json) (ordering_data : list string)
  : outcome (list json) :=
  fst (run custom_config ordering_data).

End Sorter.


(* ================================================================== *)
(** * Vocabulary of the statements about the ordering engine *)
(* ================================================================== *)

Module Spec.

(** The record carries a [group] field (and is an object at all). *)
Definition has_group (r : json) : bool :=
  match getitem r "group" with
  | Ret _ => true
  | Raise _ => false
  end.

(** The record belongs to group [g]: its [group] field equals [g]. *)
Definition group_is (g : string) (r : json) : bool :=
  match getitem r "group" with
  | Ret v => eq_str v g
  | Raise _ => false
  end.

(** A Record Sequence: every element carries a [group] field. *)
Definition records_ok (cfg : list json) : bool := forallb has_group cfg.

Definition group_exists (g : string) (cfg : list json) : bool :=
  existsb (group_is g) cfg.

(** The records of group [g], in sequence order. *)
Definition members (g : string) (cfg : list json) : list json :=
  filter (group_is g) cfg.

(** Once a run of [p]-elements has started and stopped, no [p]-element
    follows. *)
Fixpoint inside {A} (p : A -> bool) (l : list A) : bool :=
  match l with
  | [] => true
  | x :: t => if p x then inside p t else negb (existsb p t)
  end.

(** The [p]-elements of [l] occupy one contiguous span (possibly empty). *)
Fixpoint contiguousb {A} (p : A -> bool) (l : list A) : bool :=
  match l with
  | [] => true
  | x :: t => if p x then inside p t else contiguousb p t
  end.

Definition contiguous (g : string) (cfg : list json) : bool :=
  contiguousb (group_is g) cfg.

(** The groups named at different positions of the specification share no
    record. *)
Fixpoint groups_disjoint (cfg : list json) (od : list string) : bool :=
  match od with
  | [] => true
  | g :: rest =>
      forallb
        (fun h => negb (existsb (fun r => group_is g r && group_is h r) cfg))
        rest
      && groups_disjoint cfg rest
  end.


(** Index of the first and of the last [p]-element. *)
Fixpoint first_idx {A} (p : A -> bool) (l : list A) : option nat :=
  match l with
  | [] => None
  | x :: t => if p x then Some 0 else option_map S (first_idx p t)
  end.

Fixpoint last_idx {A} (p : A -> bool) (l : list A) : option nat :=
  match l with
  | [] => None
  | x :: t =>
      match last_idx p t with
      | Some k => Some (S k)
      | None => if p x then Some 0 else None
      end
  end.

(** What one pair of the specification does to the sequence: nothing when
    [g2] is absent; otherwise the span of [g2] is cut out and, when [g1] is
    still present, spliced back after the last record of [g1]. *)
Definition move (g1 g2 : string) (cfg : list json) : list json :=
  match first_idx (group_is g2) cfg, last_idx (group_is g2) cfg with
  | Some f, Some l =>
      let rest := firstn f cfg ++ skipn (l + 1) cfg in
      match last_idx (group_is g1) rest with
      | Some l1 =>
          firstn (l1 + 1) rest ++ skipn f (firstn (l + 1) cfg)
            ++ skipn (l1 + 1) rest
      | None => rest
      end
  | _, _ => cfg
  end.

(** The group whose lookup fails while the pair is processed, if any. *)
Definition move_missing (g1 g2 : string) (cfg : list json) : option string :=
  match first_idx (group_is g2) cfg, last_idx (group_is g2) cfg with
  | Some f, Some l =>
      match last_idx (group_is g1) (firstn f cfg ++ skipn (l + 1) cfg) with
      | Some _ => None
      | None => Some g1
      end
  | _, _ => Some g2
  end.

(** [block] spliced in right after the last [p]-element of [l]. *)
Definition splice_after {A} (p : A -> bool) (block l : list A) : list A :=
  match last_idx p l with
  | Some k => firstn (k + 1) l ++ block ++ skipn (k + 1) l
  | None => l
  end.

(** All records of [g2] sit right after a record of [g1], which is the last
    one of its group. *)
Definition adj (g1 g2 : string) (cfg : list json) : Prop :=
  g1 <> g2 /\
  exists u x B v,
    cfg = u ++ x :: B ++ v
    /\ group_is g1 x = true /\ B <> [] /\ forallb (group_is g2) B = true
    /\ existsb (group_is g2) u = false /\ existsb (group_is g2) v = false
    /\ existsb (group_is g1) v = false.

(** [xs] is [ys] with some elements left out, the order kept. *)
Inductive subseq {A} : list A -> list A -> Prop :=
| subseq_nil_nil : subseq [] []
| subseq_skip (y : A) (xs ys : list A) : subseq xs ys -> subseq xs (y :: ys)
| subseq_keep (x : A) (xs ys : list A) : subseq xs ys -> subseq (x :: xs) (x :: ys).

Definition warning (g : string) : log_record :=
  LogRecord WARNING "Group '%s' is not found in custom config" [AStr g].

(** The state with more records in the log, or with another sequence. *)
Definition add_log (lg : list log_record) (s : Sorter.state) : Sorter.state :=
  Sorter.State (Sorter._custom_config s) (Sorter._ordering_data s)
    (Sorter.logged s ++ lg).

Definition with_config (c : list json) (s : Sorter.state) : Sorter.state :=
  Sorter.State c (Sorter._ordering_data s) (Sorter.logged s).

(** The sequence after the whole loop, as a fold of [move]. *)
Definition moves (pairs : list (string * string)) (cfg : list json)
  : list json :=
  fold_left (fun c pr => move (fst pr) (snd pr) c) pairs cfg.

(** The warnings of the whole loop. *)
Fixpoint warnings (pairs : list (string * string)) (cfg : list json)
  : list log_record :=
  match pairs with
  | [] => []
  | (g1, g2) :: rest =>
      match move_missing g1 g2 cfg with
      | Some g => [warning g]
      | None => []
      end ++ warnings rest (move g1 g2 cfg)
  end.

End Spec.

(** A record of group [g] with one more field. *)
Definition record (g : string) (k : Z) : json :=
  JObj [("group", JStr g); ("k", JNum k)].


(* ================================================================== *)
(** * The file system of the theme root *)
(* ================================================================== *)

Module Disk.

(** The text of a file: a JSON document (what [json.dump] writes and
    [json.load] reads back) or text that is not JSON. *)
Inductive content : Type :=
| Doc (j : json)
| Text (s : string).

#[warnings="-register-all"]
Inductive node : Type :=
| File (c : content)
| Dir (entries : list (string * node)).

(** The four paths the program touches under the theme root; [None] is a
    path that does not exist. *)
Record fs : Type := FS {
  main_json : option node;    (* config/main.json *)
  groups_dir : option node;   (* config/custom/groups *)
  order_json : option node;   (* config/custom/group_order/order.json *)
  config_json : option node   (* config.json *)
}.

Definition exists_ (p : option node) : bool :=
  match p with Some _ => true | None => false end.

Definition is_file (p : option node) : bool :=
  match p with Some (File _) => true | _ => false end.

(** [with path.open("r") as fh: json.load(fh)]. *)
Definition json_load (path : string) (p : option node) : outcome json :=
  match p with
  | None => Raise (FileNotFoundError path)
  | Some (Dir _) => Raise (IsADirectoryError path)
  | Some (File (Text _)) => Raise (JSONDecodeError path)
  | Some (File (Doc j)) => Ret j
  end.

(** The file that [shutil.copy(path, scratch)] copies. *)
Definition read_file (path : string) (p : option node) : outcome content :=
  match p with
  | None => Raise (FileNotFoundError path)
  | Some (Dir _) => Raise (IsADirectoryError path)
  | Some (File c) => Ret c
  end.

(** The tree that [shutil.copytree(path, scratch)] copies. *)
Definition read_tree (path : string) (p : option node)
  : outcome (list (string * node)) :=
  match p with
  | None => Raise (FileNotFoundError path)
  | Some (File _) => Raise (NotADirectoryError path)
  | Some (Dir entries) => Ret entries
  end.

(** A directory entry written or overwritten. *)
Fixpoint entries_set (name : string) (n : node) (entries : list (string * node))
  : list (string * node) :=
  match entries with
  | [] => [(name, n)]
  | (k, v) :: rest =>
      if String.eqb k name then (k, n) :: rest
      else (k, v) :: entries_set name n rest
  end.

Definition ends_with (suffix s : string) : bool :=
  let n := String.length s in
  let m := String.length suffix in
  Nat.leb m n && String.eqb (substring (n - m) m s) suffix.

Fixpoint contains (c : ascii) (s : string) : bool :=
  match s with
  | EmptyString => false
  | String a rest => Ascii.eqb a c || contains c rest
  end.

Fixpoint insert_by_name (e : string * node) (l : list (string * node))
  : list (string * node) :=
  match l with
  | [] => [e]
  | x :: t =>
      if String.leb (fst e) (fst x) then e :: l else x :: insert_by_name e t
  end.

(** [sorted(path.glob("*.json"))]; a path that is not a directory has no
    match. *)
Definition sorted_glob_json (p : option node) : list (string * node) :=
  match p with
  | Some (Dir entries) =>
      fold_right insert_by_name []
        (filter (fun e => ends_with ".json" (fst e)) entries)
  | _ => []
  end.

End Disk.

(* ================================================================== *)
(** * The compiler: [JsonCompiler] *)
(* ================================================================== *)

Module Compiler.
Import Disk.

(** A failure of the environment during one operation on the live store:
    the error raised, and what the operation leaves behind at its target
    (a file operation leaves the file absent or with some text, a tree
    operation leaves the directory absent or with some entries). *)
Record fault : Type := Fault {
  errno : string;
  file_left : option content;
  tree_left : option (list (string * node))
}.

(** The compiler object, the disk, the logger, and the failures the
    environment holds for the coming operations on the live store ([None]:
    the operation goes through). *)
Record state : Type := State {
  _ordering_data : json;
  _main_config : json;
  _custom_config : list json;
  disk : fs;
  logged : list log_record;
  pending : list (option fault)
}.

(** [JsonCompiler()]. *)
Definition init (d : fs) (faults : list (option fault)) : state :=
  State (JArr []) (JObj []) [] d [] faults.

Definition log (l : level) (f : string) (a : list log_arg) : M state unit :=
  fun s => (Ret tt, State (_ordering_data s) (_main_config s) (_custom_config s)
                          (disk s) (logged s ++ [LogRecord l f a]) (pending s)).

Definition set_ordering_data (od : json) : M state unit :=
  fun s => (Ret tt, State od (_main_config s) (_custom_config s)
                          (disk s) (logged s) (pending s)).

Definition set_main_config (m : json) : M state unit :=
  fun s => (Ret tt, State (_ordering_data s) m (_custom_config s)
                          (disk s) (logged s) (pending s)).

Definition set_custom_config (c : list json) : M state unit :=
  fun s => (Ret tt, State (_ordering_data s) (_main_config s) c
                          (disk s) (logged s) (pending s)).

Definition set_logged (lg : list log_record) : M state unit :=
  fun s => (Ret tt, State (_ordering_data s) (_main_config s) (_custom_config s)
                          (disk s) lg (pending s)).

Definition set_disk (d : fs) (s : state) : state :=
  State (_ordering_data s) (_main_config s) (_custom_config s)
        d (logged s) (pending s).

Definition set_pending (p : list (option fault)) (s : state) : state :=
  State (_ordering_data s) (_main_config s) (_custom_config s)
        (disk s) (logged s) p.

Definition with_order_json (n : option node) (d : fs) : fs :=
  FS (main_json d) (groups_dir d) n (config_json d).

Definition with_groups_dir (n : option node) (d : fs) : fs :=
  FS (main_json d) n (order_json d) (config_json d).

Definition with_config_json (n : option node) (d : fs) : fs :=
  FS (main_json d) (groups_dir d) (order_json d) n.

Definition main_path := "config/main.json".
Definition groups_path := "config/custom/groups".
Definition order_path := "config/custom/group_order/order.json".
Definition out_path := "config.json".

Definition is_dict (j : json) : bool :=
  match j with JObj _ => true | _ => false end.

Definition is_list (j : json) : bool :=
  match j with JArr _ => true | _ => false end.

(** [len(x)]. *)
Definition py_len (j : json) : outcome nat :=
  match j with
  | JArr items => Ret (length items)
  | JObj fields => Ret (length fields)
  | JStr s => Ret (String.length s)
  | _ => Raise (TypeError "object has no len()")
  end.

(** The names of an ordering manifest of the declared type [list[str]]. *)
Fixpoint names_of (items : list json) : option (list string) :=
  match items with
  | [] => Some []
  | JStr s :: rest => option_map (cons s) (names_of rest)
  | _ :: _ => None
  end.

Definition as_names (j : json) : option (list string) :=
  match j with
  | JArr items => names_of items
  | _ => None
  end.

Definition _load_main_config : M state unit :=
  s <- get ;;
  if negb (is_file (main_json (disk s))) then
    raise (FileNotFoundError main_path)
  else
    j <- lift (json_load main_path (main_json (disk s))) ;;
    set_main_config j ;;
    if negb (is_dict j) then
      raise (TypeError "JSON in config/custom_main.json must be an object (dict)")
    else log INFO "Loaded main config: %s" [AStr main_path].

(** The body of the loop over the fragment files. *)
Definition load_file (file : string * node) (_ : unit) : M state unit :=
  data <- lift (json_load (fst file) (Some (snd file))) ;;
  match data with
  | JArr items =>
      s <- get ;;
      set_custom_config (_custom_config s ++ items) ;;
      log INFO "Loaded custom config: %s" [AStr (fst file)]
  | _ => raise (TypeError "JSON in custom config must be an array (list)")
  end.

Definition _load_custom_config : M state unit :=
  s <- get ;;
  if negb (exists_ (groups_dir (disk s))) then
    log INFO "No custom directory found: %s (skipping)" [AStr groups_path]
  else
    let custom_config_files := sorted_glob_json (groups_dir (disk s)) in
    match custom_config_files with
    | [] => log INFO "No custom JSON files in: %s" [AStr groups_path]
    | _ => for_each custom_config_files load_file tt
    end.

(** [CustomConfigSorter(...).get_sorted_custom_config()], on the logger of
    the process. *)
Definition call_sorter (names : list string) : M state (list json) :=
  s <- get ;;
  let r := Sorter.get_sorted_custom_config
             (Sorter.init (_custom_config s) names (logged s)) in
  set_logged (Sorter.logged (snd r)) ;;
  lift (fst r).

Definition _sort_custom_config : M state unit :=
  s <- get ;;
  if negb (is_file (order_json (disk s))) then
    log INFO "Group order json is not found: %s (skipping)" [AStr order_path]
  else
    od <- lift (json_load order_path (order_json (disk s))) ;;
    set_ordering_data od ;;
    n <- lift (py_len od) ;;
    if Nat.eqb n 0 then log INFO "Group order json is empty (skipping)" []
    else if Nat.ltb n 2 then
      raise (ValueError "Group order json must have at least 2 group names")
    else
      match as_names od with
      | Some names =>
          sorted <- call_sorter names ;;
          set_custom_config sorted
      | None => raise (TypeError "group order json is not a list of str")
      end.

End Compiler.


Module Rewriter.
Import Disk Compiler.
Local Open Scope py_scope.

(** Keys of the [defaultdict]: lists and dictionaries are unhashable. *)
Definition hashable (k : json) : bool :=
  match k with
  | JArr _ | JObj _ => false
  | _ => true
  end.

(** [k1 == k2] on hashable values ([True == 1] and [False == 0]). *)
Definition key_eqb (a b : json) : bool :=
  match a, b with
  | JNull, JNull => true
  | JBool x, JBool y => Bool.eqb x y
  | JNum x, JNum y => Z.eqb x y
  | JBool x, JNum y => Z.eqb y (if x then 1 else 0)
  | JNum y, JBool x => Z.eqb y (if x then 1 else 0)
  | JStr x, JStr y => String.eqb x y
  | _, _ => false
  end.

(** [groups[key].append(obj)] on the insertion-ordered [defaultdict(list)]. *)
Fixpoint groups_append (key obj : json) (groups : list (json * list json))
  : list (json * list json) :=
  match groups with
  | [] => [(key, [obj])]
  | (k, objs) :: rest =>
      if key_eqb k key then (k, objs ++ [obj]) :: rest
      else (k, objs) :: groups_append key obj rest
  end.

(** The body of the partition loop. *)
Definition partition_step (config_obj : json) (groups : list (json * list json))
  : M state (list (json * list json)) :=
  key <- lift (getitem config_obj "group") ;;
  if negb (hashable key) then raise (TypeError "unhashable type")
  else ret (groups_append key config_obj groups).

(** [f"{group_name}"]. *)
Definition py_str (k : json) : string :=
  match k with
  | JStr s => s
  | JNum n => NilZero.string_of_int (Z.to_int n)
  | JBool true => "True"
  | JBool false => "False"
  | _ => "None"
  end.

(** One group file written in the scratch directory.  A name with a path
    separator does not name a file of that directory: where it leads (a
    directory that is missing, or a path outside the scratch directory) is
    for the file system to say, and the model stops there with the error of
    the missing directory.  What is proved of the files written is proved
    for names without a separator ([Wf.valid_record]). *)
Definition write_group (g : json * list json) (tmp : list (string * node))
  : M state (list (string * node)) :=
  let group_file := (py_str (fst g) ++ ".json")%string in
  if contains "/" group_file then raise (FileNotFoundError group_file)
  else ret (entries_set group_file (File (Doc (JArr (snd g)))) tmp).

(** The names of the ordering data held by the object. *)
Definition od_names (od : json) : list string :=
  match as_names od with
  | Some names => names
  | None => []
  end.

(** [", ".join(xs)] accepts strings only. *)
Definition join_names (xs : list json) : outcome (list string) :=
  match names_of xs with
  | Some names => Ret names
  | None => Raise (TypeError "sequence item: expected str instance")
  end.

(** An operation on the live store: it fails when the environment holds a
    failure for it, leaving its target damaged. *)
Definition store_op (damage : fault -> fs -> fs) (action : M state unit)
  : M state unit :=
  fun s =>
    match pending s with
    | Some f :: rest =>
        (Raise (OSError (errno f)),
         set_pending rest (set_disk (damage f (disk s)) s))
    | None :: rest => action (set_pending rest s)
    | [] => action s
    end.

(** [shutil.copy(scratch_file, self._group_order_file_path)]. *)
Definition copy_to_order (c : content) : M state unit :=
  store_op (fun f d => with_order_json (option_map File (file_left f)) d)
    (fun s =>
       match order_json (disk s) with
       | Some (Dir entries) =>
           (Ret tt,
            set_disk (with_order_json
                        (Some (Dir (entries_set "order.json" (File c) entries)))
                        (disk s)) s)
       | _ => (Ret tt, set_disk (with_order_json (Some (File c)) (disk s)) s)
       end).

(** [shutil.rmtree(self._custom_config_groups_dir)]. *)
Definition rmtree_groups : M state unit :=
  store_op (fun f d => with_groups_dir (option_map Dir (tree_left f)) d)
    (fun s =>
       match groups_dir (disk s) with
       | Some (Dir _) => (Ret tt, set_disk (with_groups_dir None (disk s)) s)
       | Some (File _) => (Raise (NotADirectoryError groups_path), s)
       | None => (Raise (FileNotFoundError groups_path), s)
       end).

(** [shutil.copytree(scratch_dir, self._custom_config_groups_dir)]. *)
Definition copytree_to_groups (entries : list (string * node)) : M state unit :=
  store_op (fun f d => with_groups_dir (option_map Dir (tree_left f)) d)
    (fun s =>
       match groups_dir (disk s) with
       | Some _ => (Raise (FileExistsError groups_path), s)
       | None =>
           (Ret tt, set_disk (with_groups_dir (Some (Dir entries)) (disk s)) s)
       end).

(** The three statements of the [try] block, and of the [except] block:
    copy the manifest, remove the directory if it exists, copy the tree. *)
Definition replace_store (manifest : content) (entries : list (string * node))
  : M state unit :=
  copy_to_order manifest ;;
  s <- get ;;
  (if exists_ (groups_dir (disk s)) then rmtree_groups else ret tt) ;;
  copytree_to_groups entries.

(** Lines 230-253: the partition of the sequence by group, the new store
    built in the scratch directory (group files and manifest), and the two
    informational reports. *)
Definition build_scratch : M state (content * list (string * node)) :=
  s <- get ;;
  groups <- for_each (_custom_config s) partition_step [] ;;
  groups_tmp_dir <- for_each groups write_group [] ;;
  let manifest := Doc (JArr (map fst groups)) in
  let names := od_names (_ordering_data s) in
  let removed_groups :=
    filter (fun n => negb (existsb (fun k => eq_str k n) (map fst groups)))
           (set_of_list names) in
  (if Nat.ltb 0 (length removed_groups)
   then log INFO "Removed groups: %s" [AJoin removed_groups]
   else ret tt) ;;
  let new_groups :=
    filter (fun k => negb (existsb (eq_str k) names)) (map fst groups) in
  (if Nat.ltb 0 (length new_groups)
   then joined <- lift (join_names new_groups) ;;
        log INFO "New groups: %s" [AJoin joined]
   else ret tt) ;;
  ret (manifest, groups_tmp_dir).

(** Lines 255-262: the snapshot of the live manifest and of the live
    directory in the scratch directory. *)
Definition backup_store : M state (content * list (string * node)) :=
  s <- get ;;
  backup_manifest <- lift (read_file order_path (order_json (disk s))) ;;
  backup_groups <- lift (read_tree groups_path (groups_dir (disk s))) ;;
  ret (backup_manifest, backup_groups).

(** Lines 264-277: the replacement of the live store, and on any exception
    its restoration from the snapshot, after which the exception is raised
    again. *)
Definition commit (fresh backup : content * list (string * node))
  : M state unit :=
  try_except (replace_store (fst fresh) (snd fresh))
    (fun e =>
       Some (log ERROR
               "Some exception occurred, during recreating custom config files. Restoring custom config files from backup..."
               [] ;;
             replace_store (fst backup) (snd backup) ;;
             raise e)).

Definition _recreate_custom_config_files : M state unit :=
  fresh <- build_scratch ;;
  backup <- backup_store ;;
  commit fresh backup ;;
  log INFO
    "Recreated config/custom/groups and config/custom/group_order/order.json with fresh data"
    [].

Definition _get_joined_main_and_custom_config : M state json :=
  s <- get ;;
  match _main_config s with
  | JObj fields =>
      ret (JObj (dict_set "customConfig" (JArr (_custom_config s)) fields))
  | _ => raise (TypeError "object does not support item assignment")
  end.

Definition _replace_config_in_root (config : json) : M state unit :=
  s <- get ;;
  match config_json (disk s) with
  | Some (Dir _) => raise (IsADirectoryError out_path)
  | _ =>
      put (set_disk (with_config_json (Some (File (Doc config))) (disk s)) s) ;;
      log INFO "Wrote merged config to: %s" [AStr out_path]
  end.

Definition run : M state unit :=
  _load_main_config ;;
  _load_custom_config ;;
  _sort_custom_config ;;
  _recreate_custom_config_files ;;
  config <- _get_joined_main_and_custom_config ;;
  _replace_config_in_root config.

(** The script: the process exits with status zero exactly when this
    returns. *)
Definition main : M state unit :=
  run ;;
  log INFO
    "Successfully recompiled config.json and updated in the theme root." [].

End Rewriter.

(* ================================================================== *)
(** * Vocabulary of the statements about the compiler *)
(* ================================================================== *)

Module Env.
Import Disk Compiler.

(** The path holds a file, or nothing. *)
Definition file_or_absent (p : option node) : bool :=
  match p with Some (Dir _) => false | _ => true end.

(** The path holds a directory, or nothing. *)
Definition dir_or_absent (p : option node) : bool :=
  match p with Some (File _) => false | _ => true end.

Definition goes_through (o : option fault) : bool :=
  match o with None => true | Some _ => false end.

(** The next [n] operations on the live store go through. *)
Definition calm (n : nat) (p : list (option fault)) : bool :=
  forallb goes_through (firstn n p).

(** The first failure the environment holds, if any, is followed by three
    operations that go through: the three of the restoration. *)
Fixpoint first_fault_then_calm (p : list (option fault)) : bool :=
  match p with
  | [] => true
  | None :: rest => first_fault_then_calm rest
  | Some _ :: rest => calm 3 rest
  end.

End Env.


Module Wf.
Import Disk Compiler.

(** What the loop over the fragment files accumulates, when every file is a
    JSON array. *)
Fixpoint read_all (files : list (string * node)) : option (list json) :=
  match files with
  | [] => Some []
  | (_, File (Doc (JArr items))) :: rest => option_map (app items) (read_all rest)
  | _ :: _ => None
  end.

(** The fragment Record Sequence held by the disk: the arrays of the
    [*.json] files of the group directory, concatenated in file name order;
    none when the directory is absent. *)
Definition fragments (d : fs) : option (list json) :=
  match groups_dir d with
  | None => Some []
  | p => read_all (sorted_glob_json p)
  end.

(** A record whose group is a string that names a file. *)
Definition valid_record (r : json) : bool :=
  match getitem r "group" with
  | Ret (JStr g) => negb (contains "/" g)
  | _ => false
  end.

(** A key of the partition that is a string and names a file. *)
Definition key_ok (k : json) : bool :=
  match k with
  | JStr n => negb (contains "/" n)
  | _ => false
  end.


(** The three loading phases of [run], before anything is written. *)
Definition load_and_sort : M state unit :=
  bind _load_main_config (fun _ =>
  bind _load_custom_config (fun _ => _sort_custom_config)).

End Wf.

(** ** Sample stores *)

Definition sample_fragment : list json := [record "x" 1; record "y" 2].

(** Main config [{"a": 1}], one fragment file, and a manifest. *)
Definition sample_disk (manifest : list string) : Disk.fs :=
  Disk.FS (Some (Disk.File (Disk.Doc (JObj [("a", JNum 1)]))))
    (Some (Disk.Dir [("frag.json", Disk.File (Disk.Doc (JArr sample_fragment)))]))
    (Some (Disk.File (Disk.Doc (JArr (map JStr manifest)))))
    None.


(* ================================================================== *)
(** * The ordering engine on the Python heap *)
(* ================================================================== *)

(** Lists and dictionaries are objects with an identity: the caller's
    sequence and the sorter's copy live in one store, and a value is an
    immutable scalar or a reference into it. *)
Module Heap.

Definition loc := nat.

Inductive val : Type :=
| VNull
| VBool (b : bool)
| VNum (n : Z)
| VStr (s : string)
| VRef (l : loc).

Inductive obj : Type :=
| OList (items : list val)
| ODict (fields : list (string * val)).

Record state : Type := State {
  heap : list obj;
  _custom_config : val;
  _ordering_data : list string;
  logged : list log_record
}.

Definition set_heap (h : list obj) (s : state) : state :=
  State h (_custom_config s) (_ordering_data s) (logged s).

Definition set_custom_config (v : val) : M state unit :=
  fun s => (Ret tt, State (heap s) v (_ordering_data s) (logged s)).

Definition log (l : level) (f : string) (a : list log_arg) : M state unit :=
  fun s => (Ret tt, State (heap s) (_custom_config s) (_ordering_data s)
                          (logged s ++ [LogRecord l f a])).

(** A new object, at the next free address. *)
Definition alloc (o : obj) : M state val :=
  fun s => (Ret (VRef (length (heap s))), set_heap (heap s ++ [o]) s).

Fixpoint update_at (l : loc) (f : obj -> obj) (h : list obj) : list obj :=
  match h, l with
  | [], _ => []
  | o :: rest, 0 => f o :: rest
  | o :: rest, S l' => o :: update_at l' f rest
  end.

Fixpoint assoc (l : loc) (memo : list (loc * loc)) : option loc :=
  match memo with
  | [] => None
  | (a, b) :: rest => if Nat.eqb a l then Some b else assoc l rest
  end.

Definition append_item (a : val) (o : obj) : obj :=
  match o with
  | OList items => OList (items ++ [a])
  | ODict _ => o
  end.

Definition set_field (k : string) (v : val) (o : obj) : obj :=
  match o with
  | ODict fields => ODict (fields ++ [(k, v)])
  | OList _ => o
  end.

(** [copy.deepcopy(x, memo)]: scalars are returned as they are; a list or a
    dictionary already copied is answered from the memo; otherwise an empty
    copy is allocated, recorded in the memo, and filled element by element.
    The recursion depth is bounded, as in Python. *)
Fixpoint deepcopy (depth : nat) (x : val) (memo : list (loc * loc))
  (h : list obj) : outcome val * (list (loc * loc) * list obj) :=
  match depth with
  | 0 => (Raise RecursionError, (memo, h))
  | S depth' =>
      match x with
      | VRef l =>
          match assoc l memo with
          | Some y => (Ret (VRef y), (memo, h))
          | None =>
              match nth_error h l with
              | None => (Raise (TypeError "no such object"), (memo, h))
              | Some (OList items) =>
                  let y := length h in
                  (fix copy_items (items : list val) (memo : list (loc * loc))
                       (h : list obj) {struct items} :=
                     match items with
                     | [] => (Ret (VRef y), (memo, h))
                     | a :: rest =>
                         match deepcopy depth' a memo h with
                         | (Ret a', (memo', h')) =>
                             copy_items rest memo'
                               (update_at y (append_item a') h')
                         | (Raise e, st) => (Raise e, st)
                         end
                     end) items ((l, y) :: memo) (h ++ [OList []])
              | Some (ODict fields) =>
                  let y := length h in
                  (fix copy_fields (fields : list (string * val))
                       (memo : list (loc * loc)) (h : list obj)
                       {struct fields} :=
                     match fields with
                     | [] => (Ret (VRef y), (memo, h))
                     | (k, v) :: rest =>
                         match deepcopy depth' v memo h with
                         | (Ret v', (memo', h')) =>
                             copy_fields rest memo'
                               (update_at y (set_field k v') h')
                         | (Raise e, st) => (Raise e, st)
                         end
                     end) fields ((l, y) :: memo) (h ++ [ODict []])
              end
          end
      | _ => (Ret x, (memo, h))
      end
  end.

(** [CustomConfigSorter(custom_config, ordering_data)] on the heap [h]. *)
Definition init (depth : nat) (h : list obj) (custom_config : val)
  (ordering_data : list string) : outcome unit * state :=
  match deepcopy depth custom_config [] h with
  | (Ret copy, (_, h')) => (Ret tt, State h' copy ordering_data [])
  | (Raise e, (_, h')) => (Raise e, State h' VNull ordering_data [])
  end.

(** The elements [enumerate(x)] goes through. *)
Definition iterate (x : val) : M state (list val) :=
  fun s =>
    match x with
    | VRef l =>
        match nth_error (heap s) l with
        | Some (OList items) => (Ret items, s)
        | Some (ODict fields) => (Ret (map (fun kv => VStr (fst kv)) fields), s)
        | None => (Raise (TypeError "no such object"), s)
        end
    | VStr _ => (Raise (TypeError "string indices must be integers"), s)
    | _ => (Raise (TypeError "object is not iterable"), s)
    end.

(** [x[lo:hi]], a new list. *)
Definition py_slice (lo : nat) (hi : option nat) (x : val) : M state val :=
  fun s =>
    match x with
    | VRef l =>
        match nth_error (heap s) l with
        | Some (OList items) =>
            alloc (OList (skipn lo match hi with
                                   | Some n => firstn n items
                                   | None => items
                                   end)) s
        | _ => (Raise (TypeError "unhashable type: 'slice'"), s)
        end
    | _ => (Raise (TypeError "object is not subscriptable"), s)
    end.

(** [x + y] on lists, a new list. *)
Definition py_concat (x y : val) : M state val :=
  fun s =>
    match x, y with
    | VRef a, VRef b =>
        match nth_error (heap s) a, nth_error (heap s) b with
        | Some (OList xs), Some (OList ys) => alloc (OList (xs ++ ys)) s
        | _, _ => (Raise (TypeError "can only concatenate list to list"), s)
        end
    | _, _ => (Raise (TypeError "unsupported operand type(s) for +"), s)
    end.

(** [data_obj["group"]]. *)
Definition getitem_group (data_obj : val) : M state val :=
  fun s =>
    match data_obj with
    | VRef l =>
        match nth_error (heap s) l with
        | Some (ODict fields) =>
            match find (fun kv => String.eqb (fst kv) "group") fields with
            | Some kv => (Ret (snd kv), s)
            | None => (Raise (KeyError "group"), s)
            end
        | _ => (Raise (TypeError "list indices must be integers"), s)
        end
    | _ => (Raise (TypeError "object is not subscriptable by a str key"), s)
    end.

Definition eq_name (v : val) (name : string) : bool :=
  match v with
  | VStr s => String.eqb s name
  | _ => false
  end.

Local Open Scope py_scope.

Fixpoint collect_loop (group_name : string) (i : nat) (items : list val)
  (item : Sorter.GroupOrderingDataItem) : M state Sorter.GroupOrderingDataItem :=
  match items with
  | [] => ret item
  | data_obj :: rest =>
      data_obj_group <-
        try_except (getitem_group data_obj)
          (fun e =>
             match e with
             | KeyError _ =>
                 Some (log ERROR
                         "Malformed custom config object - 'group' key is missing:\n%s"
                         [match data_obj with
                          | VRef l => AObject l
                          | _ => AStr EmptyString
                          end] ;;
                       raise e)
             | _ => None
             end) ;;
      let item1 :=
        if Sorter.is_none (Sorter.first_item_index item)
           && eq_name data_obj_group group_name
        then Sorter.Item (Some i) (Sorter.last_item_index item)
        else item in
      let item2 :=
        if eq_name data_obj_group group_name
        then Sorter.Item (Sorter.first_item_index item1) (Some i)
        else item1 in
      collect_loop group_name (S i) rest item2
  end.

Definition _collect_group_ordering_data_item (group_name : string)
  : M state Sorter.GroupOrderingDataItem :=
  self <- get ;;
  items <- iterate (_custom_config self) ;;
  item <- collect_loop group_name 0 items (Sorter.Item None None) ;;
  if negb (Sorter.is_found item) then
    log WARNING "Group '%s' is not found in custom config" [AStr group_name] ;;
    raise (SortingGroupDoesNotExist group_name)
  else ret item.

Definition index (o : option nat) : M state nat :=
  match o with
  | Some i => ret i
  | None => raise (TypeError "unsupported operand type(s) for +: 'NoneType' and 'int'")
  end.

Definition _pop_group_2 (group_name_2 : string) : M state val :=
  item <- _collect_group_ordering_data_item group_name_2 ;;
  first <- index (Sorter.first_item_index item) ;;
  last <- index (Sorter.last_item_index item) ;;
  self <- get ;;
  before_group_2 <- py_slice 0 (Some first) (_custom_config self) ;;
  group_2 <- py_slice first (Some (last + 1)) (_custom_config self) ;;
  after_group_2 <- py_slice (last + 1) None (_custom_config self) ;;
  joined <- py_concat before_group_2 after_group_2 ;;
  set_custom_config joined ;;
  ret group_2.

Definition _insert_group_2_after_group_1 (group_name_1 : string) (group_2 : val)
  : M state unit :=
  item <- _collect_group_ordering_data_item group_name_1 ;;
  last <- index (Sorter.last_item_index item) ;;
  self <- get ;;
  before_group_2 <- py_slice 0 (Some (last + 1)) (_custom_config self) ;;
  after_group_2 <- py_slice (last + 1) None (_custom_config self) ;;
  front <- py_concat before_group_2 group_2 ;;
  joined <- py_concat front after_group_2 ;;
  set_custom_config joined.

Definition sort_pair (pair : string * string) (missing_groups : list string)
  : M state (list string) :=
  let '(group_name_1, group_name_2) := pair in
  try_except
    (group_2 <- _pop_group_2 group_name_2 ;;
     _insert_group_2_after_group_1 group_name_1 group_2 ;;
     ret missing_groups)
    (fun e =>
       match e with
       | SortingGroupDoesNotExist g => Some (ret (set_add g missing_groups))
       | _ => None
       end).

Definition get_sorted_custom_config : M state val :=
  self <- get ;;
  missing_groups <-
    for_each (Sorter.adjacent_pairs (_ordering_data self)) sort_pair [] ;;
  let sorted_groups :=
    set_difference (set_of_list (_ordering_data self)) missing_groups in
  let sorted_groups :=
    filter (fun group_name => set_mem group_name sorted_groups)
           (_ordering_data self) in
  log INFO "Sorted custom config groups: %s" [AJoin sorted_groups] ;;
  self <- get ;;
  ret (_custom_config self).

(** [CustomConfigSorter(custom_config, ordering_data).get_sorted_custom_config()]
    called with the heap [h]. *)
Definition sorter (depth : nat) (h : list obj) (custom_config : val)
  (ordering_data : list string) : outcome val * state :=
  match init depth h custom_config ordering_data with
  | (Ret _, s) => get_sorted_custom_config s
  | (Raise e, s) => (Raise e, s)
  end.

(** ** Vocabulary *)

(** The value is a scalar or refers to an address from [n] on. *)
Definition fresh (n : nat) (v : val) : bool :=
  match v with
  | VRef l => Nat.leb n l
  | _ => true
  end.

(** The object refers to addresses from [n] on only. *)
Definition closed (n : nat) (o : obj) : bool :=
  match o with
  | OList items => forallb (fresh n) items
  | ODict fields => forallb (fun kv => fresh n (snd kv)) fields
  end.

(** The heap [h] extends [h0]: the objects of [h0] are as they were, and
    the objects added refer to added objects only. *)
Definition extends (h0 h : list obj) : Prop :=
  length h0 <= length h
  /\ (forall k, k < length h0 -> nth_error h k = nth_error h0 k)
  /\ (forall k o, length h0 <= k -> nth_error h k = Some o ->
                  closed (length h0) o = true).

(** The memo of a deep copy answers with addresses from [n] on. *)
Definition memo_fresh (n : nat) (memo : list (loc * loc)) : Prop :=
  forall a y, assoc a memo = Some y -> n <= y.

(** The state of a sorter at work on a heap that extends [h0]: its sequence
    is one of the added objects. *)
Definition works_aside (h0 : list obj) (s : state) : Prop :=
  extends h0 (heap s) /\ fresh (length h0) (_custom_config s) = true.

(** The computation keeps working aside, and what it returns satisfies
    [Q]. *)
Definition safe (h0 : list obj) {A} (m : M state A) (Q : A -> Prop) : Prop :=
  forall s, works_aside h0 s ->
            works_aside h0 (snd (m s)) /\ forall a, fst (m s) = Ret a -> Q a.

End Heap.


(* ================================================================== *)
(** * Vocabulary of the statements about the rest of the program *)
(* ================================================================== *)

Module Layout.

(** The record belongs to one of the groups named. *)
Definition named_in (names : list string) (r : json) : bool :=
  existsb (fun g => Spec.group_is g r) names.

(** The records that belong to none of the groups named, in sequence
    order. *)
Definition unnamed (names : list string) (cfg : list json) : list json :=
  filter (fun r => negb (named_in names r)) cfg.

(** The record is an object without a [group] key. *)
Definition lacks_group (r : json) : bool :=
  match r with
  | JObj fields =>
      match dict_get "group" fields with
      | None => true
      | Some _ => false
      end
  | _ => false
  end.

Definition malformed (r : json) : log_record :=
  LogRecord ERROR
    "Malformed custom config object - 'group' key is missing:\n%s" [ADump r].

Definition is_warning (r : log_record) : bool :=
  match lvl r with WARNING => true | _ => false end.

(** The group of a record, when it is a string. *)
Definition group_name (r : json) : option string :=
  match getitem r "group" with
  | Ret (JStr g) => Some g
  | _ => None
  end.

(** Every element is a record whose group is a string. *)
Definition string_grouped (cfg : list json) : bool :=
  forallb (fun r => match group_name r with Some _ => true | None => false end)
          cfg.

(** The group names of the sequence, each once, in the order of the first
    record of each group. *)
Fixpoint group_names (cfg : list json) : list string :=
  match cfg with
  | [] => []
  | r :: rest =>
      match group_name r with
      | Some g => g :: filter (fun h => negb (String.eqb h g)) (group_names rest)
      | None => group_names rest
      end
  end.

(** The file of group [g]: it is named after the group and holds the
    records of the group, in sequence order. *)
Definition group_file (cfg : list json) (g : string) : string * Disk.node :=
  (String.append g ".json", Disk.File (Disk.Doc (JArr (Spec.members g cfg)))).

(** The informational record about a set of group names, logged only when
    the set is not empty. *)
Definition report (f : string) (names : list string) : list log_record :=
  if Nat.ltb 0 (length names) then [LogRecord INFO f [AJoin names]] else [].

(** The entries of a directory that [glob("*.json")] matches. *)
Definition json_entries (entries : list (string * Disk.node))
  : list (string * Disk.node) :=
  filter (fun e => Disk.ends_with ".json" (fst e)) entries.

(** The order of file names. *)
Definition by_name (a b : string * Disk.node) : Prop :=
  String.leb (fst a) (fst b) = true.

End Layout.

(* ================================================================== *)
(** * Locating the theme root: [JsonCompiler._get_theme_root] *)
(* ================================================================== *)

Module ThemeRoot.
Local Open Scope py_scope.

(** A resolved absolute path, as its components from the innermost one up
    to the root: [/a/b/c] is [["c"; "b"; "a"]], and [p / name] is
    [name :: p]. *)
Definition path := list string.

Definition PUBLII_THEME_ROOT_MARKER : string := ".publii_theme_root".

(** [p.parents]: the directories above [p], the nearest first. *)
Fixpoint parents (p : path) : list path :=
  match p with
  | [] => []
  | _ :: up => up :: parents up
  end.

(** [str(p)]. *)
Definition render (p : path) : string :=
  match p with
  | [] => "/"
  | _ => fold_right (fun c acc => String.append acc (String.append "/" c))
                    EmptyString p
  end.

Definition log (l : level) (f : string) (a : list log_arg)
  : M (list log_record) unit :=
  fun lg => (Ret tt, lg ++ [LogRecord l f a]).

(** The loop over the candidates; [is_file] is what the file system answers
    to [Path.is_file]. *)
Fixpoint search (is_file : path -> bool) (candidates : list path)
  : M (list log_record) path :=
  match candidates with
  | [] =>
      raise (FileNotFoundError
               "Unable to locate theme root (expected a '.publii_theme_root' file in some parent).")
  | candidate :: rest =>
      let cfg := PUBLII_THEME_ROOT_MARKER :: candidate in
      if is_file cfg then
        log INFO "Theme root: %s" [AStr (render candidate)] ;;
        ret candidate
      else search is_file rest
  end.

(** [cwd] is the resolved path of the script itself. *)
Definition _get_theme_root (is_file : path -> bool) (cwd : path)
  : M (list log_record) path :=
  search is_file ([cwd] ++ parents cwd).

End ThemeRoot.

(* ================================================================== *)
(** * What a value on the heap denotes *)
(* ================================================================== *)

Module Denote.
Import Heap.

(** All the answers, when none is missing. *)
Fixpoint all_some {A} (l : list (option A)) : option (list A) :=
  match l with
  | [] => Some []
  | Some a :: rest => option_map (cons a) (all_some rest)
  | None :: _ => None
  end.

(** The JSON value that [v] denotes on the heap [h], read down to the depth
    [fuel]; a value nested deeper, or one that contains itself, has no
    reading. *)
Fixpoint read (fuel : nat) (h : list obj) (v : val) : option json :=
  match fuel with
  | 0 => None
  | S fuel' =>
      match v with
      | VNull => Some JNull
      | VBool b => Some (JBool b)
      | VNum n => Some (JNum n)
      | VStr s => Some (JStr s)
      | VRef l =>
          match nth_error h l with
          | Some (OList items) =>
              option_map JArr (all_some (map (read fuel' h) items))
          | Some (ODict fields) =>
              option_map JObj
                (all_some
                   (map (fun kv => option_map (pair (fst kv))
                                              (read fuel' h (snd kv)))
                        fields))
          | None => None
          end
      end
  end.

(** The copy of a value under a memo: a scalar is its own copy, an object
    is copied when the memo knows it. *)
Definition translate (memo : list (loc * loc)) (v : val) : option val :=
  match v with
  | VRef l => option_map VRef (assoc l memo)
  | _ => Some v
  end.

(** The copy of an object: the object with every element replaced by its
    copy. *)
Definition image (memo : list (loc * loc)) (o : obj) : option obj :=
  match o with
  | OList items => option_map OList (all_some (map (translate memo) items))
  | ODict fields =>
      option_map ODict
        (all_some
           (map (fun kv => option_map (pair (fst kv)) (translate memo (snd kv)))
                fields))
  end.

(** The object at [y] on [h] is the finished copy of the object at [l] on
    [h0]. *)
Definition complete (h0 : list obj) (memo : list (loc * loc)) (h : list obj)
  (l y : loc) : Prop :=
  exists o o',
    nth_error h0 l = Some o /\ nth_error h y = Some o'
    /\ image memo o = Some o'.

(** The memo answers with addresses of the heap. *)
Definition bounded (memo : list (loc * loc)) (h : list obj) : Prop :=
  forall l y, assoc l memo = Some y -> y < length h.

(** From [(memo, h)] to [(memo', h')] a deep copy has only added: the memo
    answers as before where it answered, the objects of [h] are as they
    were, and every answer added is the address of a finished copy among
    the objects added. *)
Definition grows (h0 : list obj) (memo : list (loc * loc)) (h : list obj)
  (memo' : list (loc * loc)) (h' : list obj) : Prop :=
  (forall l y, assoc l memo = Some y -> assoc l memo' = Some y)
  /\ length h <= length h'
  /\ (forall k, k < length h -> nth_error h' k = nth_error h k)
  /\ (forall l y, assoc l memo' = Some y -> assoc l memo = None ->
        length h <= y < length h' /\ complete h0 memo' h' l y).

(** A list on the heap whose elements denote the elements of [js]. *)
Definition list_of (fuel : nat) (h : list obj) (v : val) (js : list json)
  : Prop :=
  exists l items,
    v = VRef l /\ nth_error h l = Some (OList items)
    /\ Forall2 (fun a j => read fuel h a = Some j) items js.

(** The sorter on the heap and the sorter on values are at the same point:
    the sequence on the heap denotes the sequence of values, and the
    specification and the log are the same. *)
Definition sim (fuel : nat) (sh : Heap.state) (sp : Sorter.state) : Prop :=
  list_of fuel (heap sh) (Heap._custom_config sh) (Sorter._custom_config sp)
  /\ Heap._ordering_data sh = Sorter._ordering_data sp
  /\ Heap.logged sh = Sorter.logged sp.

End Denote.


(* ================================================================== *)
(** * Lists: first and last index of a predicate, contiguous spans *)
(* ================================================================== *)

Section ListFacts.
Context {A : Type} (p : A -> bool).
Import Spec.

Lemma first_idx_none (l : list A) :
  first_idx p l = None <-> existsb p l = false.
Proof.
  induction l as [|x t IH]; simpl; [tauto|].
  destruct (p x); simpl; [split; discriminate|].
  destruct (first_idx p t); simpl; split; intros H; try discriminate;
    try (apply IH; assumption).
  apply IH in H. discriminate.
Qed.

Lemma last_idx_none (l : list A) :
  last_idx p l = None <-> existsb p l = false.
Proof.
  induction l as [|x t IH]; simpl; [tauto|].
  destruct (last_idx p t).
  - split; [discriminate|]. intros H. apply orb_false_elim in H.
    destruct H as [_ H]. apply IH in H. discriminate.
  - assert (Ht : existsb p t = false) by (apply IH; reflexivity).
    rewrite Ht, orb_false_r. destruct (p x); split; congruence.
Qed.

Lemma first_idx_free (l : list A) :
  existsb p l = false -> first_idx p l = None.
Proof. apply first_idx_none. Qed.

Lemma last_idx_free (l : list A) :
  existsb p l = false -> last_idx p l = None.
Proof. apply last_idx_none. Qed.

Lemma first_idx_some (l : list A) :
  existsb p l = true -> exists k, first_idx p l = Some k.
Proof.
  intros H. destruct (first_idx p l) eqn:E; [eauto|].
  apply first_idx_none in E. congruence.
Qed.

Lemma last_idx_some (l : list A) :
  existsb p l = true -> exists k, last_idx p l = Some k.
Proof.
  intros H. destruct (last_idx p l) eqn:E; [eauto|].
  apply last_idx_none in E. congruence.
Qed.

Lemma last_idx_app (l1 l2 : list A) :
  last_idx p (l1 ++ l2) =
  match last_idx p l2 with
  | Some k => Some (length l1 + k)
  | None => last_idx p l1
  end.
Proof.
  induction l1 as [|x t IH]; simpl.
  - destruct (last_idx p l2); reflexivity.
  - rewrite IH. destruct (last_idx p l2); reflexivity.
Qed.

Lemma first_idx_app (l1 l2 : list A) :
  first_idx p (l1 ++ l2) =
  match first_idx p l1 with
  | Some k => Some k
  | None => option_map (Nat.add (length l1)) (first_idx p l2)
  end.
Proof.
  induction l1 as [|x t IH]; simpl.
  - destruct (first_idx p l2); reflexivity.
  - destruct (p x); [reflexivity|]. rewrite IH.
    destruct (first_idx p t); simpl; [reflexivity|].
    destruct (first_idx p l2); reflexivity.
Qed.

(** The last [p]-element splits the list. *)
Lemma last_idx_split (l : list A) (k : nat) :
  last_idx p l = Some k ->
  exists a y b, l = a ++ y :: b /\ length a = k /\ p y = true
                /\ existsb p b = false.
Proof.
  revert k. induction l as [|x t IH]; simpl; intros k H; [discriminate|].
  destruct (last_idx p t) as [j|] eqn:E.
  - injection H as <-. destruct (IH j eq_refl) as (a & y & b & -> & <- & Hy & Hb).
    exists (x :: a), y, b. auto.
  - destruct (p x) eqn:Hx; [|discriminate]. injection H as <-.
    exists [], x, t. repeat split; auto. now apply last_idx_none.
Qed.

Lemma first_idx_split (l : list A) (k : nat) :
  first_idx p l = Some k ->
  exists a y b, l = a ++ y :: b /\ length a = k /\ p y = true
                /\ existsb p a = false.
Proof.
  revert k. induction l as [|x t IH]; simpl; intros k H; [discriminate|].
  destruct (p x) eqn:Hx.
  - injection H as <-. exists [], x, t. auto.
  - destruct (first_idx p t) as [j|] eqn:E; [|discriminate].
    simpl in H. injection H as <-.
    destruct (IH j eq_refl) as (a & y & b & -> & <- & Hy & Ha).
    exists (x :: a), y, b. simpl. rewrite Hx. auto.
Qed.

Lemma last_idx_at (a b : list A) (y : A) :
  p y = true -> existsb p b = false ->
  last_idx p (a ++ y :: b) = Some (length a).
Proof.
  intros Hy Hb. rewrite last_idx_app. simpl.
  rewrite (last_idx_free b Hb), Hy. f_equal. lia.
Qed.

Lemma first_idx_at (a b : list A) (y : A) :
  p y = true -> existsb p a = false ->
  first_idx p (a ++ y :: b) = Some (length a).
Proof.
  intros Hy Ha. rewrite first_idx_app, (first_idx_free a Ha). simpl.
  rewrite Hy. simpl. f_equal. lia.
Qed.

Lemma first_le_last (l : list A) (f k : nat) :
  first_idx p l = Some f -> last_idx p l = Some k -> f <= k.
Proof.
  intros Hf Hk. destruct (first_idx_split l f Hf) as (a & y & b & -> & <- & Hy & Ha).
  rewrite last_idx_app in Hk. simpl in Hk.
  destruct (last_idx p b).
  - injection Hk as <-. lia.
  - rewrite Hy in Hk. injection Hk as <-. lia.
Qed.

(** ** Filters *)

Lemma filter_free (l : list A) :
  existsb p l = false -> filter p l = [].
Proof.
  induction l as [|x t IH]; simpl; [reflexivity|].
  intros H. apply orb_false_elim in H. destruct H as [-> H]. auto.
Qed.

Lemma filter_all (l : list A) :
  forallb p l = true -> filter p l = l.
Proof.
  induction l as [|x t IH]; simpl; [reflexivity|].
  intros H. apply andb_prop in H. destruct H as [-> H]. f_equal. auto.
Qed.

Lemma filter_neg_free (l : list A) :
  existsb p l = false -> filter (fun x => negb (p x)) l = l.
Proof.
  induction l as [|x t IH]; simpl; [reflexivity|].
  intros H. apply orb_false_elim in H. destruct H as [-> H]. simpl.
  f_equal. auto.
Qed.

Lemma filter_neg_all (l : list A) :
  forallb p l = true -> filter (fun x => negb (p x)) l = [].
Proof.
  induction l as [|x t IH]; simpl; [reflexivity|].
  intros H. apply andb_prop in H. destruct H as [-> H]. simpl. auto.
Qed.

Lemma existsb_filter_neg (l : list A) :
  existsb p (filter (fun x => negb (p x)) l) = false.
Proof.
  induction l as [|x t IH]; simpl; [reflexivity|].
  destruct (p x) eqn:Hx; simpl; [assumption|]. now rewrite Hx.
Qed.

Lemma forallb_filter (l : list A) : forallb p (filter p l) = true.
Proof.
  induction l as [|x t IH]; simpl; [reflexivity|].
  destruct (p x) eqn:Hx; simpl; [now rewrite Hx|assumption].
Qed.

Lemma filter_nonempty (l : list A) :
  existsb p l = true -> filter p l <> [].
Proof.
  induction l as [|x t IH]; simpl; [discriminate|].
  destruct (p x); simpl; [discriminate|auto].
Qed.

Lemma filter_partition_perm (l : list A) :
  Permutation l (filter p l ++ filter (fun x => negb (p x)) l).
Proof.
  induction l as [|x t IH]; simpl; [constructor|].
  destruct (p x); simpl.
  - now constructor.
  - now apply Permutation_cons_app.
Qed.

(** ** Contiguous spans *)

Lemma inside_contiguous (l : list A) :
  inside p l = true -> contiguousb p l = true.
Proof.
  destruct l as [|x t]; simpl; [reflexivity|].
  destruct (p x) eqn:Hx; [auto|]. intros H.
  apply negb_true_iff in H. clear Hx. induction t as [|y u IH]; simpl in *; [reflexivity|].
  apply orb_false_elim in H. destruct H as [-> H]. auto.
Qed.

Lemma free_contiguous (l : list A) :
  existsb p l = false -> contiguousb p l = true.
Proof.
  induction l as [|x t IH]; simpl; [reflexivity|].
  intros H. apply orb_false_elim in H. destruct H as [-> H]. auto.
Qed.

Lemma free_inside (l : list A) :
  existsb p l = false -> inside p l = true.
Proof.
  destruct l as [|x t]; simpl; [reflexivity|].
  intros H. apply orb_false_elim in H. destruct H as [-> H]. now rewrite H.
Qed.

(** A contiguous span, as a decomposition. *)
Lemma inside_decomp (l : list A) :
  inside p l = true ->
  exists m q, l = m ++ q /\ forallb p m = true /\ existsb p q = false.
Proof.
  induction l as [|x t IH]; simpl.
  - exists [], []. auto.
  - destruct (p x) eqn:Hx; intros H.
    + destruct (IH H) as (m & q & -> & Hm & Hq).
      exists (x :: m), q. simpl. rewrite Hx. auto.
    + exists [], (x :: t). simpl. rewrite Hx. apply negb_true_iff in H. auto.
Qed.

Lemma contiguous_decomp (l : list A) :
  contiguousb p l = true ->
  exists a m q, l = a ++ m ++ q /\ existsb p a = false
                /\ forallb p m = true /\ existsb p q = false.
Proof.
  induction l as [|x t IH]; simpl.
  - exists [], [], []. auto.
  - destruct (p x) eqn:Hx; intros H.
    + destruct (inside_decomp t H) as (m & q & -> & Hm & Hq).
      exists [], (x :: m), q. simpl. rewrite Hx. auto.
    + destruct (IH H) as (a & m & q & -> & Ha & Hm & Hq).
      exists (x :: a), m, q. simpl. rewrite Hx. auto.
Qed.

Lemma decomp_inside (m q : list A) :
  forallb p m = true -> existsb p q = false -> inside p (m ++ q) = true.
Proof.
  intros Hm Hq. induction m as [|x t IH]; simpl in *.
  - now apply free_inside.
  - apply andb_prop in Hm. destruct Hm as [-> Hm]. auto.
Qed.

Lemma decomp_contiguous (a m q : list A) :
  existsb p a = false -> forallb p m = true -> existsb p q = false ->
  contiguousb p (a ++ m ++ q) = true.
Proof.
  intros Ha Hm Hq. induction a as [|x t IH]; simpl in *.
  - apply inside_contiguous. now apply decomp_inside.
  - apply orb_false_elim in Ha. destruct Ha as [-> Ha]. auto.
Qed.

End ListFacts.


(* ================================================================== *)
(** * The engine, method by method *)
(* ================================================================== *)

Section EngineSteps.
Import Sorter Spec.
Local Open Scope py_scope.

Lemma group_is_has_group (g : string) (r : json) :
  group_is g r = true -> has_group r = true.
Proof. unfold group_is, has_group. destruct (getitem r "group"); auto. Qed.

(** A record belongs to one group only. *)
Lemma group_is_unique (g h : string) (r : json) :
  group_is g r = true -> group_is h r = true -> g = h.
Proof.
  unfold group_is. destruct (getitem r "group") as [v|]; [|discriminate].
  destruct v; simpl; try discriminate.
  intros H1 H2. apply String.eqb_eq in H1, H2. congruence.
Qed.

Lemma group_is_other (g h : string) (r : json) :
  g <> h -> group_is g r = true -> group_is h r = false.
Proof.
  intros Hne Hg. destruct (group_is h r) eqn:Hh; [|reflexivity].
  exfalso. apply Hne. eapply group_is_unique; eassumption.
Qed.

Lemma forallb_other (g h : string) (l : list json) :
  g <> h -> forallb (group_is g) l = true -> existsb (group_is h) l = false.
Proof.
  intros Hne. induction l as [|x t IH]; simpl; [reflexivity|].
  intros H. apply andb_prop in H. destruct H as [Hx Ht].
  rewrite (group_is_other g h x Hne Hx). auto.
Qed.

(** On a Record Sequence the scanning loop never raises and computes the
    first and the last index of the group. *)
Lemma collect_loop_ok (g : string) (items : list json) :
  records_ok items = true ->
  forall (i : nat) (item : GroupOrderingDataItem) (s : state),
    collect_loop g i items item s =
    (Ret (Item
            match first_item_index item with
            | Some f => Some f
            | None => option_map (Nat.add i) (first_idx (group_is g) items)
            end
            match last_idx (group_is g) items with
            | Some k => Some (i + k)
            | None => last_item_index item
            end), s).
Proof.
  induction items as [|r rest IH]; intros Hok i item s.
  - simpl. destruct item as [f l]. simpl. destruct f; reflexivity.
  - simpl in Hok. apply andb_prop in Hok. destruct Hok as [Hr Hrest].
    cbn [collect_loop]. unfold bind at 1, try_except, lift.
    unfold has_group in Hr.
    destruct (getitem r "group") as [v|e] eqn:Hv; [|discriminate].
    assert (Hg : group_is g r = eq_str v g) by (unfold group_is; now rewrite Hv).
    cbn [first_idx last_idx]. rewrite Hg.
    rewrite (IH Hrest). clear IH Hg.
    destruct item as [[f|] l]; destruct (eq_str v g);
      destruct (last_idx (group_is g) rest);
      destruct (first_idx (group_is g) rest);
      cbn; repeat f_equal; lia.
Qed.

Lemma collect_found (g : string) (s : state) (f l : nat) :
  records_ok (_custom_config s) = true ->
  first_idx (group_is g) (_custom_config s) = Some f ->
  last_idx (group_is g) (_custom_config s) = Some l ->
  _collect_group_ordering_data_item g s = (Ret (Item (Some f) (Some l)), s).
Proof.
  intros Hok Hf Hl. unfold _collect_group_ordering_data_item, bind, get.
  rewrite (collect_loop_ok g _ Hok). cbn. rewrite Hf, Hl. cbn.
  reflexivity.
Qed.

Lemma collect_missing (g : string) (s : state) :
  records_ok (_custom_config s) = true ->
  existsb (group_is g) (_custom_config s) = false ->
  _collect_group_ordering_data_item g s =
  (Raise (SortingGroupDoesNotExist g), add_log [warning g] s).
Proof.
  intros Hok Hfree. unfold _collect_group_ordering_data_item, bind, get.
  rewrite (collect_loop_ok g _ Hok). cbn.
  rewrite (first_idx_free _ _ Hfree), (last_idx_free _ _ Hfree). reflexivity.
Qed.

(** A record that lacks the field stops the scan at once: the error is
    logged with the record and the [KeyError] propagates. *)
Lemma collect_loop_keyerror (g : string) (pre post : list json) (r : json) :
  records_ok pre = true -> getitem r "group" = Raise (KeyError "group") ->
  forall (i : nat) (item : GroupOrderingDataItem) (s : state),
    collect_loop g i (pre ++ r :: post) item s =
    (Raise (KeyError "group"),
     add_log [LogRecord ERROR
                "Malformed custom config object - 'group' key is missing:\n%s"
                [ADump r]] s).
Proof.
  intros Hok Hr. induction pre as [|x t IH]; intros i item s.
  - simpl. unfold bind, try_except, lift. rewrite Hr. reflexivity.
  - simpl in Hok. apply andb_prop in Hok. destruct Hok as [Hx Ht].
    cbn [app collect_loop]. unfold bind at 1, try_except, lift.
    unfold has_group in Hx.
    destruct (getitem x "group") as [v|e]; [|discriminate].
    apply IH. assumption.
Qed.

Lemma pop_found (g : string) (s : state) (f l : nat) :
  records_ok (_custom_config s) = true ->
  first_idx (group_is g) (_custom_config s) = Some f ->
  last_idx (group_is g) (_custom_config s) = Some l ->
  _pop_group_2 g s =
  (Ret (skipn f (firstn (l + 1) (_custom_config s))),
   with_config (firstn f (_custom_config s) ++ skipn (l + 1) (_custom_config s)) s).
Proof.
  intros Hok Hf Hl. unfold _pop_group_2, bind.
  rewrite (collect_found g s f l Hok Hf Hl). reflexivity.
Qed.

Lemma pop_missing (g : string) (s : state) :
  records_ok (_custom_config s) = true ->
  existsb (group_is g) (_custom_config s) = false ->
  _pop_group_2 g s = (Raise (SortingGroupDoesNotExist g), add_log [warning g] s).
Proof.
  intros Hok Hfree. unfold _pop_group_2, bind.
  rewrite (collect_missing g s Hok Hfree). reflexivity.
Qed.

Lemma insert_found (g : string) (group_2 : list json) (s : state) (l : nat) :
  records_ok (_custom_config s) = true ->
  last_idx (group_is g) (_custom_config s) = Some l ->
  _insert_group_2_after_group_1 g group_2 s =
  (Ret tt,
   with_config (firstn (l + 1) (_custom_config s) ++ group_2
                  ++ skipn (l + 1) (_custom_config s)) s).
Proof.
  intros Hok Hl.
  destruct (first_idx_some (group_is g) (_custom_config s)) as [f Hf].
  { destruct (existsb (group_is g) (_custom_config s)) eqn:E; [reflexivity|].
    apply last_idx_none in E. congruence. }
  unfold _insert_group_2_after_group_1, bind.
  rewrite (collect_found g s f l Hok Hf Hl). reflexivity.
Qed.

Lemma insert_missing (g : string) (group_2 : list json) (s : state) :
  records_ok (_custom_config s) = true ->
  existsb (group_is g) (_custom_config s) = false ->
  _insert_group_2_after_group_1 g group_2 s =
  (Raise (SortingGroupDoesNotExist g), add_log [warning g] s).
Proof.
  intros Hok Hfree. unfold _insert_group_2_after_group_1, bind.
  rewrite (collect_missing g s Hok Hfree). reflexivity.
Qed.

Lemma records_ok_app (l1 l2 : list json) :
  records_ok (l1 ++ l2) = records_ok l1 && records_ok l2.
Proof. apply forallb_app. Qed.

Lemma records_ok_firstn (n : nat) (l : list json) :
  records_ok l = true -> records_ok (firstn n l) = true.
Proof.
  intros H. rewrite <- (firstn_skipn n l), records_ok_app in H.
  apply andb_prop in H. tauto.
Qed.

Lemma records_ok_skipn (n : nat) (l : list json) :
  records_ok l = true -> records_ok (skipn n l) = true.
Proof.
  intros H. rewrite <- (firstn_skipn n l), records_ok_app in H.
  apply andb_prop in H. tauto.
Qed.

Lemma records_ok_move (g1 g2 : string) (l : list json) :
  records_ok l = true -> records_ok (move g1 g2 l) = true.
Proof.
  intros H. unfold move.
  destruct (first_idx (group_is g2) l) as [f|]; [|assumption].
  destruct (last_idx (group_is g2) l) as [k|]; [|assumption].
  assert (Hrest : records_ok (firstn f l ++ skipn (k + 1) l) = true).
  { rewrite records_ok_app, records_ok_firstn, records_ok_skipn; auto. }
  destruct (last_idx (group_is g1) _) as [k1|]; [|assumption].
  rewrite !records_ok_app, records_ok_firstn, !records_ok_skipn; auto.
  now apply records_ok_firstn.
Qed.

(** What one iteration of the loop does, on a Record Sequence. *)
Lemma sort_pair_ok (g1 g2 : string) (missing : list string) (s : state) :
  records_ok (_custom_config s) = true ->
  sort_pair (g1, g2) missing s =
  (Ret match move_missing g1 g2 (_custom_config s) with
       | Some g => set_add g missing
       | None => missing
       end,
   add_log match move_missing g1 g2 (_custom_config s) with
           | Some g => [warning g]
           | None => []
           end
     (with_config (move g1 g2 (_custom_config s)) s)).
Proof.
  intros Hok. unfold sort_pair, try_except, move, move_missing.
  destruct (first_idx (group_is g2) (_custom_config s)) as [f|] eqn:Hf.
  - destruct (last_idx (group_is g2) (_custom_config s)) as [l|] eqn:Hl.
    2:{ apply last_idx_none in Hl. apply first_idx_none in Hl. congruence. }
    unfold bind at 1. rewrite (pop_found g2 s f l Hok Hf Hl).
    set (rest := firstn f (_custom_config s) ++ skipn (l + 1) (_custom_config s)).
    assert (Hrest : records_ok (_custom_config (with_config rest s)) = true).
    { simpl. unfold rest.
      rewrite records_ok_app, records_ok_firstn, records_ok_skipn; auto. }
    destruct (last_idx (group_is g1) rest) as [l1|] eqn:Hl1.
    + unfold bind. rewrite (insert_found g1 _ (with_config rest s) l1 Hrest Hl1).
      unfold ret, add_log, with_config. simpl. rewrite app_nil_r. reflexivity.
    + unfold bind. rewrite (insert_missing g1 _ (with_config rest s) Hrest).
      * reflexivity.
      * now apply last_idx_none.
  - apply first_idx_none in Hf. unfold bind at 1.
    rewrite (pop_missing g2 s Hok Hf). destruct s; reflexivity.
Qed.

Lemma records_ok_moves (pairs : list (string * string)) (cfg : list json) :
  records_ok cfg = true -> records_ok (moves pairs cfg) = true.
Proof.
  revert cfg. induction pairs as [|[g1 g2] rest IH]; intros cfg H; [assumption|].
  simpl. apply IH. now apply records_ok_move.
Qed.

Lemma loop_ok (pairs : list (string * string)) :
  forall (missing : list string) (s : state),
    records_ok (_custom_config s) = true ->
    exists missing',
      for_each pairs sort_pair missing s =
      (Ret missing',
       add_log (warnings pairs (_custom_config s))
         (with_config (moves pairs (_custom_config s)) s)).
Proof.
  induction pairs as [|[g1 g2] rest IH]; intros missing s Hok.
  - exists missing. simpl. unfold ret, add_log, with_config. destruct s; simpl.
    now rewrite app_nil_r.
  - cbn [for_each]. unfold bind. rewrite (sort_pair_ok g1 g2 missing s Hok).
    edestruct IH as [m' Hm']; [|exists m'; rewrite Hm'].
    + simpl. now apply records_ok_move.
    + simpl. unfold add_log, with_config. simpl. now rewrite app_assoc.
Qed.

(** The engine returns on every Record Sequence, and what it returns. *)
Lemma run_ok (cfg : list json) (od : list string) (lg : list log_record) :
  records_ok cfg = true ->
  exists names,
    get_sorted_custom_config (init cfg od lg) =
    (Ret (moves (adjacent_pairs od) cfg),
     State (moves (adjacent_pairs od) cfg) od
       (lg ++ warnings (adjacent_pairs od) cfg
           ++ [LogRecord INFO "Sorted custom config groups: %s" [AJoin names]])).
Proof.
  intros Hok.
  destruct (loop_ok (adjacent_pairs od) [] (State cfg od lg) Hok) as [m' Hm'].
  unfold get_sorted_custom_config, init, bind, get. cbn [_ordering_data].
  rewrite Hm'. eexists. unfold log, add_log, with_config. simpl.
  rewrite <- app_assoc. reflexivity.
Qed.

Lemma sorted_ok (cfg : list json) (od : list string) :
  records_ok cfg = true ->
  sorted cfg od = Ret (moves (adjacent_pairs od) cfg).
Proof.
  intros Hok. unfold sorted, run.
  destruct (run_ok cfg od [] Hok) as [names H]. now rewrite H.
Qed.

End EngineSteps.


(* ================================================================== *)
(** * Contiguity under deletion and insertion; splicing *)
(* ================================================================== *)

Section SpanFacts.
Context {A : Type} (p : A -> bool).
Import Spec.

Lemma existsb_filter_free (q : A -> bool) (l : list A) :
  existsb p l = false -> existsb p (filter q l) = false.
Proof.
  induction l as [|x t IH]; simpl; [reflexivity|].
  intros H. apply orb_false_elim in H. destruct H as [Hx Ht].
  destruct (q x); simpl; [rewrite Hx|]; auto.
Qed.

Lemma inside_filter (q : A -> bool) (l : list A) :
  inside p l = true -> inside p (filter q l) = true.
Proof.
  induction l as [|x t IH]; simpl; [reflexivity|].
  destruct (p x) eqn:Hx; intros H.
  - destruct (q x); simpl; [rewrite Hx|]; auto.
  - apply negb_true_iff in H.
    assert (Hf : existsb p (filter q t) = false) by now apply existsb_filter_free.
    destruct (q x); simpl; [rewrite Hx, Hf; reflexivity|].
    now apply free_inside.
Qed.

(** Deleting elements keeps a span contiguous. *)
Lemma contiguous_filter (q : A -> bool) (l : list A) :
  contiguousb p l = true -> contiguousb p (filter q l) = true.
Proof.
  induction l as [|x t IH]; simpl; [reflexivity|].
  destruct (p x) eqn:Hx; intros H.
  - destruct (q x); simpl; [rewrite Hx; now apply inside_filter|].
    apply inside_contiguous. now apply inside_filter.
  - destruct (q x); simpl; [rewrite Hx|]; auto.
Qed.

Lemma inside_app_l (l1 l2 : list A) :
  inside p (l1 ++ l2) = true -> inside p l1 = true.
Proof.
  induction l1 as [|x t IH]; simpl; [reflexivity|].
  destruct (p x); [assumption|]. rewrite existsb_app.
  intros H. apply negb_true_iff, orb_false_elim in H. destruct H as [-> _].
  reflexivity.
Qed.

Lemma inside_app_r (l1 l2 : list A) :
  inside p (l1 ++ l2) = true -> contiguousb p l2 = true.
Proof.
  induction l1 as [|x t IH]; simpl; [apply inside_contiguous|].
  destruct (p x); [assumption|]. rewrite existsb_app.
  intros H. apply negb_true_iff, orb_false_elim in H. destruct H as [_ H].
  now apply free_contiguous.
Qed.

Lemma contiguous_app_l (l1 l2 : list A) :
  contiguousb p (l1 ++ l2) = true -> contiguousb p l1 = true.
Proof.
  induction l1 as [|x t IH]; simpl; [reflexivity|].
  destruct (p x); [apply inside_app_l|assumption].
Qed.

Lemma contiguous_app_r (l1 l2 : list A) :
  contiguousb p (l1 ++ l2) = true -> contiguousb p l2 = true.
Proof.
  induction l1 as [|x t IH]; simpl; [auto|].
  destruct (p x); [apply inside_app_r|assumption].
Qed.

Lemma contiguous_free_prefix (a l : list A) :
  existsb p a = false -> contiguousb p (a ++ l) = contiguousb p l.
Proof.
  induction a as [|x t IH]; simpl; [reflexivity|].
  intros H. apply orb_false_elim in H. destruct H as [-> H]. auto.
Qed.

Lemma inside_free_suffix (l b : list A) :
  existsb p b = false -> inside p l = true -> inside p (l ++ b) = true.
Proof.
  intros Hb. induction l as [|x t IH]; simpl; [intros _; now apply free_inside|].
  destruct (p x); [assumption|]. rewrite existsb_app, Hb, orb_false_r. auto.
Qed.

Lemma contiguous_free_suffix (l b : list A) :
  existsb p b = false -> contiguousb p l = true ->
  contiguousb p (l ++ b) = true.
Proof.
  intros Hb. induction l as [|x t IH]; simpl; [intros _; now apply free_contiguous|].
  destruct (p x); [now apply inside_free_suffix|assumption].
Qed.

Lemma inside_split (l1 l2 : list A) (x : A) :
  inside p (l1 ++ x :: l2) = true -> p x = false -> existsb p l2 = false.
Proof.
  induction l1 as [|y t IH]; simpl; intros H Hx.
  - rewrite Hx in H. now apply negb_true_iff in H.
  - destruct (p y); [auto|]. rewrite existsb_app in H. simpl in H.
    apply negb_true_iff, orb_false_elim in H. destruct H as [_ H].
    apply orb_false_elim in H. tauto.
Qed.

(** A foreign element inside the sequence has the whole span on one of
    its sides. *)
Lemma contiguous_split (l1 l2 : list A) (x : A) :
  contiguousb p (l1 ++ x :: l2) = true -> p x = false ->
  existsb p l1 = false \/ existsb p l2 = false.
Proof.
  induction l1 as [|y t IH]; simpl; intros H Hx; [now left|].
  destruct (p y) eqn:Hy.
  - right. eapply inside_split; eassumption.
  - destruct (IH H Hx); [left|right]; assumption.
Qed.

(** Inserting foreign elements at a point that does not cut the span. *)
Lemma contiguous_insert (l1 l2 block : list A) :
  contiguousb p (l1 ++ l2) = true ->
  existsb p l1 = false \/ existsb p l2 = false ->
  existsb p block = false ->
  contiguousb p (l1 ++ block ++ l2) = true.
Proof.
  intros H [H1|H2] Hb.
  - rewrite contiguous_free_prefix by assumption.
    rewrite contiguous_free_prefix by assumption.
    now apply contiguous_app_r in H.
  - apply contiguous_free_suffix.
    + rewrite existsb_app, Hb, H2. reflexivity.
    + now apply contiguous_app_l in H.
Qed.



(** The span of a contiguous, present group, with its two indices. *)
Lemma contiguous_span (l : list A) :
  contiguousb p l = true -> existsb p l = true ->
  exists a m q,
    l = a ++ m ++ q /\ existsb p a = false /\ forallb p m = true
    /\ existsb p q = false /\ m <> []
    /\ first_idx p l = Some (length a)
    /\ last_idx p l = Some (length a + length m - 1).
Proof.
  intros Hc He.
  destruct (contiguous_decomp p l Hc) as (a & m & q & -> & Ha & Hm & Hq).
  exists a, m, q. repeat split; try assumption.
  - intros ->. simpl in He. rewrite existsb_app, Ha, Hq in He. discriminate.
  - destruct m as [|y m'].
    + simpl in He. rewrite existsb_app, Ha, Hq in He. discriminate.
    + simpl in Hm. apply andb_prop in Hm. simpl. now apply first_idx_at.
  - destruct (exists_last (l := m)) as (m' & z & ->).
    + intros ->. simpl in He. rewrite existsb_app, Ha, Hq in He. discriminate.
    + rewrite forallb_app in Hm. apply andb_prop in Hm. destruct Hm as [_ Hz].
      simpl in Hz. rewrite andb_true_r in Hz.
      rewrite <- app_assoc. simpl. rewrite app_assoc.
      rewrite last_idx_at by assumption.
      rewrite !length_app. simpl. f_equal. lia.
Qed.

(** ** Splicing after the last element *)

Lemma splice_at (block a b : list A) (y : A) :
  p y = true -> existsb p b = false ->
  splice_after p block (a ++ y :: b) = a ++ y :: block ++ b.
Proof.
  intros Hy Hb. unfold splice_after. rewrite last_idx_at by assumption.
  replace (length a + 1) with (length (a ++ [y])) by (rewrite length_app; simpl; lia).
  replace (a ++ y :: b) with ((a ++ [y]) ++ b) by (now rewrite <- app_assoc).
  rewrite firstn_app, Nat.sub_diag, firstn_all, skipn_app, Nat.sub_diag, skipn_all.
  simpl. rewrite app_nil_r, <- app_assoc. reflexivity.
Qed.

Lemma splice_free (block l : list A) :
  existsb p l = false -> splice_after p block l = l.
Proof.
  intros H. unfold splice_after. now rewrite last_idx_free.
Qed.

Lemma splice_cases (block l : list A) :
  (existsb p l = false /\ splice_after p block l = l) \/
  (exists a y b, l = a ++ y :: b /\ p y = true /\ existsb p b = false
                 /\ splice_after p block l = a ++ y :: block ++ b).
Proof.
  destruct (last_idx p l) as [k|] eqn:E.
  - right. destruct (last_idx_split p l k E) as (a & y & b & -> & _ & Hy & Hb).
    exists a, y, b. repeat split; auto. now apply splice_at.
  - left. apply last_idx_none in E. split; [assumption|now apply splice_free].
Qed.

Lemma splice_app_r (block l1 l2 : list A) :
  existsb p l2 = true ->
  splice_after p block (l1 ++ l2) = l1 ++ splice_after p block l2.
Proof.
  intros H. destruct (splice_cases block l2) as [[Hf _]|(a & y & b & -> & Hy & Hb & ->)].
  - congruence.
  - rewrite app_assoc, splice_at by assumption. now rewrite <- app_assoc.
Qed.

Lemma splice_app_l (block l1 l2 : list A) :
  existsb p l2 = false ->
  splice_after p block (l1 ++ l2) = splice_after p block l1 ++ l2.
Proof.
  intros H. destruct (splice_cases block l1) as [[Hf ->]|(a & y & b & -> & Hy & Hb & ->)].
  - apply splice_free. now rewrite existsb_app, Hf, H.
  - rewrite <- app_assoc. simpl. rewrite splice_at; auto.
    + rewrite <- app_assoc. simpl. now rewrite <- app_assoc.
    + now rewrite existsb_app, Hb, H.
Qed.

Lemma existsb_splice (q : A -> bool) (block l : list A) :
  existsb q l = false -> existsb q block = false ->
  existsb q (splice_after p block l) = false.
Proof.
  intros Hl Hb.
  destruct (splice_cases block l) as [[_ ->]|(a & y & b & -> & _ & _ & ->)];
    [assumption|].
  rewrite existsb_app in Hl. simpl in Hl.
  apply orb_false_elim in Hl. destruct Hl as [Ha Hyb].
  apply orb_false_elim in Hyb. destruct Hyb as [Hy Hb'].
  rewrite existsb_app. simpl. rewrite existsb_app, Ha, Hy, Hb, Hb'. reflexivity.
Qed.

Lemma splice_perm (block l : list A) :
  existsb p l = true ->
  Permutation (block ++ l) (splice_after p block l).
Proof.
  intros H. destruct (splice_cases block l) as [[Hf _]|(a & y & b & -> & _ & _ & ->)].
  - congruence.
  - replace (a ++ y :: block ++ b) with ((a ++ [y]) ++ block ++ b)
      by (now rewrite <- app_assoc).
    replace (a ++ y :: b) with ((a ++ [y]) ++ b) by (now rewrite <- app_assoc).
    generalize (a ++ [y]). intros ay.
    rewrite !app_assoc. apply Permutation_app_tail, Permutation_app_comm.
Qed.

End SpanFacts.


(* ================================================================== *)
(** * One pair of the specification on a sequence with contiguous groups *)
(* ================================================================== *)

(** Equations between lists up to re-association of [++]. *)
Ltac list_eq :=
  repeat (progress (rewrite <- ?app_assoc; cbn [app]; rewrite ?app_nil_r));
  reflexivity.

Section MoveFacts.
Import Sorter Spec.

Lemma take_app_len {A} (a r : list A) : firstn (length a) (a ++ r) = a.
Proof. induction a; simpl; [now destruct r|now f_equal]. Qed.

Lemma drop_app_len {A} (a r : list A) : skipn (length a) (a ++ r) = r.
Proof. induction a; simpl; auto. Qed.

Local Abbreviation others g := (fun r : json => negb (group_is g r)).

Lemma move_absent (g1 g2 : string) (l : list json) :
  group_exists g2 l = false ->
  move g1 g2 l = l /\ move_missing g1 g2 l = Some g2.
Proof.
  intros H. unfold move, move_missing.
  rewrite (first_idx_free _ _ H). auto.
Qed.

(** When the moved group is contiguous, cutting its span out removes
    exactly its records. *)
Lemma move_contiguous (g1 g2 : string) (l : list json) :
  contiguous g2 l = true -> group_exists g2 l = true ->
  move g1 g2 l =
    splice_after (group_is g1) (members g2 l) (filter (others g2) l)
  /\ move_missing g1 g2 l =
       if group_exists g1 (filter (others g2) l) then None else Some g1.
Proof.
  intros Hc He.
  destruct (contiguous_span _ l Hc He)
    as (a & m & q & -> & Ha & Hm & Hq & Hne & Hf & Hk).
  unfold move, move_missing. rewrite Hf, Hk.
  assert (Hlen : length a + length m - 1 + 1 = length (a ++ m)).
  { rewrite length_app. destruct m; [congruence|simpl; lia]. }
  rewrite Hlen. rewrite take_app_len.
  rewrite (app_assoc a m q), take_app_len, !drop_app_len.
  unfold members. rewrite !filter_app.
  rewrite (filter_neg_free _ a Ha), (filter_neg_free _ q Hq), (filter_neg_all _ m Hm).
  rewrite (filter_free _ a Ha), (filter_free _ q Hq), (filter_all _ m Hm).
  simpl. rewrite !app_nil_r. unfold splice_after, group_exists.
  destruct (last_idx (group_is g1) (a ++ q)) eqn:E.
  - split; [reflexivity|].
    destruct (existsb (group_is g1) (a ++ q)) eqn:E'; [reflexivity|].
    apply last_idx_none in E'. congruence.
  - split; [reflexivity|]. apply last_idx_none in E. now rewrite E.
Qed.

Lemma members_others_same (g : string) (l : list json) :
  members g (filter (others g) l) = [].
Proof. apply filter_free, existsb_filter_neg. Qed.

Lemma members_others (g h : string) (l : list json) :
  g <> h -> members g (filter (others h) l) = members g l.
Proof.
  intros Hne. unfold members. induction l as [|x t IH]; simpl; [reflexivity|].
  destruct (group_is h x) eqn:Hh; simpl.
  - rewrite (group_is_other h g x) by auto. assumption.
  - destruct (group_is g x); [f_equal|]; assumption.
Qed.

Lemma exists_others (g h : string) (l : list json) :
  g <> h -> group_exists g (filter (others h) l) = group_exists g l.
Proof.
  intros Hne. unfold group_exists. induction l as [|x t IH]; simpl; [reflexivity|].
  destruct (group_is h x) eqn:Hh; simpl.
  - rewrite (group_is_other h g x) by auto. assumption.
  - now rewrite IH.
Qed.

Lemma members_all_other (g h : string) (m : list json) :
  g <> h -> forallb (group_is h) m = true -> members g m = [].
Proof.
  intros Hne Hm. apply filter_free. apply forallb_other with h; auto.
Qed.

(** Intra-group order under one pair: each group keeps its records in
    order, or loses them all. *)
Lemma members_move (g1 g2 : string) (l : list json) :
  contiguous g2 l = true ->
  forall g, members g (move g1 g2 l) = members g l
            \/ members g (move g1 g2 l) = [].
Proof.
  intros Hc g. destruct (group_exists g2 l) eqn:He.
  2:{ left. now rewrite (proj1 (move_absent g1 g2 l He)). }
  rewrite (proj1 (move_contiguous g1 g2 l Hc He)).
  destruct (splice_cases (group_is g1) (members g2 l) (filter (others g2) l))
    as [[_ ->]|(a & y & b & Hl & Hy & Hb & ->)].
  - destruct (String.eqb_spec g g2) as [->|Hne].
    + right. apply members_others_same.
    + left. now apply members_others.
  - left. destruct (String.eqb_spec g g2) as [->|Hne].
    + assert (Hfree : members g2 (a ++ y :: b) = [])
        by (rewrite <- Hl; apply members_others_same).
      unfold members in *. rewrite filter_app in Hfree. simpl in Hfree.
      apply app_eq_nil in Hfree. destruct Hfree as [Ha Hyb].
      rewrite filter_app. simpl. rewrite Ha.
      destruct (group_is g2 y); [discriminate|].
      rewrite filter_app, Hyb, app_nil_r. simpl.
      apply filter_all, forallb_filter.
    + rewrite <- (members_others g g2 l Hne), Hl.
      unfold members. rewrite !filter_app. simpl.
      destruct (group_is g y); rewrite filter_app;
        fold (members g (filter (group_is g2) l));
        rewrite (members_all_other g g2 _ Hne (forallb_filter _ l));
        reflexivity.
Qed.

(** Contiguity of every group survives one pair, as long as the moved
    group was contiguous. *)
Lemma contiguous_move (g1 g2 h : string) (l : list json) :
  contiguous g2 l = true -> contiguous h l = true ->
  contiguous h (move g1 g2 l) = true.
Proof.
  intros Hc Hh. destruct (group_exists g2 l) eqn:He.
  2:{ now rewrite (proj1 (move_absent g1 g2 l He)). }
  rewrite (proj1 (move_contiguous g1 g2 l Hc He)).
  assert (Hh' : contiguous h (filter (others g2) l) = true)
    by now apply contiguous_filter.
  assert (Hfree : existsb (group_is g2) (filter (others g2) l) = false)
    by apply existsb_filter_neg.
  destruct (splice_cases (group_is g1) (members g2 l) (filter (others g2) l))
    as [[_ ->]|(a & y & b & Hl & Hy & Hb & ->)]; [assumption|].
  rewrite Hl in Hh', Hfree. unfold contiguous in *.
  replace (a ++ y :: members g2 l ++ b)
    with ((a ++ [y]) ++ members g2 l ++ b) by (now rewrite <- app_assoc).
  replace (a ++ y :: b) with ((a ++ [y]) ++ b) in Hh', Hfree
    by (now rewrite <- app_assoc).
  rewrite existsb_app in Hfree. apply orb_false_elim in Hfree.
  destruct Hfree as [Hay Hb2].
  destruct (String.eqb_spec h g2) as [->|Hne].
  - apply decomp_contiguous; auto. apply forallb_filter.
  - apply contiguous_insert; auto.
    + destruct (String.eqb_spec h g1) as [->|Hne1]; [now right|].
      assert (Hy' : group_is h y = false) by (apply group_is_other with g1; auto).
      rewrite <- app_assoc in Hh'. simpl in Hh'.
      destruct (contiguous_split _ a b y Hh' Hy') as [Ha|Hb']; [left|now right].
      rewrite existsb_app, Ha. simpl. now rewrite Hy'.
    + apply forallb_other with g2; auto. apply forallb_filter.
Qed.

(** No record is lost or added when both groups are found. *)
Lemma perm_move (g1 g2 : string) (l : list json) :
  contiguous g2 l = true -> group_exists g2 l = true ->
  group_exists g1 l = true -> g1 <> g2 ->
  Permutation l (move g1 g2 l).
Proof.
  intros Hc He He1 Hne.
  rewrite (proj1 (move_contiguous g1 g2 l Hc He)).
  rewrite <- splice_perm.
  - apply filter_partition_perm.
  - fold (group_exists g1 (filter (others g2) l)). now rewrite exists_others.
Qed.

(** ** The adjacency left behind by a pair, and its preservation *)

Lemma adj_new (g1 g2 : string) (l : list json) :
  contiguous g2 l = true -> group_exists g2 l = true ->
  group_exists g1 l = true -> g1 <> g2 ->
  adj g1 g2 (move g1 g2 l).
Proof.
  intros Hc He He1 Hne.
  rewrite (proj1 (move_contiguous g1 g2 l Hc He)).
  assert (Hfree : existsb (group_is g2) (filter (others g2) l) = false)
    by apply existsb_filter_neg.
  destruct (splice_cases (group_is g1) (members g2 l) (filter (others g2) l))
    as [[Hf _]|(a & y & b & Hl & Hy & Hb & ->)].
  - fold (group_exists g1 (filter (others g2) l)) in Hf.
    rewrite exists_others in Hf by assumption. congruence.
  - rewrite Hl, existsb_app in Hfree. simpl in Hfree.
    apply orb_false_elim in Hfree. destruct Hfree as [Ha Hyb].
    apply orb_false_elim in Hyb. destruct Hyb as [_ Hb2].
    split; [assumption|]. exists a, y, (members g2 l), b.
    repeat split; auto.
    + now apply filter_nonempty.
    + apply forallb_filter.
Qed.

Lemma adj_filter (a b h : string) (l : list json) :
  adj a b l -> a <> h -> b <> h -> adj a b (filter (others h) l).
Proof.
  intros (Hab & u & x & B & v & -> & Hx & HB & HBall & Hu & Hv & Hv1) Ha Hb.
  split; [assumption|].
  exists (filter (others h) u), x, B, (filter (others h) v).
  rewrite filter_app. simpl. rewrite (group_is_other a h x Ha Hx). simpl.
  rewrite filter_app, (filter_neg_free _ B (forallb_other b h B Hb HBall)).
  repeat split; auto using existsb_filter_free.
Qed.

Lemma adj_splice (a b g : string) (block l : list json) :
  adj a b l -> a <> g ->
  existsb (group_is a) block = false -> existsb (group_is b) block = false ->
  adj a b (splice_after (group_is g) block l).
Proof.
  intros (Hab & u & x & B & v & -> & Hx & HB & HBall & Hu & Hv & Hv1) Hag Hba Hbb.
  split; [assumption|].
  assert (Hxg : group_is g x = false) by (apply group_is_other with a; auto).
  destruct (existsb (group_is g) v) eqn:Egv.
  - (* the last record of [g] is behind the two spans *)
    replace (u ++ x :: B ++ v) with ((u ++ x :: B) ++ v)
      by (now rewrite <- app_assoc).
    rewrite splice_app_r by assumption.
    exists u, x, B, (splice_after (group_is g) block v).
    rewrite <- app_assoc. simpl.
    repeat split; auto using existsb_splice.
  - replace (u ++ x :: B ++ v) with ((u ++ x :: B) ++ v)
      by (now rewrite <- app_assoc).
    rewrite splice_app_l by assumption.
    destruct (String.eqb_spec g b) as [->|Hgb].
    + (* it is the last record of the second span *)
      destruct (exists_last HB) as (B' & z & ->).
      rewrite forallb_app in HBall. apply andb_prop in HBall.
      destruct HBall as [HB' Hz]. simpl in Hz. rewrite andb_true_r in Hz.
      replace (u ++ x :: B' ++ [z]) with ((u ++ x :: B') ++ z :: [])
        by (rewrite <- app_assoc; reflexivity).
      rewrite splice_at by auto.
      exists u, x, (B' ++ [z]), (block ++ v).
      rewrite !existsb_app, Hbb, Hba, Hv, Hv1, forallb_app, HB'. simpl.
      rewrite Hz. repeat split; auto.
      list_eq.
    + (* it is in front of the two spans *)
      assert (HgB : existsb (group_is g) (x :: B) = false).
      { simpl. rewrite Hxg. apply forallb_other with b; auto. }
      change (u ++ x :: B) with (u ++ (x :: B)).
      rewrite splice_app_l by assumption.
      exists (splice_after (group_is g) block u), x, B, v.
      rewrite <- app_assoc. simpl. repeat split; auto using existsb_splice.
Qed.

Lemma adj_move (a b g1 g2 : string) (l : list json) :
  adj a b l -> a <> g2 -> b <> g2 -> a <> g1 ->
  contiguous g2 l = true -> group_exists g2 l = true ->
  adj a b (move g1 g2 l).
Proof.
  intros Hadj Ha2 Hb2 Ha1 Hc He.
  rewrite (proj1 (move_contiguous g1 g2 l Hc He)).
  apply adj_splice; auto using adj_filter.
  - apply forallb_other with g2; auto. apply forallb_filter.
  - apply forallb_other with g2; auto. apply forallb_filter.
Qed.


End MoveFacts.


(* ================================================================== *)
(** * The whole loop over the specification *)
(* ================================================================== *)

Section Chain.
Import Sorter Spec.

Lemma adjacent_pairs_cons {A} (x y : A) (t : list A) :
  adjacent_pairs (x :: y :: t) = (x, y) :: adjacent_pairs (y :: t).
Proof. reflexivity. Qed.

Lemma adjacent_pairs_snoc {A} (seen : list A) (g g' : A) :
  adjacent_pairs (seen ++ [g; g']) = adjacent_pairs (seen ++ [g]) ++ [(g, g')].
Proof.
  induction seen as [|x t IH]; [reflexivity|].
  destruct t as [|y t'].
  - reflexivity.
  - change ((x :: y :: t') ++ [g; g']) with (x :: y :: (t' ++ [g; g'])).
    change ((x :: y :: t') ++ [g]) with (x :: y :: (t' ++ [g])).
    rewrite !adjacent_pairs_cons. simpl. f_equal. exact IH.
Qed.

Lemma in_adjacent_pairs_snoc {A} (seen : list A) (g a b : A) :
  In (a, b) (adjacent_pairs (seen ++ [g])) ->
  In a seen /\ In b (seen ++ [g]).
Proof.
  induction seen as [|x t IH]; [intros []|].
  destruct t as [|y t'].
  - simpl. intros [H|[]]. injection H as <- <-. auto.
  - change ((x :: y :: t') ++ [g]) with (x :: y :: (t' ++ [g])).
    rewrite adjacent_pairs_cons. intros [H|H].
    + injection H as <- <-. simpl. auto.
    + destruct (IH H) as [Ha Hb]. split; right; assumption.
Qed.

Lemma in_adjacent_pairs {A} (xs : list A) (a b : A) :
  In (a, b) (adjacent_pairs xs) -> In a xs /\ In b (tl xs).
Proof.
  unfold adjacent_pairs, slice_from. intros H. split.
  - eapply in_combine_l; eassumption.
  - apply in_combine_r in H. destruct xs; assumption.
Qed.


Lemma subseq_refl {A} (l : list A) : subseq l l.
Proof. induction l; constructor; assumption. Qed.

Lemma subseq_nil {A} (l : list A) : subseq [] l.
Proof. induction l; constructor; assumption. Qed.

Lemma group_exists_perm (g : string) (l l' : list json) :
  Permutation l l' -> group_exists g l = group_exists g l'.
Proof.
  intros HP. unfold group_exists.
  destruct (existsb (group_is g) l) eqn:E, (existsb (group_is g) l') eqn:E';
    try reflexivity.
  - apply existsb_exists in E. destruct E as (x & Hx & Hg).
    assert (F : existsb (group_is g) l' = true).
    { apply existsb_exists. exists x. split; [|assumption].
      eapply Permutation_in; eassumption. }
    congruence.
  - apply existsb_exists in E'. destruct E' as (x & Hx & Hg).
    assert (F : existsb (group_is g) l = true).
    { apply existsb_exists. exists x. split; [|assumption].
      eapply Permutation_in; [apply Permutation_sym|]; eassumption. }
    congruence.
Qed.

(** Pairwise disjoint, present groups have pairwise different names. *)
Lemma disjoint_nodup (cfg : list json) (od : list string) :
  groups_disjoint cfg od = true ->
  forallb (fun g => group_exists g cfg) od = true ->
  NoDup od.
Proof.
  induction od as [|g rest IH]; simpl; intros Hd He; [constructor|].
  apply andb_prop in Hd, He. destruct Hd as [Hg Hd], He as [Heg He].
  constructor; [|auto]. intros Hin.
  rewrite forallb_forall in Hg. specialize (Hg g Hin).
  apply negb_true_iff in Hg.
  apply existsb_exists in Heg. destruct Heg as (r & Hr & Hgr).
  assert (F : existsb (fun r => group_is g r && group_is g r) cfg = true).
  { apply existsb_exists. exists r. now rewrite Hgr. }
  congruence.
Qed.

(** The invariant of the loop on a specification of distinct, present,
    contiguous groups: the pairs already processed stay adjacent. *)
Lemma chain (rest : list string) :
  forall (seen : list string) (g : string) (cur : list json),
    NoDup (seen ++ g :: rest) ->
    (forall h, In h (seen ++ g :: rest) ->
               contiguous h cur = true /\ group_exists h cur = true) ->
    (forall a b, In (a, b) (adjacent_pairs (seen ++ [g])) -> adj a b cur) ->
    Permutation cur (moves (adjacent_pairs (g :: rest)) cur)
    /\ (forall h, In h (seen ++ g :: rest) ->
                  contiguous h (moves (adjacent_pairs (g :: rest)) cur) = true)
    /\ (forall a b, In (a, b) (adjacent_pairs (seen ++ g :: rest)) ->
                    adj a b (moves (adjacent_pairs (g :: rest)) cur)).
Proof.
  induction rest as [|g' rest IH]; intros seen g cur Hnd Hall Hadj.
  - simpl. split; [apply Permutation_refl|].
    split; [intros h Hh; now apply Hall|exact Hadj].
  - rewrite adjacent_pairs_cons. cbn [moves fold_left fst snd].
    fold (moves (adjacent_pairs (g' :: rest)) (move g g' cur)).
    assert (Hg : In g (seen ++ g :: g' :: rest))
      by (apply in_or_app; right; left; reflexivity).
    assert (Hg' : In g' (seen ++ g :: g' :: rest))
      by (apply in_or_app; right; right; left; reflexivity).
    destruct (Hall g Hg) as [Hcg Heg]. destruct (Hall g' Hg') as [Hcg' Heg'].
    assert (Hnd' : NoDup ((seen ++ [g]) ++ g' :: rest))
      by (rewrite <- app_assoc; exact Hnd).
    assert (Hfresh : forall b, In b (seen ++ [g]) -> b <> g').
    { intros b Hb ->. apply NoDup_remove_2 in Hnd'. apply Hnd'.
      apply in_or_app. now left. }
    assert (Hseen : forall a, In a seen -> a <> g).
    { intros a Ha ->. apply NoDup_remove_2 in Hnd. apply Hnd.
      apply in_or_app. now left. }
    assert (Hne : g <> g').
    { apply Hfresh. apply in_or_app. right. now left. }
    assert (HP : Permutation cur (move g g' cur)) by now apply perm_move.
    destruct (IH (seen ++ [g]) g' (move g g' cur)) as (P & C & J).
    + exact Hnd'.
    + intros h Hh. rewrite <- app_assoc in Hh. destruct (Hall h Hh) as [Hc He].
      split; [now apply contiguous_move|].
      now rewrite <- (group_exists_perm h _ _ HP).
    + intros a b Hab. rewrite <- app_assoc in Hab.
      change ([g] ++ [g']) with [g; g'] in Hab.
      rewrite adjacent_pairs_snoc in Hab. apply in_app_or in Hab.
      destruct Hab as [Hab|[Hab|[]]].
      * destruct (in_adjacent_pairs_snoc _ _ _ _ Hab) as [Ha Hb].
        apply adj_move; auto.
        apply Hfresh. apply in_or_app. now left.
      * injection Hab as <- <-. now apply adj_new.
    + rewrite <- app_assoc in C, J. split; [|split].
      * eapply Permutation_trans; eassumption.
      * exact C.
      * exact J.
Qed.

(** Intra-group order over the whole loop, when the named groups are
    contiguous. *)
Lemma members_moves (names : list string) (pairs : list (string * string)) :
  forall cur : list json,
    (forall a b, In (a, b) pairs -> In b names) ->
    (forall h, In h names -> contiguous h cur = true) ->
    forall g, members g (moves pairs cur) = members g cur
              \/ members g (moves pairs cur) = [].
Proof.
  induction pairs as [|[a b] rest IH]; intros cur Hin Hc g; [now left|].
  cbn [moves fold_left fst snd]. fold (moves rest (move a b cur)).
  assert (Hb : contiguous b cur = true) by (apply Hc, (Hin a b); now left).
  destruct (IH (move a b cur)) with (g := g) as [E|E].
  - intros a' b' H. apply (Hin a' b'). now right.
  - intros h Hh. apply contiguous_move; auto.
  - rewrite E. now apply members_move.
  - now right.
Qed.

Lemma in_firstn {A} (n : nat) (l : list A) (x : A) :
  In x (firstn n l) -> In x l.
Proof.
  intros H. rewrite <- (firstn_skipn n l). apply in_or_app. now left.
Qed.

Lemma in_skipn {A} (n : nat) (l : list A) (x : A) :
  In x (skipn n l) -> In x l.
Proof.
  intros H. rewrite <- (firstn_skipn n l). apply in_or_app. now right.
Qed.



Lemma absent_incl (g : string) (l l' : list json) :
  (forall r, In r l' -> In r l) ->
  group_exists g l = false -> group_exists g l' = false.
Proof.
  intros Hincl H. destruct (group_exists g l') eqn:E; [|reflexivity].
  apply existsb_exists in E. destruct E as (r & Hr & Hg).
  assert (F : group_exists g l = true) by (apply existsb_exists; eauto).
  congruence.
Qed.


Lemma absent_cut (g : string) (f n : nat) (l : list json) :
  group_exists g l = false ->
  group_exists g (firstn f l ++ skipn n l) = false.
Proof.
  apply absent_incl. intros r H. apply in_app_or in H.
  destruct H; eauto using in_firstn, in_skipn.
Qed.





(** The span of a present group, contiguous or not. *)
Lemma hull (g : string) (l : list json) (f k : nat) :
  first_idx (group_is g) l = Some f -> last_idx (group_is g) l = Some k ->
  l = firstn f l ++ skipn f (firstn (k + 1) l) ++ skipn (k + 1) l
  /\ group_exists g (firstn f l) = false
  /\ group_exists g (skipn (k + 1) l) = false
  /\ (exists y t, skipn f (firstn (k + 1) l) = y :: t /\ group_is g y = true)
  /\ (exists h z, skipn f (firstn (k + 1) l) = h ++ [z] /\ group_is g z = true).
Proof.
  intros Hf Hk. pose proof (first_le_last _ _ _ _ Hf Hk) as Hle.
  destruct (first_idx_split _ _ _ Hf) as (a & y & b & Hl & Ha & Hy & Hfa).
  destruct (last_idx_split _ _ _ Hk) as (a' & z & b' & Hl' & Ha' & Hz & Hfb).
  assert (F1 : firstn f l = a) by (rewrite Hl, <- Ha; apply take_app_len).
  assert (F2 : firstn (k + 1) l = a' ++ [z]).
  { rewrite Hl', <- Ha'.
    replace (length a' + 1) with (length (a' ++ [z]))
      by (rewrite length_app; simpl; lia).
    replace (a' ++ z :: b') with ((a' ++ [z]) ++ b') by list_eq.
    apply take_app_len. }
  assert (F3 : skipn (k + 1) l = b').
  { rewrite Hl', <- Ha'.
    replace (length a' + 1) with (length (a' ++ [z]))
      by (rewrite length_app; simpl; lia).
    replace (a' ++ z :: b') with ((a' ++ [z]) ++ b') by list_eq.
    apply drop_app_len. }
  assert (F4 : firstn f (firstn (k + 1) l) = firstn f l).
  { rewrite firstn_firstn. f_equal. lia. }
  repeat split.
  - rewrite <- F4, app_assoc, firstn_skipn, firstn_skipn. reflexivity.
  - now rewrite F1.
  - now rewrite F3.
  - (* the span starts with the first record of the group *)
    assert (E : skipn f (firstn (k + 1) l) = firstn (k + 1 - f) (y :: b)).
    { rewrite skipn_firstn_comm. f_equal. rewrite Hl, <- Ha. apply drop_app_len. }
    rewrite E. replace (k + 1 - f) with (S (k - f)) by lia.
    simpl. eauto.
  - (* and ends with its last record *)
    rewrite F2. exists (skipn f a'), z. split; [|assumption].
    rewrite skipn_app. replace (f - length a') with 0 by lia. reflexivity.
Qed.

End Chain.


(* ================================================================== *)
(** * The compiler, phase by phase: what each phase can change *)
(* ================================================================== *)

Section Phases.
Import Disk Compiler Rewriter.
Local Open Scope py_scope.

(** A loop whose body leaves the state alone leaves the state alone. *)
Lemma for_each_pure {S A B} (body : A -> B -> M S B) (xs : list A) :
  (forall x acc s, exists o, body x acc s = (o, s)) ->
  forall acc s, exists o, for_each xs body acc s = (o, s).
Proof.
  intros Hbody. induction xs as [|x rest IH]; intros acc s.
  - eexists. reflexivity.
  - cbn [for_each]. unfold bind. destruct (Hbody x acc s) as [o ->].
    destruct o as [acc'|e]; [apply IH|eexists; reflexivity].
Qed.

Lemma load_main_shape (s : state) :
  exists o mc lg,
    _load_main_config s
    = (o, State (_ordering_data s) mc (_custom_config s) (disk s) lg (pending s))
    /\ (o = Ret tt ->
        exists fields,
          mc = JObj fields
          /\ main_json (disk s) = Some (File (Doc (JObj fields)))).
Proof.
  destruct s as [od mc cc [mj gd oj cj] lg p].
  unfold _load_main_config, bind, get, lift, raise, set_main_config, log.
  cbn [disk main_json].
  destruct mj as [[[j|t]|es]|]; cbn;
    try (do 3 eexists; split; [reflexivity|discriminate]).
  destruct j; cbn; do 3 eexists; (split; [reflexivity|]);
    try discriminate.
  intros _. eexists. split; reflexivity.
Qed.

Lemma load_files_shape (files : list (string * node)) :
  forall s : state,
    exists o cc lg,
      for_each files load_file tt s
      = (o, State (_ordering_data s) (_main_config s) cc (disk s) lg (pending s)).
Proof.
  induction files as [|[name n] rest IH]; intros s.
  - destruct s. do 3 eexists. reflexivity.
  - cbn [for_each]. unfold bind at 1.
    destruct s as [od mc cc d lg p].
    unfold load_file, bind, lift, json_load. cbn [fst snd].
    destruct n as [[j|t]|es]; try (do 3 eexists; reflexivity).
    destruct j; try (do 3 eexists; reflexivity).
    cbn. apply (IH (State od mc (cc ++ items) d _ p)).
Qed.

Lemma load_custom_shape (s : state) :
  exists o cc lg,
    _load_custom_config s
    = (o, State (_ordering_data s) (_main_config s) cc (disk s) lg (pending s)).
Proof.
  unfold _load_custom_config, bind at 1, get.
  destruct (negb (exists_ (groups_dir (disk s)))).
  - destruct s. do 3 eexists. reflexivity.
  - destruct (sorted_glob_json (groups_dir (disk s))) as [|f fs] eqn:E.
    + destruct s. do 3 eexists. reflexivity.
    + apply load_files_shape.
Qed.

Lemma call_sorter_shape (names : list string) (s : state) :
  exists o lg,
    call_sorter names s
    = (o, State (_ordering_data s) (_main_config s) (_custom_config s)
                (disk s) lg (pending s)).
Proof.
  destruct s. unfold call_sorter, bind, get, set_logged, lift. cbn.
  do 2 eexists. reflexivity.
Qed.

Lemma sort_shape (s : state) :
  exists o od cc lg,
    _sort_custom_config s
    = (o, State od (_main_config s) cc (disk s) lg (pending s)).
Proof.
  unfold _sort_custom_config, bind at 1, get.
  destruct (negb (is_file (order_json (disk s)))).
  - destruct s. do 4 eexists. reflexivity.
  - unfold bind at 1, lift.
    destruct (json_load order_path (order_json (disk s))) as [od|e].
    2:{ destruct s. do 4 eexists. reflexivity. }
    unfold bind at 1, set_ordering_data. unfold bind at 1, lift.
    destruct (py_len od) as [n|e].
    2:{ destruct s. do 4 eexists. reflexivity. }
    destruct (Nat.eqb n 0); [destruct s; do 4 eexists; reflexivity|].
    destruct (Nat.ltb n 2); [destruct s; do 4 eexists; reflexivity|].
    destruct (as_names od) as [names|]; [|destruct s; do 4 eexists; reflexivity].
    unfold bind.
    destruct (call_sorter_shape names
                (State od (_main_config s) (_custom_config s) (disk s)
                       (logged s) (pending s))) as (o & lg & ->).
    cbn. destruct o; do 4 eexists; reflexivity.
Qed.

Lemma partition_step_pure (x : json) (acc : list (json * list json)) (s : state) :
  exists o, partition_step x acc s = (o, s).
Proof.
  unfold partition_step, bind, lift.
  destruct (getitem x "group") as [k|e]; [|eexists; reflexivity].
  destruct (negb (hashable k)); eexists; reflexivity.
Qed.

Lemma write_group_pure (g : json * list json) (tmp : list (string * node))
  (s : state) : exists o, write_group g tmp s = (o, s).
Proof.
  unfold write_group. destruct (contains "/" _); eexists; reflexivity.
Qed.

Lemma build_scratch_shape (s : state) :
  exists o lg,
    build_scratch s
    = (o, State (_ordering_data s) (_main_config s) (_custom_config s)
                (disk s) lg (pending s)).
Proof.
  unfold build_scratch, bind at 1, get. unfold bind at 1.
  destruct (for_each_pure partition_step (_custom_config s)
              partition_step_pure [] s) as [o ->].
  destruct o as [groups|e]; [|destruct s; do 2 eexists; reflexivity].
  unfold bind at 1.
  destruct (for_each_pure write_group groups write_group_pure [] s) as [o ->].
  destruct o as [tmp|e]; [|destruct s; do 2 eexists; reflexivity].
  destruct s as [od mc cc d lg p]. cbn [_ordering_data].
  unfold bind, log, ret, lift.
  destruct (Nat.ltb 0 _); destruct (Nat.ltb 0 _); cbn;
    try destruct (join_names _); do 2 eexists; reflexivity.
Qed.

Lemma backup_store_shape (s : state) :
  exists o, backup_store s = (o, s)
    /\ forall bm bg, o = Ret (bm, bg) ->
         order_json (disk s) = Some (File bm)
         /\ groups_dir (disk s) = Some (Dir bg).
Proof.
  unfold backup_store, bind, get, lift, read_file, read_tree, ret.
  destruct (order_json (disk s)) as [[c|es]|];
    try (eexists; split; [reflexivity|discriminate]).
  destruct (groups_dir (disk s)) as [[c'|es]|];
    try (eexists; split; [reflexivity|discriminate]).
  eexists; split; [reflexivity|]. intros bm bg H. injection H as <- <-. auto.
Qed.

End Phases.


(* ================================================================== *)
(** * The replacement of the live store and its restoration *)
(* ================================================================== *)

Section Commit.
Import Disk Compiler Rewriter Env.
Local Open Scope py_scope.

(** The three statements of a replacement, on a store whose manifest
    path holds no directory and whose group path holds no file: either
    they all go through and the store is the given one, or the
    environment fails one of them, and the store is damaged within the
    same bounds. *)
Lemma replace_cases (s : state) (m : content) (t : list (string * node)) :
  file_or_absent (order_json (disk s)) = true ->
  dir_or_absent (groups_dir (disk s)) = true ->
  (exists p',
      replace_store m t s
      = (Ret tt,
         State (_ordering_data s) (_main_config s) (_custom_config s)
           (FS (main_json (disk s)) (Some (Dir t)) (Some (File m))
               (config_json (disk s)))
           (logged s) p'))
  \/ (exists f oj gd p',
        replace_store m t s
        = (Raise (OSError (errno f)),
           State (_ordering_data s) (_main_config s) (_custom_config s)
             (FS (main_json (disk s)) gd oj (config_json (disk s)))
             (logged s) p')
        /\ file_or_absent oj = true /\ dir_or_absent gd = true
        /\ calm 3 (pending s) = false
        /\ (first_fault_then_calm (pending s) = true -> calm 3 p' = true)).
Proof.
  destruct s as [od mc cc [mj gd oj cj] lg p].
  cbn [disk order_json groups_dir main_json config_json pending
       _ordering_data _main_config _custom_config logged].
  intros Hoj Hgd.
  destruct oj as [[c|es]|]; try discriminate;
    destruct gd as [[c'|es']|]; try discriminate;
    (destruct p as [|[f1|] p1];
     [left; eexists; reflexivity
     |right; exists f1; destruct f1 as [e1 [fl|] tl]; do 3 eexists;
      (split; [reflexivity|auto])
     |]);
    (destruct p1 as [|[f2|] p2];
     [left; eexists; reflexivity
     |try (right; exists f2; destruct f2 as [e2 fl [tl|]]; do 3 eexists;
           (split; [reflexivity|auto]))
     |]);
    try (left; eexists; reflexivity);
    (destruct p2 as [|[f3|] p3];
     [left; eexists; reflexivity
     |try (right; exists f3; destruct f3 as [e3 fl [tl|]]; do 3 eexists;
           (split; [reflexivity|auto]))
     |]);
    try (left; eexists; reflexivity).
Qed.

End Commit.

Section Atomic.
Import Disk Compiler Rewriter Env.
Local Open Scope py_scope.


End Atomic.


(* ================================================================== *)
(** * The compiler: frames of whole runs *)
(* ================================================================== *)

Section Runs.
Import Disk Compiler Rewriter Env Wf.
Local Open Scope py_scope.

(** The [try]/[except] block touches the manifest and the group
    directory only, whatever the environment does. *)
Lemma commit_shape (s : state) (m bm : content) (t bg : list (string * node)) :
  order_json (disk s) = Some (File bm) ->
  groups_dir (disk s) = Some (Dir bg) ->
  exists o gd oj lg p,
    commit (m, t) (bm, bg) s
    = (o, State (_ordering_data s) (_main_config s) (_custom_config s)
            (FS (main_json (disk s)) gd oj (config_json (disk s))) lg p).
Proof.
  intros Hoj Hgd. unfold commit, try_except. cbn [fst snd].
  destruct (replace_cases s m t) as [[p' H]|(f & oj & gd & p' & H & Foj & Fgd & _)].
  - now rewrite Hoj.
  - now rewrite Hgd.
  - rewrite H. do 5 eexists. reflexivity.
  - rewrite H. unfold bind at 1, log.
    cbn [_ordering_data _main_config _custom_config disk logged pending].
    unfold bind at 1.
    match goal with
    | |- context [replace_store bm bg ?s1] =>
        destruct (replace_cases s1 bm bg)
          as [[p'' H']|(f' & oj' & gd' & p'' & H' & _)];
          [exact Foj|exact Fgd| |]
    end; rewrite H'; cbn; do 5 eexists; reflexivity.
Qed.

Lemma recreate_shape (s : state) :
  exists o gd oj lg p,
    _recreate_custom_config_files s
    = (o, State (_ordering_data s) (_main_config s) (_custom_config s)
            (FS (main_json (disk s)) gd oj (config_json (disk s))) lg p).
Proof.
  unfold _recreate_custom_config_files, bind at 1.
  destruct (build_scratch_shape s) as (o1 & lg1 & H1). rewrite H1.
  destruct o1 as [[m t]|e1].
  2:{ destruct s as [od mc cc [mj gd oj cj] lg p]. do 5 eexists. reflexivity. }
  unfold bind at 1.
  lazymatch goal with
  | |- context [backup_store ?s1] =>
      destruct (backup_store_shape s1) as (o2 & H2 & Hb); rewrite H2
  end.
  destruct o2 as [[bm bg]|e2].
  2:{ destruct s as [od mc cc [mj gd oj cj] lg p]. do 5 eexists. reflexivity. }
  destruct (Hb bm bg eq_refl) as [Hoj Hgd].
  unfold bind at 1.
  lazymatch goal with
  | |- context [commit _ _ ?s1] =>
      destruct (commit_shape s1 m bm t bg Hoj Hgd)
        as (o3 & gd3 & oj3 & lg3 & p3 & H3); rewrite H3
  end.
  cbn [_ordering_data _main_config _custom_config disk main_json config_json].
  destruct o3 as [[]|e3]; do 5 eexists; reflexivity.
Qed.

(** Without the group directory the snapshot cannot be taken: the
    rewriter raises before it touches the store. *)
Lemma recreate_absent_dir (s : state) :
  groups_dir (disk s) = None ->
  exists e lg,
    _recreate_custom_config_files s
    = (Raise e, State (_ordering_data s) (_main_config s) (_custom_config s)
                  (disk s) lg (pending s)).
Proof.
  intros Hgd. unfold _recreate_custom_config_files, bind at 1.
  destruct (build_scratch_shape s) as (o1 & lg1 & H1). rewrite H1.
  destruct o1 as [[m t]|e1]; [|do 2 eexists; reflexivity].
  unfold bind at 1, backup_store, bind, get, lift, read_file, read_tree.
  cbn [disk]. rewrite Hgd.
  destruct (order_json (disk s)) as [[c|es]|]; do 2 eexists; reflexivity.
Qed.

(** Loading and sorting never write to the disk and never consume a
    failure of the environment. *)
Lemma load_and_sort_shape (s : state) :
  exists o od mc cc lg,
    load_and_sort s = (o, State od mc cc (disk s) lg (pending s))
    /\ (o = Ret tt ->
        exists fields,
          mc = JObj fields
          /\ main_json (disk s) = Some (File (Doc (JObj fields)))).
Proof.
  unfold load_and_sort, bind at 1.
  destruct (load_main_shape s) as (o1 & mc1 & lg1 & H1 & Hm). rewrite H1.
  destruct o1 as [[]|e1].
  2:{ do 5 eexists. split; [reflexivity|discriminate]. }
  destruct (Hm eq_refl) as (fields & -> & Hmain).
  unfold bind at 1.
  match goal with
  | |- context [_load_custom_config ?s1] =>
      destruct (load_custom_shape s1) as (o2 & cc2 & lg2 & H2); rewrite H2
  end.
  cbn [_ordering_data _main_config _custom_config disk pending].
  destruct o2 as [[]|e2].
  2:{ do 5 eexists. split; [reflexivity|discriminate]. }
  match goal with
  | |- context [_sort_custom_config ?s1] =>
      destruct (sort_shape s1) as (o3 & od3 & cc3 & lg3 & H3); rewrite H3
  end.
  cbn [_ordering_data _main_config _custom_config disk pending].
  do 5 eexists. split; [reflexivity|]. intros _. eauto.
Qed.

Lemma run_unfold (s : state) :
  run s =
  match load_and_sort s with
  | (Ret _, s1) =>
      match _recreate_custom_config_files s1 with
      | (Ret _, s2) =>
          match _get_joined_main_and_custom_config s2 with
          | (Ret config, s3) => _replace_config_in_root config s3
          | (Raise e, s3) => (Raise e, s3)
          end
      | (Raise e, s2) => (Raise e, s2)
      end
  | (Raise e, s1) => (Raise e, s1)
  end.
Proof.
  unfold run, load_and_sort, bind.
  destruct (_load_main_config s) as [[[]|e1] s1]; [|reflexivity].
  destruct (_load_custom_config s1) as [[[]|e2] s2]; [|reflexivity].
  destruct (_sort_custom_config s2) as [[[]|e3] s3]; [|reflexivity].
  destruct (_recreate_custom_config_files s3) as [[[]|e4] s4]; reflexivity.
Qed.

Lemma main_unfold (s : state) :
  main s =
  match run s with
  | (Ret _, s') =>
      log INFO
        "Successfully recompiled config.json and updated in the theme root."
        [] s'
  | (Raise e, s') => (Raise e, s')
  end.
Proof. reflexivity. Qed.

End Runs.


(* ================================================================== *)
(** * The compiler on a well-formed store: every phase returns *)
(* ================================================================== *)

Section Success.
Import Disk Compiler Rewriter Env Wf.
Local Open Scope py_scope.

Lemma dict_get_set (k : string) (v : json) (d : list (string * json)) :
  dict_get k (dict_set k v d) = Some v.
Proof.
  induction d as [|[k' v'] rest IH]; simpl.
  - now rewrite String.eqb_refl.
  - destruct (String.eqb k' k) eqn:E; simpl; rewrite E; auto.
Qed.

Lemma dict_get_set_other (k k' : string) (v : json) (d : list (string * json)) :
  k' <> k -> dict_get k' (dict_set k v d) = dict_get k' d.
Proof.
  intros Hne. induction d as [|[k0 v0] rest IH]; simpl.
  - destruct (String.eqb_spec k k'); [congruence|reflexivity].
  - destruct (String.eqb_spec k0 k) as [->|Hk]; simpl.
    + destruct (String.eqb_spec k k'); [congruence|reflexivity].
    + destruct (String.eqb k0 k'); auto.
Qed.

Lemma dict_keys_set (k k' : string) (v : json) (d : list (string * json)) :
  In k' (dict_keys d) -> In k' (dict_keys (dict_set k v d)).
Proof.
  unfold dict_keys. induction d as [|[k0 v0] rest IH]; simpl; [tauto|].
  intros [E|H]; destruct (String.eqb k0 k); simpl; auto.
Qed.


Lemma load_files_ok (files : list (string * node)) :
  forall (items : list json) (s : state),
    read_all files = Some items ->
    exists lg,
      for_each files load_file tt s
      = (Ret tt,
         State (_ordering_data s) (_main_config s) (_custom_config s ++ items)
           (disk s) lg (pending s)).
Proof.
  induction files as [|[name n] rest IH]; intros items s H.
  - injection H as <-. destruct s. eexists. cbn. now rewrite app_nil_r.
  - cbn [read_all] in H.
    destruct n as [[j|t]|es]; try discriminate.
    destruct j; try discriminate.
    destruct (read_all rest) as [more|] eqn:E; [|discriminate].
    injection H as <-.
    cbn [for_each]. unfold bind at 1, load_file, bind, lift, json_load, get,
      set_custom_config, log. cbn [fst snd].
    cbn [_ordering_data _main_config _custom_config disk logged pending].
    edestruct (IH more) as [lg Hlg]; [reflexivity|].
    rewrite Hlg. cbn. rewrite <- app_assoc. eexists. reflexivity.
Qed.

Lemma load_custom_ok (s : state) (entries : list (string * node))
  (items : list json) :
  groups_dir (disk s) = Some (Dir entries) ->
  fragments (disk s) = Some items ->
  exists lg,
    _load_custom_config s
    = (Ret tt,
       State (_ordering_data s) (_main_config s) (_custom_config s ++ items)
         (disk s) lg (pending s)).
Proof.
  intros Hgd Hfr. unfold fragments in Hfr. rewrite Hgd in Hfr.
  unfold _load_custom_config, bind at 1, get. rewrite Hgd. cbn [exists_ negb].
  destruct (sorted_glob_json (Some (Dir entries))) as [|f fs] eqn:E.
  - injection Hfr as <-. destruct s. cbn. rewrite app_nil_r.
    eexists. reflexivity.
  - now apply load_files_ok.
Qed.

Lemma names_of_map (names : list string) :
  names_of (map JStr names) = Some names.
Proof. induction names; simpl; [reflexivity|now rewrite IHnames]. Qed.


(** ** The scratch store *)



Lemma contains_app (c : ascii) (a b : string) :
  contains c (a ++ b) = contains c a || contains c b.
Proof.
  induction a as [|x a IH]; simpl; [reflexivity|].
  rewrite IH. now rewrite orb_assoc.
Qed.


Lemma join_ok (keys : list json) :
  forallb key_ok keys = true -> exists names, join_names keys = Ret names.
Proof.
  unfold join_names. induction keys as [|k rest IH]; simpl.
  - eexists. reflexivity.
  - intros H. apply andb_prop in H. destruct H as [Hk Hrest].
    destruct k; try discriminate.
    destruct (IH Hrest) as [names Hn].
    destruct (names_of rest); [|discriminate]. eexists. reflexivity.
Qed.

Lemma forallb_filter_sub {A} (p q : A -> bool) (l : list A) :
  forallb p l = true -> forallb p (filter q l) = true.
Proof.
  induction l as [|x t IH]; simpl; [reflexivity|].
  intros H. apply andb_prop in H. destruct H as [Hx Ht].
  destruct (q x); simpl; [rewrite Hx|]; auto.
Qed.





Lemma replace_no_faults (s : state) (m : content) (t : list (string * node)) :
  pending s = [] ->
  file_or_absent (order_json (disk s)) = true ->
  dir_or_absent (groups_dir (disk s)) = true ->
  replace_store m t s
  = (Ret tt,
     State (_ordering_data s) (_main_config s) (_custom_config s)
       (FS (main_json (disk s)) (Some (Dir t)) (Some (File m))
           (config_json (disk s)))
       (logged s) []).
Proof.
  destruct s as [od mc cc [mj gd oj cj] lg p]. cbn. intros -> Hoj Hgd.
  destruct oj as [[c|es]|]; try discriminate;
    destruct gd as [[c'|es']|]; try discriminate; reflexivity.
Qed.


End Success.


Section WholeRun.
Import Disk Compiler Rewriter Env Wf.
Local Open Scope py_scope.


End WholeRun.


(* ================================================================== *)
(** * The engine on the heap: what it can reach and what it leaves alone *)
(* ================================================================== *)

Section HeapFrame.
Import Heap.
Local Open Scope py_scope.

Variable h0 : list obj.
Let n := length h0.
Local Abbreviation extends := (Heap.extends h0).
Local Abbreviation memo_fresh := (Heap.memo_fresh (length h0)).

Lemma extends_base : extends h0.
Proof.
  split; [reflexivity|]. split; [reflexivity|].
  intros k o Hk H. exfalso.
  assert (nth_error h0 k = None) by (apply nth_error_None; exact Hk).
  congruence.
Qed.

Lemma extends_alloc (h : list obj) (o : obj) :
  extends h -> closed n o = true -> extends (h ++ [o]).
Proof.
  intros (Hlen & Hold & Hnew) Ho. split; [|split].
  - rewrite length_app. simpl. lia.
  - intros k Hk. rewrite nth_error_app1 by lia. now apply Hold.
  - intros k o' Hk H.
    destruct (Nat.lt_ge_cases k (length h)) as [Hlt|Hge].
    + rewrite nth_error_app1 in H by lia. eapply Hnew; eassumption.
    + rewrite nth_error_app2 in H by lia.
      destruct (k - length h) as [|j]; simpl in H.
      * injection H as <-. exact Ho.
      * destruct j; discriminate.
Qed.

Lemma update_at_length (y : loc) (f : obj -> obj) (h : list obj) :
  length (update_at y f h) = length h.
Proof.
  revert y. induction h as [|o rest IH]; intros y; [now destruct y|].
  destruct y; simpl; [reflexivity|now rewrite IH].
Qed.

Lemma update_at_other (y k : loc) (f : obj -> obj) (h : list obj) :
  k <> y -> nth_error (update_at y f h) k = nth_error h k.
Proof.
  revert y k. induction h as [|o rest IH]; intros y k Hne; [now destruct y|].
  destruct y, k; simpl; try reflexivity; try congruence.
  apply IH. congruence.
Qed.

Lemma update_at_same (y : loc) (f : obj -> obj) (h : list obj) :
  nth_error (update_at y f h) y = option_map f (nth_error h y).
Proof.
  revert y. induction h as [|o rest IH]; intros y; [now destruct y|].
  destruct y; simpl; [reflexivity|apply IH].
Qed.

Lemma extends_update (h : list obj) (y : loc) (f : obj -> obj) :
  extends h -> n <= y ->
  (forall o, closed n o = true -> closed n (f o) = true) ->
  extends (update_at y f h).
Proof.
  intros (Hlen & Hold & Hnew) Hy Hf. split; [|split].
  - now rewrite update_at_length.
  - intros k Hk. rewrite update_at_other by lia. now apply Hold.
  - intros k o Hk H. destruct (Nat.eq_dec k y) as [->|Hne].
    + rewrite update_at_same in H.
      destruct (nth_error h y) as [o'|] eqn:E; [|discriminate].
      injection H as <-. apply Hf. eapply Hnew; eassumption.
    + rewrite update_at_other in H by assumption. eapply Hnew; eassumption.
Qed.

Lemma closed_append (a : val) (o : obj) :
  fresh n a = true -> closed n o = true -> closed n (append_item a o) = true.
Proof.
  intros Ha. destruct o; simpl; [|auto].
  intros H. now rewrite forallb_app, H; simpl; rewrite Ha.
Qed.

Lemma closed_set_field (k : string) (v : val) (o : obj) :
  fresh n v = true -> closed n o = true -> closed n (set_field k v o) = true.
Proof.
  intros Hv. destruct o; simpl; [auto|].
  intros H. now rewrite forallb_app, H; simpl; rewrite Hv.
Qed.

Lemma memo_fresh_cons (memo : list (loc * loc)) (l y : loc) :
  memo_fresh memo -> n <= y -> memo_fresh ((l, y) :: memo).
Proof.
  intros Hm Hy a b. simpl. destruct (Nat.eqb l a).
  - intros H. injection H as <-. exact Hy.
  - apply Hm.
Qed.

(** A deep copy only adds objects, and what it returns is a scalar or one
    of the objects it has added (now or earlier in the same copy). *)
Lemma deepcopy_extends (depth : nat) :
  forall (x : val) (memo : list (loc * loc)) (h : list obj)
         (r : outcome val) (memo' : list (loc * loc)) (h' : list obj),
    extends h -> memo_fresh memo ->
    deepcopy depth x memo h = (r, (memo', h')) ->
    extends h' /\ memo_fresh memo'
    /\ (forall v, r = Ret v -> fresh n v = true).
Proof.
  induction depth as [|depth IH]; intros x memo h r memo' h' Hh Hm H.
  - simpl in H. injection H as <- <- <-. (split; [assumption|split; [assumption|]]). discriminate.
  - cbn [deepcopy] in H. destruct x as [| b | z | s | l];
      try (injection H as <- <- <-; split; [assumption|split; [assumption|]];
           intros v E; injection E as <-; reflexivity).
    destruct (assoc l memo) as [y|] eqn:Ea.
    { injection H as <- <- <-. (split; [assumption|split; [assumption|]]).
      intros v E. injection E as <-. simpl. apply Nat.leb_le. eapply Hm; eauto. }
    destruct (nth_error h l) as [[items|fields]|] eqn:El.
    + assert (Hy : n <= length h) by apply Hh.
      assert (Hh1 : extends (h ++ [OList []])) by (apply extends_alloc; auto).
      assert (Hm1 : memo_fresh ((l, length h) :: memo))
        by (apply memo_fresh_cons; auto).
      remember (length h) as y eqn:Ey.
      remember (h ++ [OList []]) as h1 eqn:E1.
      remember ((l, y) :: memo) as m1 eqn:E2.
      clear Hh Hm Ea El Ey E1 E2 h memo.
      revert h1 m1 Hh1 Hm1 H.
      induction items as [|a rest IHi]; intros h memo Hh Hm H.
      * injection H as <- <- <-. (split; [assumption|split; [assumption|]]).
        intros v E. injection E as <-. simpl. now apply Nat.leb_le.
      * destruct (deepcopy depth a memo h) as [[a'|e] [memo1 h1]] eqn:Ed.
        -- destruct (IH _ _ _ _ _ _ Hh Hm Ed) as (Hh1 & Hm1 & Hf).
           apply (IHi (update_at y (append_item a') h1) memo1); auto.
           apply extends_update; auto. intros o. apply closed_append.
           now apply Hf.
        -- destruct (IH _ _ _ _ _ _ Hh Hm Ed) as (Hh1 & Hm1 & Hf).
           injection H as <- <- <-. (split; [assumption|split; [assumption|]]). discriminate.
    + assert (Hy : n <= length h) by apply Hh.
      assert (Hh1 : extends (h ++ [ODict []])) by (apply extends_alloc; auto).
      assert (Hm1 : memo_fresh ((l, length h) :: memo))
        by (apply memo_fresh_cons; auto).
      remember (length h) as y eqn:Ey.
      remember (h ++ [ODict []]) as h1 eqn:E1.
      remember ((l, y) :: memo) as m1 eqn:E2.
      clear Hh Hm Ea El Ey E1 E2 h memo.
      revert h1 m1 Hh1 Hm1 H.
      induction fields as [|[k v] rest IHi]; intros h memo Hh Hm H.
      * injection H as <- <- <-. (split; [assumption|split; [assumption|]]).
        intros v E. injection E as <-. simpl. now apply Nat.leb_le.
      * destruct (deepcopy depth v memo h) as [[v'|e] [memo1 h1]] eqn:Ed.
        -- destruct (IH _ _ _ _ _ _ Hh Hm Ed) as (Hh1 & Hm1 & Hf).
           apply (IHi (update_at y (set_field k v') h1) memo1); auto.
           apply extends_update; auto. intros o. apply closed_set_field.
           now apply Hf.
        -- destruct (IH _ _ _ _ _ _ Hh Hm Ed) as (Hh1 & Hm1 & Hf).
           injection H as <- <- <-. (split; [assumption|split; [assumption|]]). discriminate.
    + injection H as <- <- <-. (split; [assumption|split; [assumption|]]). discriminate.
Qed.

End HeapFrame.


Section HeapSorter.
Import Heap.
Local Open Scope py_scope.

Variable h0 : list obj.
Let n := length h0.
Local Abbreviation works_aside := (Heap.works_aside h0).
Local Abbreviation safe := (Heap.safe h0).

Lemma safe_ret {A} (a : A) (Q : A -> Prop) : Q a -> safe (ret a) Q.
Proof. intros H s Hs. split; [exact Hs|]. intros b E. now injection E as <-. Qed.

Lemma safe_raise {A} (e : exn) (Q : A -> Prop) : safe (raise e) Q.
Proof. intros s Hs. split; [exact Hs|]. discriminate. Qed.

Lemma safe_bind {A B} (m : M state A) (k : A -> M state B)
  (P : A -> Prop) (Q : B -> Prop) :
  safe m P -> (forall a, P a -> safe (k a) Q) -> safe (bind m k) Q.
Proof.
  intros Hm Hk s Hs. unfold bind. destruct (Hm s Hs) as [Hs1 Hp].
  destruct (m s) as [[a|e] s1]; cbn [fst snd] in *.
  - apply (Hk a (Hp a eq_refl) s1 Hs1).
  - split; [exact Hs1|discriminate].
Qed.

Lemma safe_weaken {A} (m : M state A) (P Q : A -> Prop) :
  safe m P -> (forall a, P a -> Q a) -> safe m Q.
Proof.
  intros Hm HPQ s Hs. destruct (Hm s Hs) as [Hs1 Hp]. split; auto.
Qed.

Lemma safe_get : safe get (fun self => fresh n (_custom_config self) = true).
Proof.
  intros s Hs. split; [exact Hs|]. intros a E. injection E as <-. apply Hs.
Qed.

Lemma safe_log (l : level) (f : string) (a : list log_arg) :
  safe (log l f a) (fun _ => True).
Proof. intros s Hs. split; [exact Hs|auto]. Qed.

Lemma safe_set (v : val) :
  fresh n v = true -> safe (set_custom_config v) (fun _ => True).
Proof. intros Hv s [Hh _]. split; [split; assumption|auto]. Qed.

Lemma safe_try {A} (body : M state A) (handler : exn -> option (M state A))
  (Q : A -> Prop) :
  safe body Q -> (forall e h, handler e = Some h -> safe h Q) ->
  safe (try_except body handler) Q.
Proof.
  intros Hb Hh s Hs. unfold try_except. destruct (Hb s Hs) as [Hs1 Hq].
  destruct (body s) as [[a|e] s1]; cbn [fst snd] in *.
  - split; [exact Hs1|exact Hq].
  - destruct (handler e) as [h|] eqn:E.
    + apply (Hh e h E s1 Hs1).
    + split; [exact Hs1|discriminate].
Qed.

Lemma safe_for_each {A B} (xs : list A) (body : A -> B -> M state B) :
  (forall x acc, safe (body x acc) (fun _ => True)) ->
  forall acc, safe (for_each xs body acc) (fun _ => True).
Proof.
  intros Hb. induction xs as [|x rest IH]; intros acc.
  - now apply safe_ret.
  - cbn [for_each]. eapply safe_bind; [apply Hb|]. intros a _. apply IH.
Qed.

Lemma forallb_firstn {A} (p : A -> bool) (k : nat) (l : list A) :
  forallb p l = true -> forallb p (firstn k l) = true.
Proof.
  intros H. rewrite <- (firstn_skipn k l), forallb_app in H.
  apply andb_prop in H. tauto.
Qed.

Lemma forallb_skipn {A} (p : A -> bool) (k : nat) (l : list A) :
  forallb p l = true -> forallb p (skipn k l) = true.
Proof.
  intros H. rewrite <- (firstn_skipn k l), forallb_app in H.
  apply andb_prop in H. tauto.
Qed.

Lemma fresh_items (s : state) (l : loc) (items : list val) :
  works_aside s -> fresh n (VRef l) = true ->
  nth_error (heap s) l = Some (OList items) ->
  forallb (fresh n) items = true.
Proof.
  intros [(_ & _ & Hnew) _] Hl H. simpl in Hl. apply Nat.leb_le in Hl.
  exact (Hnew l _ Hl H).
Qed.

Lemma safe_alloc (o : obj) :
  closed n o = true -> safe (alloc o) (fun v => fresh n v = true).
Proof.
  intros Ho s [Hh Hc]. unfold alloc. cbn [fst snd]. split.
  - split; [now apply extends_alloc|exact Hc].
  - intros a E. injection E as <-. simpl. apply Nat.leb_le. apply Hh.
Qed.

Lemma safe_iterate (x : val) :
  fresh n x = true ->
  safe (iterate x) (fun items => forallb (fresh n) items = true).
Proof.
  intros Hx s Hs. unfold iterate.
  destruct x as [| | | |l]; try (split; [exact Hs|discriminate]).
  destruct (nth_error (heap s) l) as [[items|fields]|] eqn:E;
    cbn [fst snd]; (split; [exact Hs|]); try discriminate.
  - intros a Ea. injection Ea as <-. eapply fresh_items; eassumption.
  - intros a Ea. injection Ea as <-. clear. induction fields; simpl; auto.
Qed.

Lemma safe_slice (lo : nat) (hi : option nat) (x : val) :
  fresh n x = true -> safe (py_slice lo hi x) (fun v => fresh n v = true).
Proof.
  intros Hx s Hs. unfold py_slice.
  destruct x as [| | | |l]; try (split; [exact Hs|discriminate]).
  destruct (nth_error (heap s) l) as [[items|fields]|] eqn:E;
    try (split; [exact Hs|discriminate]).
  apply safe_alloc; [|exact Hs]. simpl.
  apply forallb_skipn. pose proof (fresh_items s l items Hs Hx E) as Hi.
  destruct hi; [now apply forallb_firstn|exact Hi].
Qed.

Lemma safe_concat (x y : val) :
  fresh n x = true -> fresh n y = true ->
  safe (py_concat x y) (fun v => fresh n v = true).
Proof.
  intros Hx Hy s Hs. unfold py_concat.
  destruct x as [| | | |a]; try (split; [exact Hs|discriminate]).
  destruct y as [| | | |b]; try (split; [exact Hs|discriminate]).
  destruct (nth_error (heap s) a) as [[xs|fs]|] eqn:Ea;
    try (split; [exact Hs|discriminate]).
  destruct (nth_error (heap s) b) as [[ys|fs]|] eqn:Eb;
    try (split; [exact Hs|discriminate]).
  apply safe_alloc; [|exact Hs]. simpl. rewrite forallb_app.
  now rewrite (fresh_items s a xs Hs Hx Ea), (fresh_items s b ys Hs Hy Eb).
Qed.

Lemma safe_getitem (x : val) : safe (getitem_group x) (fun _ => True).
Proof.
  intros s Hs. unfold getitem_group.
  destruct x as [| | | |l]; try (split; [exact Hs|auto]).
  destruct (nth_error (heap s) l) as [[items|fields]|];
    try (split; [exact Hs|auto]).
  destruct (find _ fields); split; auto.
Qed.

Lemma safe_collect_loop (g : string) (items : list val) :
  forall i item, safe (collect_loop g i items item) (fun _ => True).
Proof.
  induction items as [|x rest IH]; intros i item.
  - now apply safe_ret.
  - cbn [collect_loop]. eapply safe_bind.
    + apply safe_try; [apply safe_getitem|].
      intros e h E. destruct e; try discriminate. injection E as <-.
      eapply safe_bind; [apply safe_log|]. intros _ _. apply safe_raise.
    + intros v _. apply IH.
Qed.

Lemma safe_collect (g : string) :
  safe (_collect_group_ordering_data_item g) (fun _ => True).
Proof.
  unfold _collect_group_ordering_data_item.
  eapply safe_bind; [apply safe_get|]. intros self Hself.
  eapply safe_bind; [now apply safe_iterate|]. intros items _.
  eapply safe_bind; [apply safe_collect_loop|]. intros item _.
  destruct (negb (Sorter.is_found item)).
  - eapply safe_bind; [apply safe_log|]. intros _ _. apply safe_raise.
  - now apply safe_ret.
Qed.

Lemma safe_index (o : option nat) : safe (index o) (fun _ => True).
Proof. destruct o; [now apply safe_ret|apply safe_raise]. Qed.

Lemma safe_pop (g : string) :
  safe (_pop_group_2 g) (fun v => fresh n v = true).
Proof.
  unfold _pop_group_2.
  eapply safe_bind; [apply safe_collect|]. intros item _.
  eapply safe_bind; [apply safe_index|]. intros first _.
  eapply safe_bind; [apply safe_index|]. intros last _.
  eapply safe_bind; [apply safe_get|]. intros self Hself.
  eapply safe_bind; [now apply safe_slice|]. intros before Hb.
  eapply safe_bind; [now apply safe_slice|]. intros group_2 Hg.
  eapply safe_bind; [now apply safe_slice|]. intros after Ha.
  eapply safe_bind; [now apply safe_concat|]. intros joined Hj.
  eapply safe_bind; [now apply safe_set|]. intros _ _.
  now apply safe_ret.
Qed.

Lemma safe_insert (g : string) (group_2 : val) :
  fresh n group_2 = true ->
  safe (_insert_group_2_after_group_1 g group_2) (fun _ => True).
Proof.
  intros Hg. unfold _insert_group_2_after_group_1.
  eapply safe_bind; [apply safe_collect|]. intros item _.
  eapply safe_bind; [apply safe_index|]. intros last _.
  eapply safe_bind; [apply safe_get|]. intros self Hself.
  eapply safe_bind; [now apply safe_slice|]. intros before Hb.
  eapply safe_bind; [now apply safe_slice|]. intros after Ha.
  eapply safe_bind; [now apply safe_concat|]. intros front Hf.
  eapply safe_bind; [now apply safe_concat|]. intros joined Hj.
  now apply safe_set.
Qed.

Lemma safe_sort_pair (pair : string * string) (missing : list string) :
  safe (sort_pair pair missing) (fun _ => True).
Proof.
  destruct pair as [g1 g2]. unfold sort_pair. apply safe_try.
  - eapply safe_bind; [apply safe_pop|]. intros group_2 Hg.
    eapply safe_bind; [now apply safe_insert|]. intros _ _.
    now apply safe_ret.
  - intros e h E. destruct e; try discriminate. injection E as <-.
    now apply safe_ret.
Qed.

Lemma safe_get_sorted :
  safe get_sorted_custom_config (fun v => fresh n v = true).
Proof.
  unfold get_sorted_custom_config.
  eapply safe_bind; [apply safe_get|]. intros self _.
  eapply safe_bind; [apply safe_for_each; apply safe_sort_pair|].
  intros missing _.
  eapply safe_bind; [apply safe_log|]. intros _ _.
  eapply safe_bind; [apply safe_get|]. intros self' Hself.
  now apply safe_ret.
Qed.

(** The whole call on the heap [h0]. *)
Lemma sorter_extends (depth : nat) (arg : val) (od : list string) :
  extends h0 (heap (snd (sorter depth h0 arg od)))
  /\ forall v, fst (sorter depth h0 arg od) = Ret v -> fresh n v = true.
Proof.
  assert (Hm : memo_fresh (length h0) []) by (intros a y H; discriminate).
  unfold sorter, init.
  destruct (deepcopy depth arg [] h0) as [[copy|e] [memo h]] eqn:E;
    destruct (deepcopy_extends h0 depth arg [] h0 _ _ _
                (extends_base h0) Hm E) as (Hh & _ & Hf).
  - destruct (safe_get_sorted (State h copy od [])) as [[H1 _] H2].
    + split; [exact Hh|now apply Hf].
    + split; [exact H1|exact H2].
  - split; [exact Hh|discriminate].
Qed.

End HeapSorter.


(* ================================================================== *)
(** * The ordering engine: the claims *)
(* ================================================================== *)

Section EngineClaims.
Import Sorter Spec.

Example sorted_example :
  sorted [record "x" 1; record "y" 2] ["y"; "x"]
  = Ret [record "y" 2; record "x" 1].
Proof. reflexivity. Qed.

Example sorted_chain_example :
  sorted [record "c" 1; record "b" 1; record "b" 2; record "q" 0; record "a" 1]
         ["a"; "b"; "c"]
  = Ret [record "q" 0; record "a" 1; record "b" 1; record "b" 2; record "c" 1].
Proof. reflexivity. Qed.

End EngineClaims.



(** C2, as stated, fails: with interleaved groups the span that is cut out
    carries foreign records along, and their group changes its order. *)
Lemma C2_counterexample :
  let cfg := [record "a" 1; record "b" 1; record "a" 2; record "b" 2] in
  let out := [record "b" 2; record "a" 1; record "b" 1; record "a" 2] in
  Spec.records_ok cfg = true
  /\ Sorter.sorted cfg ["b"; "a"] = Ret out
  /\ Spec.members "b" cfg = [record "b" 1; record "b" 2]
  /\ Spec.members "b" out = [record "b" 2; record "b" 1]
  /\ ~ (forall (c : list json) (od : list string) (o : list json) (g : string),
          Sorter.sorted c od = Ret o ->
          Spec.subseq (Spec.members g o) (Spec.members g c)).
Proof.
  cbv zeta. repeat split.
  intros H.
  specialize (H [record "a" 1; record "b" 1; record "a" 2; record "b" 2]
                ["b"; "a"] _ "b" eq_refl).
  change (Spec.subseq [record "b" 2; record "b" 1] [record "b" 1; record "b" 2]) in H.
  inversion H as [| x l1 l2 H1 | x l1 l2 H1]; subst.
  inversion H1 as [| y m1 m2 H2 | y m1 m2 H2]; subst.
  - inversion H2.
  - inversion H2.
Qed.

(** C2, amended.  When every group named in the specification occupies a
    contiguous span of the input, the engine returns, and for every group
    name the records of that group come out in the order they came in:
    they are the same subsequence, or none of them is left (the group was
    cut out and its predecessor was missing). *)
Theorem C2_intra_group_order (cfg : list json) (od : list string) :
  Spec.records_ok cfg = true ->
  forallb (fun g => Spec.contiguous g cfg) od = true ->
  exists out,
    Sorter.sorted cfg od = Ret out
    /\ forall g,
         (Spec.members g out = Spec.members g cfg \/ Spec.members g out = [])
         /\ Spec.subseq (Spec.members g out) (Spec.members g cfg).
Proof.
  intros Hok Hcont. exists (Spec.moves (Sorter.adjacent_pairs od) cfg).
  split; [now apply sorted_ok|]. intros g.
  rewrite forallb_forall in Hcont.
  assert (H : Spec.members g (Spec.moves (Sorter.adjacent_pairs od) cfg)
              = Spec.members g cfg
              \/ Spec.members g (Spec.moves (Sorter.adjacent_pairs od) cfg) = []).
  { apply members_moves with od.
    - intros a b Hin. apply in_adjacent_pairs in Hin.
      destruct od; [destruct (proj1 Hin)|]. right. exact (proj2 Hin).
    - exact Hcont. }
  split; [exact H|]. destruct H as [-> | ->].
  - apply subseq_refl.
  - apply subseq_nil.
Qed.

Lemma C2_witness :
  exists out,
    Sorter.sorted [record "a" 1; record "a" 2; record "b" 1; record "c" 1]
                  ["z"; "a"; "c"; "b"] = Ret out
    /\ forall g,
         (Spec.members g out
          = Spec.members g [record "a" 1; record "a" 2; record "b" 1; record "c" 1]
          \/ Spec.members g out = [])
         /\ Spec.subseq (Spec.members g out)
              (Spec.members g [record "a" 1; record "a" 2; record "b" 1; record "c" 1]).
Proof.
  apply (C2_intra_group_order
           [record "a" 1; record "a" 2; record "b" 1; record "c" 1]
           ["z"; "a"; "c"; "b"]); reflexivity.
Defined.

(** C5.  When the pair (g1, g2) is processed on a sequence in which g2 is
    present and g1 is not, the span of g2 is cut out and not put back: the
    iteration ends normally with g1 recorded as missing and a warning, the
    sequence left is the one without the span (it holds no record of g2),
    and the remaining pairs run on that sequence. *)
Theorem C5_cut_group_is_dropped (s : Sorter.state) (g1 g2 : string)
  (missing : list string) (pairs : list (string * string)) :
  Spec.records_ok (Sorter._custom_config s) = true ->
  Spec.group_exists g2 (Sorter._custom_config s) = true ->
  Spec.group_exists g1 (Sorter._custom_config s) = false ->
  exists pre span post,
    Sorter._custom_config s = pre ++ span ++ post
    /\ Spec.group_exists g2 pre = false
    /\ Spec.group_exists g2 post = false
    /\ (exists y t, span = y :: t /\ Spec.group_is g2 y = true)
    /\ (exists h z, span = h ++ [z] /\ Spec.group_is g2 z = true)
    /\ Sorter.sort_pair (g1, g2) missing s
       = (Ret (set_add g1 missing),
          Sorter.State (pre ++ post) (Sorter._ordering_data s)
            (Sorter.logged s ++ [Spec.warning g1]))
    /\ Spec.group_exists g2 (pre ++ post) = false
    /\ for_each ((g1, g2) :: pairs) Sorter.sort_pair missing s
       = for_each pairs Sorter.sort_pair (set_add g1 missing)
           (Sorter.State (pre ++ post) (Sorter._ordering_data s)
              (Sorter.logged s ++ [Spec.warning g1])).
Proof.
  intros Hok H2 H1.
  destruct (first_idx_some _ _ H2) as [f Hf].
  destruct (last_idx_some _ _ H2) as [k Hk].
  destruct (hull g2 _ f k Hf Hk) as (Hl & Hpre & Hpost & Hhd & Hlast).
  set (l := Sorter._custom_config s) in *.
  exists (firstn f l), (skipn f (firstn (k + 1) l)), (skipn (k + 1) l).
  pose proof (absent_cut g1 f (k + 1) l H1) as Hrest.
  assert (Hstep : Sorter.sort_pair (g1, g2) missing s
       = (Ret (set_add g1 missing),
          Sorter.State (firstn f l ++ skipn (k + 1) l) (Sorter._ordering_data s)
            (Sorter.logged s ++ [Spec.warning g1]))).
  { rewrite (sort_pair_ok g1 g2 missing s Hok).
    unfold Spec.move, Spec.move_missing. fold l. rewrite Hf, Hk.
    rewrite (last_idx_free _ _ Hrest). reflexivity. }
  repeat split; try assumption.
  - unfold Spec.group_exists in *. now rewrite existsb_app, Hpre, Hpost.
  - cbn [for_each]. unfold bind at 1. rewrite Hstep. reflexivity.
Qed.

Lemma C5_witness :
  exists pre span post,
    [record "x" 1; record "y" 2; record "w" 0; record "y" 3; record "x" 2]
    = pre ++ span ++ post
    /\ Spec.group_exists "y" pre = false
    /\ Spec.group_exists "y" post = false
    /\ (exists y t, span = y :: t /\ Spec.group_is "y" y = true)
    /\ (exists h z, span = h ++ [z] /\ Spec.group_is "y" z = true)
    /\ Sorter.sort_pair ("z", "y") []
         (Sorter.init
            [record "x" 1; record "y" 2; record "w" 0; record "y" 3; record "x" 2]
            ["z"; "y"; "x"] [])
       = (Ret (set_add "z" []),
          Sorter.State (pre ++ post) ["z"; "y"; "x"] ([] ++ [Spec.warning "z"]))
    /\ Spec.group_exists "y" (pre ++ post) = false
    /\ for_each [("z", "y"); ("y", "x")] Sorter.sort_pair []
         (Sorter.init
            [record "x" 1; record "y" 2; record "w" 0; record "y" 3; record "x" 2]
            ["z"; "y"; "x"] [])
       = for_each [("y", "x")] Sorter.sort_pair (set_add "z" [])
           (Sorter.State (pre ++ post) ["z"; "y"; "x"] ([] ++ [Spec.warning "z"])).
Proof.
  apply (C5_cut_group_is_dropped
           (Sorter.init
              [record "x" 1; record "y" 2; record "w" 0; record "y" 3; record "x" 2]
              ["z"; "y"; "x"] [])
           "z" "y" [] [("y", "x")]); reflexivity.
Defined.


(* ================================================================== *)
(** * The compiler and the store rewriter: the claims *)
(* ================================================================== *)

Section SortPhase.
Import Disk Compiler Rewriter Env Wf.
Local Open Scope py_scope.

Lemma sort_single (s : state) (x : json) :
  order_json (disk s) = Some (File (Doc (JArr [x]))) ->
  _sort_custom_config s
  = (Raise (ValueError "Group order json must have at least 2 group names"),
     State (JArr [x]) (_main_config s) (_custom_config s) (disk s)
       (logged s) (pending s)).
Proof.
  intros H. unfold _sort_custom_config, bind, get, lift, set_ordering_data.
  rewrite H. reflexivity.
Qed.

End SortPhase.




(** C6.  When the ordering manifest holds a list of exactly one element,
    the run raises and leaves the whole disk as it was: no store file and no
    output file is created or modified.  Whenever the main config and the
    fragments load, the exception is the [ValueError] of the ordering
    specification. *)
Theorem C6_single_name_is_fatal (s : Compiler.state) (x : json) :
  Disk.order_json (Compiler.disk s)
  = Some (Disk.File (Disk.Doc (JArr [x]))) ->
  exists e s',
    Rewriter.main s = (Raise e, s')
    /\ Compiler.disk s' = Compiler.disk s
    /\ (forall s1 s2,
           Compiler._load_main_config s = (Ret tt, s1) ->
           Compiler._load_custom_config s1 = (Ret tt, s2) ->
           e = ValueError "Group order json must have at least 2 group names").
Proof.
  intros Hod. rewrite main_unfold, run_unfold.
  unfold Wf.load_and_sort, bind at 1.
  destruct (load_main_shape s) as (o1 & mc1 & lg1 & H1 & _). rewrite H1.
  destruct o1 as [[]|e1].
  2:{ do 2 eexists. split; [reflexivity|]. split; [reflexivity|].
      intros s1 s2 H. discriminate. }
  unfold bind at 1.
  lazymatch goal with
  | |- context [Compiler._load_custom_config ?s1] =>
      destruct (load_custom_shape s1) as (o2 & cc2 & lg2 & H2); rewrite H2
  end.
  destruct o2 as [[]|e2].
  2:{ do 2 eexists. split; [reflexivity|]. split; [reflexivity|].
      intros s1 s2 Hs1 Hs2. injection Hs1 as <-. rewrite H2 in Hs2.
      discriminate. }
  rewrite (sort_single _ x) by exact Hod.
  do 2 eexists. split; [reflexivity|]. split; [reflexivity|]. reflexivity.
Qed.

Lemma C6_witness :
  exists e s',
    Rewriter.main (Compiler.init (sample_disk ["x"]) []) = (Raise e, s')
    /\ Compiler.disk s' = sample_disk ["x"]
    /\ (forall s1 s2,
           Compiler._load_main_config (Compiler.init (sample_disk ["x"]) [])
           = (Ret tt, s1) ->
           Compiler._load_custom_config s1 = (Ret tt, s2) ->
           e = ValueError "Group order json must have at least 2 group names").
Proof.
  apply (C6_single_name_is_fatal (Compiler.init (sample_disk ["x"]) [])
           (JStr "x")).
  reflexivity.
Defined.

(** C8 is not what the code does: when the group directory is absent the
    run never completes.  The snapshot [shutil.copytree] of the rewriter
    needs the directory, so the run raises and the disk is left as it was:
    no merged output is produced. *)
Theorem C8_absent_directory_aborts (s : Compiler.state) :
  Disk.groups_dir (Compiler.disk s) = None ->
  exists e s',
    Rewriter.main s = (Raise e, s') /\ Compiler.disk s' = Compiler.disk s.
Proof.
  intros Hgd. rewrite main_unfold, run_unfold.
  destruct (load_and_sort_shape s) as (o & od & mc & cc & lg & H & _).
  rewrite H. destruct o as [[]|e]; [|do 2 eexists; split; reflexivity].
  lazymatch goal with
  | |- context [Rewriter._recreate_custom_config_files ?s1] =>
      destruct (recreate_absent_dir s1 Hgd) as (e & lg' & H'); rewrite H'
  end.
  do 2 eexists. split; reflexivity.
Qed.

Lemma C8_witness :
  exists e s',
    Rewriter.main
      (Compiler.init (Compiler.with_groups_dir None (sample_disk ["y"; "x"])) [])
    = (Raise e, s')
    /\ Compiler.disk s'
       = Compiler.with_groups_dir None (sample_disk ["y"; "x"]).
Proof.
  apply (C8_absent_directory_aborts
           (Compiler.init
              (Compiler.with_groups_dir None (sample_disk ["y"; "x"])) [])).
  reflexivity.
Defined.

Example absent_directory_error :
  fst (Rewriter.main
         (Compiler.init (Compiler.with_groups_dir None (sample_disk ["y"; "x"])) []))
  = Raise (FileNotFoundError "config/custom/groups").
Proof. reflexivity. Qed.




(** C7 is not what the code does on every path.  When the ordering engine
    is skipped (here the manifest is the empty list), the first lookup of
    the [group] field is the one of the rewriter's partition: the
    [KeyError] is raised and the disk is untouched, but the offending record
    is not logged; no record of level ERROR is written at all. *)
Theorem C7_partition_raises_without_logging :
  let d :=
    Disk.FS (Some (Disk.File (Disk.Doc (JObj [("a", JNum 1)]))))
      (Some (Disk.Dir
               [("frag.json",
                 Disk.File (Disk.Doc (JArr [record "x" 1; JObj [("k", JNum 2)]])))]))
      (Some (Disk.File (Disk.Doc (JArr []))))
      None in
  exists s',
    Rewriter.main (Compiler.init d []) = (Raise (KeyError "group"), s')
    /\ Compiler.disk s' = d
    /\ forallb (fun r => match lvl r with ERROR => false | _ => true end)
         (Compiler.logged s') = true
    /\ Sorter.run [record "x" 1; JObj [("k", JNum 2)]] ["x"; "y"]
       = (Raise (KeyError "group"),
          Sorter.State [record "x" 1; JObj [("k", JNum 2)]] ["x"; "y"]
            [LogRecord ERROR
               "Malformed custom config object - 'group' key is missing:\n%s"
               [ADump (JObj [("k", JNum 2)])]]).
Proof.
  cbv zeta. eexists. split; [vm_compute; reflexivity|].
  split; [reflexivity|]. split; reflexivity.
Qed.

(** C9.  After every run that returns, the output file holds the main
    config (the object read from [config/main.json]) with the key
    [customConfig] set to the sequence left by the loading and sorting
    phases: every key of the main config is there, the other keys keep their
    values, and [customConfig] is bound to that sequence.  On the sample
    store with specification [y, x] the document is
    [{"a": 1, "customConfig": [y-record, x-record]}]. *)
Theorem C9_merged_output :
  (forall s s',
      Rewriter.main s = (Ret tt, s') ->
      exists fields s3,
        Wf.load_and_sort s = (Ret tt, s3)
        /\ Disk.main_json (Compiler.disk s)
           = Some (Disk.File (Disk.Doc (JObj fields)))
        /\ Disk.config_json (Compiler.disk s')
           = Some (Disk.File (Disk.Doc
                     (JObj (dict_set "customConfig"
                              (JArr (Compiler._custom_config s3)) fields))))
        /\ (forall k, In k (dict_keys fields) ->
                      In k (dict_keys
                              (dict_set "customConfig"
                                 (JArr (Compiler._custom_config s3)) fields)))
        /\ (forall k, k <> "customConfig" ->
                      dict_get k (dict_set "customConfig"
                                    (JArr (Compiler._custom_config s3)) fields)
                      = dict_get k fields)
        /\ dict_get "customConfig"
             (dict_set "customConfig" (JArr (Compiler._custom_config s3)) fields)
           = Some (JArr (Compiler._custom_config s3)))
  /\ (exists s',
        Rewriter.main (Compiler.init (sample_disk ["y"; "x"]) []) = (Ret tt, s')
        /\ Compiler._custom_config s' = [record "y" 2; record "x" 1]
        /\ Disk.config_json (Compiler.disk s')
           = Some (Disk.File (Disk.Doc
                     (JObj [("a", JNum 1);
                            ("customConfig",
                             JArr [record "y" 2; record "x" 1])])))).
Proof.
  split.
  - intros s s' Hrun. rewrite main_unfold, run_unfold in Hrun.
    destruct (load_and_sort_shape s) as (o & od & mc & cc & lg & H & Hm).
    rewrite H in Hrun. destruct o as [[]|e]; [|discriminate].
    destruct (Hm eq_refl) as (fields & -> & Hmain).
    exists fields. eexists. split; [exact H|]. split; [exact Hmain|].
    cbn [Compiler._custom_config].
    lazymatch type of Hrun with
    | context [Rewriter._recreate_custom_config_files ?s1] =>
        destruct (recreate_shape s1) as (o2 & gd & oj & lg2 & p2 & H2);
          rewrite H2 in Hrun
    end.
    destruct o2 as [[]|e2]; [|discriminate].
    cbn [Compiler._ordering_data Compiler._main_config Compiler._custom_config
         Compiler.disk Disk.main_json Disk.config_json] in Hrun.
    unfold Rewriter._get_joined_main_and_custom_config, bind, get, ret in Hrun.
    cbn [Compiler._main_config Compiler._custom_config] in Hrun.
    unfold Rewriter._replace_config_in_root, bind, get, put in Hrun.
    cbn [Compiler.disk Disk.config_json] in Hrun.
    split.
    + destruct (Disk.config_json (Compiler.disk s)) as [[c|es]|];
        cbn in Hrun; try discriminate; injection Hrun as <-; reflexivity.
    + split; [intros k; apply dict_keys_set|].
      split; [intros k Hk; now apply dict_get_set_other|apply dict_get_set].
  - eexists. split; [vm_compute; reflexivity|]. split; reflexivity.
Qed.

Lemma C9_witness :
  exists fields s3,
    Wf.load_and_sort (Compiler.init (sample_disk ["y"; "x"]) []) = (Ret tt, s3)
    /\ Disk.main_json (sample_disk ["y"; "x"])
       = Some (Disk.File (Disk.Doc (JObj fields)))
    /\ Compiler._custom_config s3 = [record "y" 2; record "x" 1].
Proof.
  assert (Hrun : Rewriter.main (Compiler.init (sample_disk ["y"; "x"]) [])
                 = (Ret tt,
                    snd (Rewriter.main
                           (Compiler.init (sample_disk ["y"; "x"]) []))))
    by (vm_compute; reflexivity).
  destruct (proj1 C9_merged_output _ _ Hrun) as (fields & s3 & H & Hm & _).
  exists fields, s3. split; [exact H|]. split; [exact Hm|].
  vm_compute in H. injection H as <-. reflexivity.
Defined.


(** C10.  Whatever heap the engine is called on, and whatever it returns
    or raises, every object of that heap (the caller's sequence and each of
    its records among them) is afterwards what it was.  When the engine
    returns, the sequence it returns is an object it has created, and every
    object created during the call refers to created objects only: nothing
    of the caller's is reachable from the result. *)
Theorem C10_caller_sequence_untouched (depth : nat) (h0 : list Heap.obj)
  (custom_config : Heap.val) (ordering_data : list string) :
  (forall k,
      k < length h0 ->
      nth_error
        (Heap.heap (snd (Heap.sorter depth h0 custom_config ordering_data))) k
      = nth_error h0 k)
  /\ (forall v,
         fst (Heap.sorter depth h0 custom_config ordering_data) = Ret v ->
         Heap.fresh (length h0) v = true
         /\ forall k o,
              length h0 <= k ->
              nth_error
                (Heap.heap (snd (Heap.sorter depth h0 custom_config ordering_data)))
                k = Some o ->
              Heap.closed (length h0) o = true).
Proof.
  destruct (sorter_extends h0 depth custom_config ordering_data)
    as [(Hlen & Hold & Hnew) Hres].
  split; [exact Hold|]. intros v Hv. split; [now apply Hres|exact Hnew].
Qed.

(** The caller's list of two records, sorted with [y, x]: the result is a
    new list of two new records, the caller's three objects are still the
    first three of the heap. *)
Example heap_sorter_example :
  let x := Heap.ODict [("group", Heap.VStr "x"); ("k", Heap.VNum 1)] in
  let y := Heap.ODict [("group", Heap.VStr "y"); ("k", Heap.VNum 2)] in
  let h0 := [x; y; Heap.OList [Heap.VRef 0; Heap.VRef 1]] in
  let r := Heap.sorter 10 h0 (Heap.VRef 2) ["y"; "x"] in
  fst r = Ret (Heap.VRef 13)
  /\ nth_error (Heap.heap (snd r)) 13 = Some (Heap.OList [Heap.VRef 5; Heap.VRef 4])
  /\ nth_error (Heap.heap (snd r)) 5 = Some y
  /\ nth_error (Heap.heap (snd r)) 4 = Some x
  /\ firstn 3 (Heap.heap (snd r)) = h0.
Proof. cbv zeta. repeat split. Qed.

(* ================================================================== *)
(** * The ordering engine: further properties *)
(* ================================================================== *)

Section EngineMore.
Import Sorter Spec Layout.

Lemma move_adj_id (g1 g2 : string) (l : list json) :
  adj g1 g2 l -> move g1 g2 l = l.
Proof.
  intros (Hne & u & x & B & v & -> & Hx & HB & Hall & Hu & Hv & Hv1).
  assert (Hx2 : group_is g2 x = false) by now apply group_is_other with g1.
  assert (Hpre : existsb (group_is g2) (u ++ [x]) = false).
  { rewrite existsb_app, Hu. simpl. now rewrite Hx2. }
  assert (Hl : u ++ x :: B ++ v = (u ++ [x]) ++ B ++ v)
    by now rewrite <- app_assoc.
  assert (Hc : contiguous g2 (u ++ x :: B ++ v) = true).
  { rewrite Hl. now apply decomp_contiguous. }
  assert (He : group_exists g2 (u ++ x :: B ++ v) = true).
  { unfold group_exists. rewrite existsb_app. simpl. rewrite existsb_app.
    destruct B as [|b B']; [now elim HB|]. simpl in Hall |- *.
    apply andb_prop in Hall. destruct Hall as [-> _].
    now rewrite !orb_true_r. }
  destruct (move_contiguous g1 g2 _ Hc He) as [-> _].
  assert (Hm : members g2 (u ++ x :: B ++ v) = B).
  { unfold members. rewrite filter_app. simpl. rewrite Hx2, filter_app.
    rewrite (filter_free _ u Hu), (filter_all _ B Hall), (filter_free _ v Hv).
    now rewrite app_nil_r. }
  assert (Ho : filter (fun r => negb (group_is g2 r)) (u ++ x :: B ++ v)
               = u ++ x :: v).
  { rewrite filter_app. simpl. rewrite Hx2. simpl. rewrite filter_app.
    rewrite (filter_neg_free _ u Hu), (filter_neg_all _ B Hall),
      (filter_neg_free _ v Hv). reflexivity. }
  rewrite Hm, Ho. now apply splice_at.
Qed.

Lemma moves_adj_id (pairs : list (string * string)) (l : list json) :
  (forall a b, In (a, b) pairs -> adj a b l) -> moves pairs l = l.
Proof.
  induction pairs as [|[a b] rest IH]; intros H; [reflexivity|].
  unfold moves. simpl. rewrite (move_adj_id a b l) by (apply H; now left).
  apply IH. intros a' b' Hin. apply H. now right.
Qed.

Lemma move_perm_dropped (g1 g2 : string) (l : list json) :
  exists d, Permutation l (move g1 g2 l ++ d)
            /\ (move_missing g1 g2 l = None -> d = []).
Proof.
  unfold move, move_missing.
  destruct (first_idx (group_is g2) l) as [f|] eqn:Hf;
    [|exists []; rewrite app_nil_r; split; [apply Permutation_refl|easy]].
  destruct (last_idx (group_is g2) l) as [k|] eqn:Hk;
    [|exists []; rewrite app_nil_r; split; [apply Permutation_refl|easy]].
  destruct (hull g2 l f k Hf Hk) as (Hl & _).
  set (B := skipn f (firstn (k + 1) l)) in *.
  set (rest := firstn f l ++ skipn (k + 1) l) in *.
  assert (HP : Permutation l (rest ++ B)).
  { rewrite Hl at 1. unfold rest. rewrite <- app_assoc.
    apply Permutation_app_head, Permutation_app_comm. }
  cbv zeta.
  destruct (last_idx (group_is g1) rest) as [l1|] eqn:H1.
  - exists []. rewrite app_nil_r. split; [|easy].
    eapply Permutation_trans; [exact HP|].
    rewrite <- (firstn_skipn (l1 + 1) rest) at 1.
    rewrite <- app_assoc. apply Permutation_app_head, Permutation_app_comm.
  - exists B. split; [exact HP|discriminate].
Qed.

Lemma moves_perm_dropped (pairs : list (string * string)) :
  forall l : list json,
    exists d, Permutation l (moves pairs l ++ d)
              /\ (warnings pairs l = [] -> d = []).
Proof.
  induction pairs as [|[a b] rest IH]; intros l.
  - exists []. simpl. rewrite app_nil_r. split; [apply Permutation_refl|easy].
  - destruct (move_perm_dropped a b l) as (d1 & P1 & E1).
    destruct (IH (move a b l)) as (d2 & P2 & E2).
    exists (d2 ++ d1). split.
    + eapply Permutation_trans; [exact P1|].
      change (moves ((a, b) :: rest) l) with (moves rest (move a b l)).
      rewrite app_assoc. now apply Permutation_app_tail.
    + simpl. intros H. apply app_eq_nil in H. destruct H as [Ha Hb].
      rewrite (E2 Hb). simpl. apply E1.
      destruct (move_missing a b l); [discriminate|reflexivity].
Qed.

Lemma warnings_are_warnings (pairs : list (string * string)) :
  forall (l : list json) (r : log_record),
    In r (warnings pairs l) -> is_warning r = true.
Proof.
  induction pairs as [|[a b] rest IH]; intros l r Hin; [destruct Hin|].
  simpl in Hin. apply in_app_or in Hin. destruct Hin as [Hin|Hin].
  - destruct (move_missing a b l); [|destruct Hin].
    destruct Hin as [<-|[]]. reflexivity.
  - now apply IH with (move a b l).
Qed.

Lemma filter_filter_sub {A} (p q : A -> bool) (l : list A) :
  (forall x, q x = true -> p x = true) ->
  filter q (filter p l) = filter q l.
Proof.
  intros H. induction l as [|x t IH]; [reflexivity|]. simpl.
  destruct (p x) eqn:Hp; simpl.
  - now rewrite IH.
  - destruct (q x) eqn:Hq; [|exact IH].
    apply H in Hq. congruence.
Qed.

Lemma filter_none {A} (q : A -> bool) (l : list A) :
  (forall x, In x l -> q x = false) -> filter q l = [].
Proof.
  induction l as [|x t IH]; intros H; [reflexivity|]. simpl.
  rewrite (H x) by now left. apply IH. intros y Hy. apply H. now right.
Qed.

Lemma named_in_member (names : list string) (g : string) (r : json) :
  In g names -> group_is g r = true -> named_in names r = true.
Proof.
  intros Hin Hg. unfold named_in. apply existsb_exists. now exists g.
Qed.

Lemma unnamed_move (names : list string) (g1 g2 : string) (l : list json) :
  In g2 names -> contiguous g2 l = true ->
  unnamed names (move g1 g2 l) = unnamed names l.
Proof.
  intros Hin Hc. destruct (group_exists g2 l) eqn:He.
  - destruct (move_contiguous g1 g2 l Hc He) as [-> _].
    assert (Hb : unnamed names (members g2 l) = []).
    { apply filter_none. intros x Hx. unfold members in Hx.
      apply filter_In in Hx. destruct Hx as [_ Hx].
      now rewrite (named_in_member names g2 x Hin Hx). }
    assert (Ho : unnamed names (filter (fun r => negb (group_is g2 r)) l)
                 = unnamed names l).
    { apply filter_filter_sub. intros x Hx.
      destruct (group_is g2 x) eqn:Hg; [|reflexivity].
      now rewrite (named_in_member names g2 x Hin Hg) in Hx. }
    rewrite <- Ho.
    destruct (splice_cases (group_is g1) (members g2 l)
                (filter (fun r => negb (group_is g2 r)) l))
      as [[_ ->]|(a & y & b & E & _ & _ & ->)]; [reflexivity|].
    rewrite E. unfold unnamed in *.
    rewrite !filter_app. simpl. rewrite filter_app, Hb. reflexivity.
  - now destruct (move_absent g1 g2 l He) as [-> _].
Qed.

Lemma unnamed_moves (names : list string) (pairs : list (string * string)) :
  forall l : list json,
    (forall a b, In (a, b) pairs -> In b names) ->
    (forall h, In h names -> contiguous h l = true) ->
    unnamed names (moves pairs l) = unnamed names l.
Proof.
  induction pairs as [|[a b] rest IH]; intros l Hp Hc; [reflexivity|].
  change (moves ((a, b) :: rest) l) with (moves rest (move a b l)).
  assert (Hb : In b names) by (apply (Hp a b); now left).
  rewrite IH.
  - now apply unnamed_move; [|apply Hc].
  - intros a' b' H. apply (Hp a' b'). now right.
  - intros h Hh. apply contiguous_move; now apply Hc.
Qed.

Lemma lacks_group_keyerror (r : json) :
  lacks_group r = true -> getitem r "group" = Raise (KeyError "group").
Proof.
  destruct r as [| | | |items|fields]; try discriminate. simpl.
  now destruct (dict_get "group" fields).
Qed.

End EngineMore.

(** X1.  With fewer than two names in the specification the engine has no
    pair to process: it returns the sequence as it is, whatever its
    elements are, and logs only the list of the names. *)
Theorem X1_short_specification_is_noop (cfg : list json) (od : list string)
  (lg : list log_record) :
  length od < 2 ->
  Sorter.get_sorted_custom_config (Sorter.init cfg od lg)
  = (Ret cfg,
     Sorter.State cfg od
       (lg ++ [LogRecord INFO "Sorted custom config groups: %s" [AJoin od]])).
Proof.
  intros H. destruct od as [|g [|g' rest]]; [reflexivity| |simpl in H; lia].
  unfold Sorter.get_sorted_custom_config, Sorter.init, bind, get, ret,
    Sorter.log. simpl.
  unfold set_difference, set_of_list, set_add, set_mem. simpl.
  rewrite String.eqb_refl. reflexivity.
Qed.

Lemma X1_witness :
  Sorter.get_sorted_custom_config
    (Sorter.init [record "x" 1; JNum 7] ["x"] [])
  = (Ret [record "x" 1; JNum 7],
     Sorter.State [record "x" 1; JNum 7] ["x"]
       [LogRecord INFO "Sorted custom config groups: %s" [AJoin ["x"]]]).
Proof.
  apply (X1_short_specification_is_noop [record "x" 1; JNum 7] ["x"] []).
  simpl. lia.
Defined.

(** X2.  On a Record Sequence the engine always returns, and it neither adds
    nor changes a record: its output together with the records it dropped is
    a permutation of the input, and when no warning was logged nothing was
    dropped. *)
Theorem X2_records_are_moved_or_dropped (cfg : list json) (od : list string) :
  Spec.records_ok cfg = true ->
  exists out s,
    Sorter.run cfg od = (Ret out, s)
    /\ (exists dropped, Permutation cfg (out ++ dropped))
    /\ (forallb (fun r => negb (Layout.is_warning r)) (Sorter.logged s) = true ->
        Permutation cfg out).
Proof.
  intros Hok. unfold Sorter.run.
  destruct (run_ok cfg od [] Hok) as (names & ->).
  do 2 eexists. split; [reflexivity|].
  destruct (moves_perm_dropped (Sorter.adjacent_pairs od) cfg) as (d & P & E).
  split; [now exists d|]. cbn [Sorter.logged]. intros H.
  rewrite app_nil_l, forallb_app in H. apply andb_prop in H.
  destruct H as [H _].
  assert (Hw : Spec.warnings (Sorter.adjacent_pairs od) cfg = []).
  { destruct (Spec.warnings (Sorter.adjacent_pairs od) cfg) as [|w ws] eqn:W;
      [reflexivity|].
    simpl in H. apply andb_prop in H. destruct H as [H _].
    rewrite (warnings_are_warnings (Sorter.adjacent_pairs od) cfg w) in H;
      [discriminate|]. rewrite W. now left. }
  rewrite (E Hw), app_nil_r in P. exact P.
Qed.

Lemma X2_witness :
  exists out s,
    Sorter.run [record "a" 1; record "b" 1; record "a" 2; record "b" 2]
               ["b"; "a"] = (Ret out, s)
    /\ (exists dropped,
          Permutation [record "a" 1; record "b" 1; record "a" 2; record "b" 2]
                      (out ++ dropped))
    /\ (forallb (fun r => negb (Layout.is_warning r)) (Sorter.logged s) = true ->
        Permutation [record "a" 1; record "b" 1; record "a" 2; record "b" 2]
                    out).
Proof.
  apply (X2_records_are_moved_or_dropped
           [record "a" 1; record "b" 1; record "a" 2; record "b" 2]
           ["b"; "a"]).
  reflexivity.
Defined.

(** X3.  With at least two names in the specification, a sequence whose
    first malformed element is an object without a [group] key makes the
    engine log that object and raise KeyError: the exception is not caught
    by the handler of missing groups, and the sequence of the sorter is as
    it was. *)
Theorem X3_engine_logs_the_malformed_record (pre post : list json) (r : json)
  (g1 g2 : string) (rest : list string) (lg : list log_record) :
  Spec.records_ok pre = true ->
  Layout.lacks_group r = true ->
  Sorter.get_sorted_custom_config
    (Sorter.init (pre ++ r :: post) (g1 :: g2 :: rest) lg)
  = (Raise (KeyError "group"),
     Sorter.State (pre ++ r :: post) (g1 :: g2 :: rest)
       (lg ++ [Layout.malformed r])).
Proof.
  intros Hpre Hr. apply lacks_group_keyerror in Hr.
  set (s := Sorter.init (pre ++ r :: post) (g1 :: g2 :: rest) lg).
  assert (Hc : Sorter._collect_group_ordering_data_item g2 s
               = (Raise (KeyError "group"),
                  Spec.add_log [Layout.malformed r] s)).
  { unfold Sorter._collect_group_ordering_data_item. unfold bind at 1.
    unfold get at 1. unfold bind at 1. cbn [s Sorter.init Sorter._custom_config].
    now rewrite (collect_loop_keyerror g2 pre post r Hpre Hr). }
  assert (Hp : Sorter.sort_pair (g1, g2) [] s
               = (Raise (KeyError "group"),
                  Spec.add_log [Layout.malformed r] s)).
  { unfold Sorter.sort_pair, try_except, Sorter._pop_group_2.
    unfold bind at 1. unfold bind at 1. now rewrite Hc. }
  unfold Sorter.get_sorted_custom_config. unfold bind at 1. unfold get at 1.
  cbn [s Sorter.init Sorter._ordering_data].
  rewrite adjacent_pairs_cons. cbn [for_each]. unfold bind at 1 2.
  fold s. now rewrite Hp.
Qed.

Lemma X3_witness :
  Sorter.get_sorted_custom_config
    (Sorter.init ([record "x" 1] ++ JObj [("k", JNum 2)] :: [record "y" 3])
       ("y" :: "x" :: []) [])
  = (Raise (KeyError "group"),
     Sorter.State ([record "x" 1] ++ JObj [("k", JNum 2)] :: [record "y" 3])
       ("y" :: "x" :: [])
       ([] ++ [Layout.malformed (JObj [("k", JNum 2)])])).
Proof.
  apply (X3_engine_logs_the_malformed_record
           [record "x" 1] [record "y" 3] (JObj [("k", JNum 2)]) "y" "x" [] []);
    reflexivity.
Defined.

(** X4.  The engine is idempotent on the stores of C1: when every named
    group is present, the named groups are disjoint and contiguous, sorting
    the output once more with the same specification gives the output
    again. *)
Theorem X4_sorting_twice_is_sorting_once (cfg : list json) (od : list string) :
  Spec.records_ok cfg = true ->
  forallb (fun g => Spec.group_exists g cfg) od = true ->
  Spec.groups_disjoint cfg od = true ->
  forallb (fun g => Spec.contiguous g cfg) od = true ->
  exists out,
    Sorter.sorted cfg od = Ret out /\ Sorter.sorted out od = Ret out.
Proof.
  intros Hok Hex Hdis Hcont.
  exists (Spec.moves (Sorter.adjacent_pairs od) cfg).
  split; [now apply sorted_ok|].
  rewrite sorted_ok by now apply records_ok_moves.
  f_equal. apply moves_adj_id.
  destruct od as [|g rest]; [intros a b []|].
  pose proof (disjoint_nodup cfg _ Hdis Hex) as Hnd.
  rewrite forallb_forall in Hex, Hcont.
  destruct (chain rest [] g cfg) as (_ & _ & J).
  - exact Hnd.
  - intros h Hh. split; [now apply Hcont|now apply Hex].
  - intros a b [].
  - exact J.
Qed.

Lemma X4_witness :
  exists out,
    Sorter.sorted
      [record "c" 1; record "b" 1; record "b" 2; record "q" 0; record "a" 1]
      ["a"; "b"; "c"] = Ret out
    /\ Sorter.sorted out ["a"; "b"; "c"] = Ret out.
Proof.
  apply (X4_sorting_twice_is_sorting_once
           [record "c" 1; record "b" 1; record "b" 2; record "q" 0; record "a" 1]
           ["a"; "b"; "c"]); reflexivity.
Defined.

(** X5.  A pair whose second group is absent from the sequence is skipped
    without any change: the sequence stays as it is, the group joins the
    missing ones and one warning about it is logged; the first group of the
    pair is not even looked up. *)
Theorem X5_absent_second_group_skips_the_pair (g1 g2 : string)
  (missing : list string) (s : Sorter.state) :
  Spec.records_ok (Sorter._custom_config s) = true ->
  Spec.group_exists g2 (Sorter._custom_config s) = false ->
  Sorter.sort_pair (g1, g2) missing s
  = (Ret (set_add g2 missing),
     Sorter.State (Sorter._custom_config s) (Sorter._ordering_data s)
       (Sorter.logged s ++ [Spec.warning g2])).
Proof.
  intros Hok Hg. rewrite sort_pair_ok by exact Hok.
  destruct (move_absent g1 g2 _ Hg) as [-> ->]. reflexivity.
Qed.

Lemma X5_witness :
  Sorter.sort_pair ("x", "z") [] (Sorter.init [record "x" 1] ["x"; "z"] [])
  = (Ret (set_add "z" []),
     Sorter.State [record "x" 1] ["x"; "z"] ([] ++ [Spec.warning "z"])).
Proof.
  apply (X5_absent_second_group_skips_the_pair "x" "z" []
           (Sorter.init [record "x" 1] ["x"; "z"] [])); reflexivity.
Defined.

(** X6.  The rest of the sequence is left undisturbed: when the groups the
    specification names from its second position on (the only ones the
    engine ever cuts out) are contiguous, the records outside these groups
    come out exactly as they came in, in number and in order. *)
Theorem X6_other_records_stay_in_place (cfg : list json) (od : list string) :
  Spec.records_ok cfg = true ->
  forallb (fun g => Spec.contiguous g cfg) (tl od) = true ->
  exists out,
    Sorter.sorted cfg od = Ret out
    /\ Layout.unnamed (tl od) out = Layout.unnamed (tl od) cfg.
Proof.
  intros Hok Hc. exists (Spec.moves (Sorter.adjacent_pairs od) cfg).
  split; [now apply sorted_ok|].
  rewrite forallb_forall in Hc.
  apply unnamed_moves; [|exact Hc].
  intros a b Hin. now apply in_adjacent_pairs in Hin.
Qed.

Lemma X6_witness :
  exists out,
    Sorter.sorted
      [record "q" 0; record "b" 1; record "a" 1; record "p" 0; record "c" 1]
      ["a"; "b"; "z"] = Ret out
    /\ Layout.unnamed (tl ["a"; "b"; "z"]) out
       = Layout.unnamed (tl ["a"; "b"; "z"])
           [record "q" 0; record "b" 1; record "a" 1; record "p" 0; record "c" 1].
Proof.
  apply (X6_other_records_stay_in_place
           [record "q" 0; record "b" 1; record "a" 1; record "p" 0; record "c" 1]
           ["a"; "b"; "z"]); reflexivity.
Defined.

(* ================================================================== *)
(** * The compiler: loading, skipping and what a run never touches *)
(* ================================================================== *)

Section LoadingMore.
Import Disk Compiler Rewriter Wf Layout.
Local Open Scope py_scope.

Lemma insert_by_name_perm (e : string * node) (l : list (string * node)) :
  Permutation (insert_by_name e l) (e :: l).
Proof.
  induction l as [|x t IH]; [apply Permutation_refl|]. simpl.
  destruct (String.leb (fst e) (fst x)); [apply Permutation_refl|].
  eapply Permutation_trans; [apply perm_skip, IH|apply perm_swap].
Qed.

Lemma insert_by_name_sorted (e : string * node) (l : list (string * node)) :
  Sorted by_name l -> Sorted by_name (insert_by_name e l).
Proof.
  induction l as [|x t IH]; intros Hs.
  - simpl. constructor; constructor.
  - simpl. destruct (String.leb (fst e) (fst x)) eqn:E.
    + constructor; [exact Hs|]. constructor. exact E.
    + inversion Hs as [|? ? Ht Hhd]; subst.
      constructor; [now apply IH|].
      assert (Hxe : by_name x e).
      { unfold by_name. destruct (String.leb_total (fst x) (fst e)) as [H|H];
          [exact H|congruence]. }
      destruct t as [|y t']; simpl.
      * constructor. exact Hxe.
      * destruct (String.leb (fst e) (fst y)); constructor;
          [exact Hxe|]. now inversion Hhd.
Qed.

Lemma sorted_glob_perm (entries : list (string * node)) :
  Permutation (sorted_glob_json (Some (Dir entries))) (json_entries entries).
Proof.
  unfold sorted_glob_json, json_entries.
  induction (filter (fun e => ends_with ".json" (fst e)) entries)
    as [|x t IH]; [apply Permutation_refl|]. simpl.
  eapply Permutation_trans; [apply insert_by_name_perm|].
  now apply perm_skip.
Qed.

Lemma sorted_glob_sorted (entries : list (string * node)) :
  Sorted by_name (sorted_glob_json (Some (Dir entries))).
Proof.
  unfold sorted_glob_json.
  induction (filter (fun e => ends_with ".json" (fst e)) entries)
    as [|x t IH]; [constructor|]. simpl. now apply insert_by_name_sorted.
Qed.

Lemma load_files_fail (files : list (string * node)) :
  forall s : state,
    read_all files = None ->
    exists e cc lg,
      for_each files load_file tt s
      = (Raise e,
         State (_ordering_data s) (_main_config s) cc (disk s) lg (pending s)).
Proof.
  induction files as [|[name n] rest IH]; intros s H; [discriminate|].
  cbn [for_each]. unfold bind at 1.
  destruct s as [od mc cc d lg p].
  unfold load_file, bind, lift, json_load. cbn [fst snd].
  destruct n as [[j|t]|es]; try (do 3 eexists; reflexivity).
  destruct j; try (do 3 eexists; reflexivity).
  cbn. simpl in H.
  destruct (read_all rest) eqn:R; [discriminate|].
  apply (IH (State od mc (cc ++ items) d _ p)). reflexivity.
Qed.

End LoadingMore.

(** X7.  [_load_main_config] returns exactly when config/main.json is a file
    holding a JSON object, which it then holds as the main config.  A path
    that is not a file raises FileNotFoundError and changes nothing; a
    document that is not an object raises TypeError after it was stored in
    the compiler.  In no case is the disk or the fragment sequence changed. *)
Theorem X7_main_config_must_be_an_object (s : Compiler.state) :
  exists o mc lg,
    Compiler._load_main_config s
    = (o, Compiler.State (Compiler._ordering_data s) mc
            (Compiler._custom_config s) (Compiler.disk s) lg
            (Compiler.pending s))
    /\ (o = Ret tt <->
        exists fields,
          Disk.main_json (Compiler.disk s)
          = Some (Disk.File (Disk.Doc (JObj fields))) /\ mc = JObj fields)
    /\ (Disk.is_file (Disk.main_json (Compiler.disk s)) = false ->
        o = Raise (FileNotFoundError Compiler.main_path)
        /\ mc = Compiler._main_config s /\ lg = Compiler.logged s)
    /\ (forall j,
          Disk.main_json (Compiler.disk s) = Some (Disk.File (Disk.Doc j)) ->
          Compiler.is_dict j = false ->
          o = Raise (TypeError
                       "JSON in config/custom_main.json must be an object (dict)")
          /\ mc = j /\ lg = Compiler.logged s).
Proof.
  destruct s as [od mc cc [mj gd oj cj] lg p].
  unfold Compiler._load_main_config, bind, get, lift, raise,
    Compiler.set_main_config, Compiler.log.
  cbn [Compiler.disk Disk.main_json Compiler._ordering_data
       Compiler._main_config Compiler._custom_config Compiler.logged
       Compiler.pending].
  destruct mj as [[[j|t]|es]|]; cbn.
  - destruct j as [|b|n|str|items|fields]; cbn; do 3 eexists;
      (split; [reflexivity|]).
    6:{ split; [split; [intros _; eexists; split; reflexivity|reflexivity]|].
        split; [discriminate|]. intros j' E Hd. injection E as <-.
        discriminate Hd. }
    all: split; [split; [discriminate|intros (f & E & _); discriminate E]|].
    all: split; [discriminate|].
    all: intros j' E Hd; injection E as <-; repeat split.
  - do 3 eexists. split; [reflexivity|].
    split; [split; [discriminate|intros (f & E & _); discriminate E]|].
    split; [discriminate|]. intros j E. discriminate E.
  - do 3 eexists. split; [reflexivity|].
    split; [split; [discriminate|intros (f & E & _); discriminate E]|].
    split; [now repeat split|]. intros j E. discriminate E.
  - do 3 eexists. split; [reflexivity|].
    split; [split; [discriminate|intros (f & E & _); discriminate E]|].
    split; [now repeat split|]. intros j E. discriminate E.
Qed.

(** X8.  [_load_custom_config] on an existing directory reads the entries
    whose name ends in .json, each once, in the order of their names.  When
    every one of them is a file holding a JSON array, the arrays are
    appended to the fragment sequence in that order; otherwise the call
    raises.  The disk is not changed. *)
Theorem X8_fragments_are_loaded_in_name_order (s : Compiler.state)
  (entries : list (string * Disk.node)) :
  Disk.groups_dir (Compiler.disk s) = Some (Disk.Dir entries) ->
  exists files,
    Permutation files (Layout.json_entries entries)
    /\ Sorted Layout.by_name files
    /\ match Wf.read_all files with
       | Some items =>
           exists lg,
             Compiler._load_custom_config s
             = (Ret tt,
                Compiler.State (Compiler._ordering_data s)
                  (Compiler._main_config s)
                  (Compiler._custom_config s ++ items) (Compiler.disk s) lg
                  (Compiler.pending s))
       | None =>
           exists e cc lg,
             Compiler._load_custom_config s
             = (Raise e,
                Compiler.State (Compiler._ordering_data s)
                  (Compiler._main_config s) cc (Compiler.disk s) lg
                  (Compiler.pending s))
       end.
Proof.
  intros Hd. exists (Disk.sorted_glob_json (Some (Disk.Dir entries))).
  split; [apply sorted_glob_perm|]. split; [apply sorted_glob_sorted|].
  destruct (Wf.read_all (Disk.sorted_glob_json (Some (Disk.Dir entries))))
    as [items|] eqn:R.
  - apply load_custom_ok with entries; [exact Hd|].
    unfold Wf.fragments. rewrite Hd. exact R.
  - unfold Compiler._load_custom_config, bind at 1, get. rewrite Hd.
    cbn [Disk.exists_ negb].
    destruct (Disk.sorted_glob_json (Some (Disk.Dir entries))) as [|f fs] eqn:E;
      [discriminate|].
    now apply load_files_fail.
Qed.

Lemma X8_witness :
  exists files,
    Permutation files
      (Layout.json_entries
         [("b.json", Disk.File (Disk.Doc (JArr [record "y" 2])));
          ("notes.txt", Disk.File (Disk.Text "to do"));
          ("a.json", Disk.File (Disk.Doc (JArr [record "x" 1])))])
    /\ Sorted Layout.by_name files
    /\ match Wf.read_all files with
       | Some items =>
           exists lg,
             Compiler._load_custom_config
               (Compiler.init
                  (Disk.FS None
                     (Some (Disk.Dir
                        [("b.json", Disk.File (Disk.Doc (JArr [record "y" 2])));
                         ("notes.txt", Disk.File (Disk.Text "to do"));
                         ("a.json", Disk.File (Disk.Doc (JArr [record "x" 1])))]))
                     None None) [])
             = (Ret tt,
                Compiler.State (JArr []) (JObj []) ([] ++ items)
                  (Disk.FS None
                     (Some (Disk.Dir
                        [("b.json", Disk.File (Disk.Doc (JArr [record "y" 2])));
                         ("notes.txt", Disk.File (Disk.Text "to do"));
                         ("a.json", Disk.File (Disk.Doc (JArr [record "x" 1])))]))
                     None None) lg [])
       | None =>
           exists e cc lg,
             Compiler._load_custom_config
               (Compiler.init
                  (Disk.FS None
                     (Some (Disk.Dir
                        [("b.json", Disk.File (Disk.Doc (JArr [record "y" 2])));
                         ("notes.txt", Disk.File (Disk.Text "to do"));
                         ("a.json", Disk.File (Disk.Doc (JArr [record "x" 1])))]))
                     None None) [])
             = (Raise e,
                Compiler.State (JArr []) (JObj []) cc
                  (Disk.FS None
                     (Some (Disk.Dir
                        [("b.json", Disk.File (Disk.Doc (JArr [record "y" 2])));
                         ("notes.txt", Disk.File (Disk.Text "to do"));
                         ("a.json", Disk.File (Disk.Doc (JArr [record "x" 1])))]))
                     None None) lg [])
       end.
Proof.
  apply (X8_fragments_are_loaded_in_name_order
           (Compiler.init
              (Disk.FS None
                 (Some (Disk.Dir
                    [("b.json", Disk.File (Disk.Doc (JArr [record "y" 2])));
                     ("notes.txt", Disk.File (Disk.Text "to do"));
                     ("a.json", Disk.File (Disk.Doc (JArr [record "x" 1])))]))
                 None None) [])).
  reflexivity.
Defined.

(** X9.  [_sort_custom_config] skips the ordering when there is no manifest
    file, or when the manifest is an empty array: it returns, logs one INFO
    record, and leaves the fragment sequence and the disk as they are. *)
Theorem X9_no_or_empty_manifest_skips_sorting (s : Compiler.state) :
  Disk.is_file (Disk.order_json (Compiler.disk s)) = false
  \/ Disk.order_json (Compiler.disk s)
     = Some (Disk.File (Disk.Doc (JArr []))) ->
  exists od r,
    Compiler._sort_custom_config s
    = (Ret tt,
       Compiler.State od (Compiler._main_config s) (Compiler._custom_config s)
         (Compiler.disk s) (Compiler.logged s ++ [r]) (Compiler.pending s))
    /\ lvl r = INFO
    /\ (od = Compiler._ordering_data s \/ od = JArr []).
Proof.
  destruct s as [od mc cc [mj gd oj cj] lg p].
  unfold Compiler._sort_custom_config, bind, get, lift,
    Compiler.set_ordering_data, Compiler.log.
  cbn [Compiler.disk Disk.order_json Compiler._main_config
       Compiler._custom_config Compiler.logged Compiler.pending
       Compiler._ordering_data].
  intros [H | ->].
  - rewrite H. cbn. do 2 eexists. split; [reflexivity|]. split; [reflexivity|].
    now left.
  - cbn. do 2 eexists. split; [reflexivity|]. split; [reflexivity|].
    now right.
Qed.

Lemma X9_witness :
  exists od r,
    Compiler._sort_custom_config
      (Compiler.State (JArr []) (JObj []) [record "x" 1; record "y" 2]
         (Disk.FS None None (Some (Disk.File (Disk.Doc (JArr [])))) None) [] [])
    = (Ret tt,
       Compiler.State od (JObj []) [record "x" 1; record "y" 2]
         (Disk.FS None None (Some (Disk.File (Disk.Doc (JArr [])))) None)
         ([] ++ [r]) [])
    /\ lvl r = INFO
    /\ (od = JArr [] \/ od = JArr []).
Proof.
  apply (X9_no_or_empty_manifest_skips_sorting
           (Compiler.State (JArr []) (JObj []) [record "x" 1; record "y" 2]
              (Disk.FS None None (Some (Disk.File (Disk.Doc (JArr [])))) None)
              [] [])).
  right. reflexivity.
Defined.

(** X10.  On records whose group is a string without a path separator,
    no run changes config/main.json, whatever the environment does to the
    operations on the store; and a run that raises in the fragment store
    rewriter raises that exception without having touched config.json: the
    output writer is not reached. *)
Theorem X10_main_config_is_never_written (s : Compiler.state) :
  (forall s1,
      Wf.load_and_sort s = (Ret tt, s1) ->
      forallb Wf.valid_record (Compiler._custom_config s1) = true) ->
  Disk.main_json (Compiler.disk (snd (Rewriter.main s)))
  = Disk.main_json (Compiler.disk s)
  /\ forall s1 e s2,
       Wf.load_and_sort s = (Ret tt, s1) ->
       Rewriter._recreate_custom_config_files s1 = (Raise e, s2) ->
       Rewriter.main s = (Raise e, s2)
       /\ Disk.config_json (Compiler.disk s2)
          = Disk.config_json (Compiler.disk s).
Proof.
  intros Hvalid. rewrite main_unfold, run_unfold.
  destruct (load_and_sort_shape s) as (o & od & mc & cc & lg & Hl & _).
  rewrite Hl.
  destruct o as [[]|e];
    [|cbn; split; [reflexivity|intros s1 e' s2 H; discriminate]].
  specialize (Hvalid _ Hl). cbn [Compiler._custom_config] in Hvalid.
  lazymatch goal with
  | |- context [Rewriter._recreate_custom_config_files ?s1] =>
      destruct (recreate_shape s1) as (o2 & gd & oj & lg2 & p2 & Hr)
  end.
  rewrite Hr.
  destruct o2 as [[]|e2].
  - cbn [Compiler._ordering_data Compiler._main_config Compiler._custom_config
         Compiler.disk Disk.main_json Disk.config_json].
    split; [|intros s1 e' s2 H1 H2; injection H1 as <-; rewrite Hr in H2;
             discriminate].
    unfold Rewriter._get_joined_main_and_custom_config, bind, get, ret, raise.
    cbn [Compiler._main_config Compiler._custom_config].
    destruct mc; try reflexivity.
    unfold Rewriter._replace_config_in_root, bind, get, put, raise.
    cbn [Compiler.disk Disk.config_json].
    destruct (Disk.config_json (Compiler.disk s)) as [[c|es]|]; reflexivity.
  - cbn. split; [reflexivity|].
    intros s1 e' s2 H1 H2. injection H1 as <-. rewrite Hr in H2.
    injection H2 as <- <-. split; reflexivity.
Qed.

Lemma X10_witness :
  Disk.main_json
    (Compiler.disk
       (snd (Rewriter.main
               (Compiler.init (sample_disk ["y"; "x"])
                  [Some (Compiler.Fault "ENOSPC" None None)]))))
  = Disk.main_json
      (Compiler.disk
         (Compiler.init (sample_disk ["y"; "x"])
            [Some (Compiler.Fault "ENOSPC" None None)]))
  /\ forall s1 e s2,
       Wf.load_and_sort
         (Compiler.init (sample_disk ["y"; "x"])
            [Some (Compiler.Fault "ENOSPC" None None)]) = (Ret tt, s1) ->
       Rewriter._recreate_custom_config_files s1 = (Raise e, s2) ->
       Rewriter.main
         (Compiler.init (sample_disk ["y"; "x"])
            [Some (Compiler.Fault "ENOSPC" None None)]) = (Raise e, s2)
       /\ Disk.config_json (Compiler.disk s2)
          = Disk.config_json
              (Compiler.disk
                 (Compiler.init (sample_disk ["y"; "x"])
                    [Some (Compiler.Fault "ENOSPC" None None)])).
Proof.
  apply (X10_main_config_is_never_written
           (Compiler.init (sample_disk ["y"; "x"])
              [Some (Compiler.Fault "ENOSPC" None None)])).
  intros s1 H. vm_compute in H. injection H as <-. reflexivity.
Defined.

(** X11.  The three loading phases only read: whatever they do, the disk is
    as it was, and when one of them raises the script raises the same
    exception in the same state, before the fragment store rewriter and the
    output writer are reached. *)
Theorem X11_loading_fails_before_any_write (s : Compiler.state) :
  Compiler.disk (snd (Wf.load_and_sort s)) = Compiler.disk s
  /\ forall e,
       fst (Wf.load_and_sort s) = Raise e ->
       Rewriter.main s = (Raise e, snd (Wf.load_and_sort s)).
Proof.
  rewrite main_unfold, run_unfold.
  destruct (load_and_sort_shape s) as (o & od & mc & cc & lg & -> & _).
  cbn [fst snd Compiler.disk]. split; [reflexivity|].
  intros e ->. reflexivity.
Qed.

(* ================================================================== *)
(** * The fragment store rewriter: what a successful rewrite writes *)
(* ================================================================== *)

Section StoreMore.
Import Disk Compiler Rewriter Wf Layout Spec.
Local Open Scope py_scope.

Lemma for_each_snoc {S A B} (body : A -> B -> M S B) (xs : list A) (x : A) :
  forall acc s,
    for_each (xs ++ [x]) body acc s
    = match for_each xs body acc s with
      | (Ret a, s') => body x a s'
      | (Raise e, s') => (Raise e, s')
      end.
Proof.
  induction xs as [|y t IH]; intros acc s; cbn [app for_each].
  - unfold bind, ret. destruct (body x acc s) as [[a|e] s']; reflexivity.
  - unfold bind. destruct (body y acc s) as [[a|e] s']; [apply IH|reflexivity].
Qed.

(** ** Strings *)

Lemma length_append (a b : string) :
  String.length (String.append a b) = String.length a + String.length b.
Proof. induction a as [|x a IH]; simpl; [reflexivity|now rewrite IH]. Qed.

Lemma append_inv_tail (c : string) :
  forall a b : string, String.append a c = String.append b c -> a = b.
Proof.
  induction a as [|x a IH]; intros [|y b] H; simpl in H.
  - reflexivity.
  - apply (f_equal String.length) in H. simpl in H.
    rewrite length_append in H. lia.
  - apply (f_equal String.length) in H. simpl in H.
    rewrite length_append in H. lia.
  - injection H as -> H. f_equal. now apply IH.
Qed.

Lemma substring_all (b : string) : substring 0 (String.length b) b = b.
Proof. induction b as [|x b IH]; simpl; [reflexivity|now rewrite IH]. Qed.

Lemma substring_skip (a b : string) :
  substring (String.length a) (String.length b) (String.append a b) = b.
Proof. induction a as [|x a IH]; simpl; [apply substring_all|exact IH]. Qed.

Lemma ends_with_json (g : string) :
  ends_with ".json" (String.append g ".json") = true.
Proof.
  unfold ends_with. rewrite length_append.
  change (String.length ".json") with 5.
  replace (String.length g + 5 - 5) with (String.length g) by lia.
  pose proof (substring_skip g ".json") as H.
  change (String.length ".json") with 5 in H.
  rewrite H, String.eqb_refl, andb_true_r.
  apply Nat.leb_le. lia.
Qed.

(** ** Group names *)

Lemma group_name_is (r : json) (g n : string) :
  group_name r = Some g -> group_is n r = String.eqb g n.
Proof.
  unfold group_name, group_is.
  destruct (getitem r "group") as [v|e]; [|discriminate].
  destruct v; try discriminate. intros [= ->]. reflexivity.
Qed.

Lemma group_is_name (r : json) (g : string) :
  group_is g r = true -> group_name r = Some g \/ group_name r = None.
Proof.
  unfold group_name, group_is.
  destruct (getitem r "group") as [v|e]; [|discriminate].
  destruct v; simpl; try discriminate. intros H.
  apply String.eqb_eq in H. subst. now left.
Qed.

Lemma set_mem_In (g : string) (ks : list string) :
  set_mem g ks = true <-> In g ks.
Proof.
  unfold set_mem. rewrite existsb_exists. split.
  - intros (x & Hx & E). apply String.eqb_eq in E. now subst.
  - intros H. exists g. split; [exact H|apply String.eqb_refl].
Qed.

Lemma set_mem_filter_other (g h : string) (ks : list string) :
  g <> h ->
  set_mem g (filter (fun k => negb (String.eqb k h)) ks) = set_mem g ks.
Proof.
  intros Hne. unfold set_mem. induction ks as [|k t IH]; [reflexivity|].
  simpl. destruct (String.eqb k h) eqn:E; simpl.
  - apply String.eqb_eq in E. subst k.
    apply String.eqb_neq in Hne. now rewrite Hne.
  - now rewrite IH.
Qed.

Lemma group_names_snoc (l : list json) (r : json) (g : string) :
  group_name r = Some g ->
  group_names (l ++ [r])
  = if set_mem g (group_names l) then group_names l
    else group_names l ++ [g].
Proof.
  intros Hr. induction l as [|x t IH]; simpl.
  - now rewrite Hr.
  - destruct (group_name x) as [h|]; [|exact IH].
    rewrite IH. unfold set_mem. simpl.
    destruct (String.eqb g h) eqn:E; simpl.
    + apply String.eqb_eq in E. subst h.
      destruct (existsb (String.eqb g) (group_names t)); [reflexivity|].
      rewrite filter_app. simpl. rewrite String.eqb_refl. simpl.
      now rewrite app_nil_r.
    + assert (Hne : g <> h) by now apply String.eqb_neq.
      pose proof (set_mem_filter_other g h (group_names t) Hne) as Hf.
      unfold set_mem in Hf. rewrite Hf.
      destruct (existsb (String.eqb g) (group_names t)); [reflexivity|].
      rewrite filter_app. simpl. rewrite E. reflexivity.
Qed.

Lemma group_names_nodup (l : list json) : NoDup (group_names l).
Proof.
  induction l as [|x t IH]; simpl; [constructor|].
  destruct (group_name x) as [h|]; [|exact IH].
  constructor; [|now apply NoDup_filter].
  intros H. apply filter_In in H. destruct H as [_ H].
  now rewrite String.eqb_refl in H.
Qed.

Lemma group_names_in (l : list json) (g : string) :
  In g (group_names l) <-> exists r, In r l /\ group_name r = Some g.
Proof.
  induction l as [|x t IH]; simpl.
  - split; [intros []|intros (r & [] & _)].
  - destruct (group_name x) as [h|] eqn:Hx.
    + split.
      * intros [<-|H]; [exists x; split; [now left|exact Hx]|].
        apply filter_In in H. destruct H as [H _].
        apply IH in H. destruct H as (r & Hr & E).
        exists r. split; [now right|exact E].
      * intros (r & [<-|Hr] & E).
        -- left. congruence.
        -- destruct (String.eqb g h) eqn:Egh.
           ++ left. apply String.eqb_eq in Egh. now subst.
           ++ right. apply filter_In. split; [|now rewrite Egh].
              apply IH. now exists r.
    + rewrite IH. split.
      * intros (r & Hr & E). exists r. split; [now right|exact E].
      * intros (r & [<-|Hr] & E); [congruence|]. now exists r.
Qed.

Lemma members_snoc (n : string) (l : list json) (r : json) :
  members n (l ++ [r]) = members n l ++ (if group_is n r then [r] else []).
Proof. unfold members. rewrite filter_app. reflexivity. Qed.

Lemma members_unseen (g : string) (l : list json) :
  string_grouped l = true -> set_mem g (group_names l) = false ->
  members g l = [].
Proof.
  intros Hl Hg. apply filter_none. intros x Hx.
  destruct (group_is g x) eqn:E; [|reflexivity].
  unfold string_grouped in Hl. rewrite forallb_forall in Hl.
  specialize (Hl x Hx).
  destruct (group_is_name x g E) as [H|H]; [|now rewrite H in Hl].
  assert (Hin : In g (group_names l)) by (apply group_names_in; now exists x).
  apply set_mem_In in Hin. congruence.
Qed.

(** ** The partition *)

Lemma groups_append_closed (g : string) (r : json) (F : string -> list json)
  (ks : list string) :
  NoDup ks ->
  groups_append (JStr g) r (map (fun n => (JStr n, F n)) ks)
  = if set_mem g ks
    then map (fun n => (JStr n, if String.eqb g n then F n ++ [r] else F n)) ks
    else map (fun n => (JStr n, F n)) ks ++ [(JStr g, [r])].
Proof.
  induction ks as [|k t IH]; intros Hnd; [reflexivity|].
  inversion Hnd as [|? ? Hk Ht]; subst.
  cbn [map groups_append key_eqb]. unfold set_mem. cbn [existsb].
  fold (set_mem g t). rewrite (String.eqb_sym k g).
  destruct (String.eqb g k) eqn:E; cbn [orb].
  - apply String.eqb_eq in E. subst k. f_equal.
    apply map_ext_in. intros n Hn.
    destruct (String.eqb g n) eqn:E'; [|reflexivity].
    apply String.eqb_eq in E'. now subst.
  - rewrite (IH Ht). now destruct (set_mem g t).
Qed.

Lemma partition_closed (cfg : list json) :
  string_grouped cfg = true ->
  forall s : state,
    for_each cfg partition_step [] s
    = (Ret (map (fun g => (JStr g, members g cfg)) (group_names cfg)), s).
Proof.
  induction cfg as [|r l IH] using rev_ind; intros Hcfg s; [reflexivity|].
  unfold string_grouped in Hcfg. rewrite forallb_app in Hcfg.
  apply andb_prop in Hcfg. destruct Hcfg as [Hl Hr]. simpl in Hr.
  destruct (group_name r) as [g|] eqn:Hg; [clear Hr|discriminate].
  rewrite for_each_snoc, (IH Hl s).
  unfold partition_step, bind, lift.
  assert (Hget : getitem r "group" = Ret (JStr g)).
  { unfold group_name in Hg. destruct (getitem r "group") as [v|e];
      [|discriminate]. destruct v; try discriminate. now injection Hg as ->. }
  rewrite Hget. cbn [hashable negb]. unfold ret. f_equal. f_equal.
  rewrite (groups_append_closed g r (fun n => members n l) _
             (group_names_nodup l)).
  rewrite (group_names_snoc l r g Hg).
  destruct (set_mem g (group_names l)) eqn:Hm.
  - apply map_ext. intros n. rewrite members_snoc.
    rewrite (group_name_is r g n Hg).
    destruct (String.eqb g n); [reflexivity|now rewrite app_nil_r].
  - rewrite map_app. cbn [map]. f_equal.
    + apply map_ext_in. intros n Hn. rewrite members_snoc.
      rewrite (group_name_is r g n Hg).
      destruct (String.eqb g n) eqn:E; [|now rewrite app_nil_r].
      apply String.eqb_eq in E. subst n.
      apply set_mem_In in Hn. congruence.
    + rewrite members_snoc, (group_name_is r g g Hg), String.eqb_refl.
      now rewrite (members_unseen g l Hl Hm).
Qed.

(** ** The group files *)

Lemma entries_set_new (name : string) (n : node)
  (entries : list (string * node)) :
  (forall e, In e entries -> fst e <> name) ->
  entries_set name n entries = entries ++ [(name, n)].
Proof.
  induction entries as [|[k v] t IH]; intros H; [reflexivity|]. simpl.
  destruct (String.eqb k name) eqn:E.
  - apply String.eqb_eq in E. exfalso. apply (H (k, v)); [now left|exact E].
  - rewrite IH; [reflexivity|]. intros e He. apply H. now right.
Qed.

Lemma write_closed (F : string -> list json) (ks : list string) :
  NoDup ks ->
  (forall g, In g ks -> contains "/" g = false) ->
  forall s : state,
    for_each (map (fun g => (JStr g, F g)) ks) write_group [] s
    = (Ret (map (fun g => (String.append g ".json",
                           File (Doc (JArr (F g))))) ks), s).
Proof.
  induction ks as [|k t IH] using rev_ind; intros Hnd Hs s; [reflexivity|].
  apply NoDup_remove in Hnd. rewrite app_nil_r in Hnd.
  destruct Hnd as [Ht Hk].
  rewrite map_app. cbn [map]. rewrite for_each_snoc, IH.
  - unfold write_group. cbn [fst snd py_str].
    rewrite contains_app, (Hs k) by (apply in_or_app; right; now left).
    cbn. unfold ret. f_equal. f_equal.
    rewrite map_app. cbn [map]. apply entries_set_new.
    intros e He. apply in_map_iff in He. destruct He as (h & <- & Hh).
    cbn [fst]. intros E. apply append_inv_tail in E. now subst.
  - exact Ht.
  - intros g Hg. apply Hs. apply in_or_app. now left.
Qed.

Lemma valid_string_grouped (l : list json) :
  forallb valid_record l = true -> string_grouped l = true.
Proof.
  unfold string_grouped. rewrite !forallb_forall. intros H x Hx.
  specialize (H x Hx). unfold valid_record in H. unfold group_name.
  destruct (getitem x "group") as [v|e]; [|discriminate].
  now destruct v.
Qed.

Lemma valid_names_no_slash (l : list json) (g : string) :
  forallb valid_record l = true -> In g (group_names l) ->
  contains "/" g = false.
Proof.
  intros H Hg. apply group_names_in in Hg. destruct Hg as (r & Hr & E).
  rewrite forallb_forall in H. specialize (H r Hr).
  unfold valid_record in H. unfold group_name in E.
  destruct (getitem r "group") as [v|e]; [|discriminate].
  destruct v; try discriminate. injection E as ->.
  now apply negb_true_iff in H.
Qed.

Lemma build_scratch_exact (s : state) :
  forallb valid_record (_custom_config s) = true ->
  exists extra,
    build_scratch s
    = (Ret (Doc (JArr (map JStr (group_names (_custom_config s)))),
            map (group_file (_custom_config s))
                (group_names (_custom_config s))),
       State (_ordering_data s) (_main_config s) (_custom_config s)
         (disk s) (logged s ++ extra) (pending s)).
Proof.
  intros Hcc. unfold build_scratch, bind at 1, get. unfold bind at 1.
  rewrite (partition_closed _ (valid_string_grouped _ Hcc) s).
  unfold bind at 1.
  rewrite (write_closed (fun g => members g (_custom_config s)) _
             (group_names_nodup _)
             (fun g => valid_names_no_slash _ g Hcc) s).
  assert (Hfst : map fst (map (fun g => (JStr g, members g (_custom_config s)))
                             (group_names (_custom_config s)))
                 = map JStr (group_names (_custom_config s)))
    by (rewrite map_map; reflexivity).
  rewrite Hfst. clear Hfst.
  assert (Hk : forallb key_ok (map JStr (group_names (_custom_config s)))
               = true).
  { apply forallb_forall. intros k Hk. apply in_map_iff in Hk.
    destruct Hk as (g & <- & Hg). cbn.
    now rewrite (valid_names_no_slash _ g Hcc Hg). }
  destruct (join_ok _ (forallb_filter_sub key_ok
              (fun k => negb (existsb (eq_str k) (od_names (_ordering_data s))))
              _ Hk)) as [names Hj].
  destruct s as [od mc cc d lg p]. cbn [_ordering_data _custom_config] in *.
  unfold bind, log, ret, lift. rewrite Hj.
  cbn [logged]. unfold group_file.
  destruct (Nat.ltb 0 _); destruct (Nat.ltb 0 _); cbn;
    rewrite <- ?app_assoc;
    first [ eexists; reflexivity
          | exists []; rewrite app_nil_r; reflexivity ].
Qed.

Lemma recreate_exact (s : state) (bm : content) (bg : list (string * node)) :
  forallb valid_record (_custom_config s) = true ->
  order_json (disk s) = Some (File bm) ->
  groups_dir (disk s) = Some (Dir bg) ->
  pending s = [] ->
  exists extra,
    _recreate_custom_config_files s
    = (Ret tt,
       State (_ordering_data s) (_main_config s) (_custom_config s)
         (FS (main_json (disk s))
             (Some (Dir (map (group_file (_custom_config s))
                             (group_names (_custom_config s)))))
             (Some (File (Doc (JArr (map JStr
                                       (group_names (_custom_config s)))))))
             (config_json (disk s))) (logged s ++ extra) []).
Proof.
  intros Hcc Hoj Hgd Hp.
  unfold _recreate_custom_config_files, bind at 1.
  destruct (build_scratch_exact s Hcc) as (lg1 & ->).
  unfold bind at 1, backup_store, bind, get, lift, read_file, read_tree, ret.
  cbn [disk]. rewrite Hoj, Hgd.
  unfold commit, try_except. cbn [fst snd].
  rewrite replace_no_faults.
  - unfold log. cbn. rewrite <- app_assoc. eexists. reflexivity.
  - exact Hp.
  - cbn [disk]. now rewrite Hoj.
  - cbn [disk]. now rewrite Hgd.
Qed.

End StoreMore.

Section RoundTrip.
Import Disk Compiler Rewriter Wf Layout Spec.

Lemma string_grouped_exists (cfg : list json) (g : string) :
  string_grouped cfg = true ->
  (In g (group_names cfg) <-> group_exists g cfg = true).
Proof.
  intros Hs. rewrite group_names_in. unfold group_exists.
  rewrite existsb_exists. unfold string_grouped in Hs.
  rewrite forallb_forall in Hs. split.
  - intros (r & Hr & E). exists r. split; [exact Hr|].
    now rewrite (group_name_is r g g E), String.eqb_refl.
  - intros (r & Hr & E). exists r. split; [exact Hr|].
    specialize (Hs r Hr).
    destruct (group_is_name r g E) as [H|H]; [exact H|now rewrite H in Hs].
Qed.

(** Every record belongs to one of the groups named. *)
Lemma names_cover (cfg : list json) :
  string_grouped cfg = true ->
  forall r, In r cfg ->
    exists g, In g (group_names cfg) /\ group_is g r = true.
Proof.
  intros Hs r Hr. unfold string_grouped in Hs. rewrite forallb_forall in Hs.
  specialize (Hs r Hr). destruct (group_name r) as [g|] eqn:E; [|discriminate].
  exists g. split; [apply group_names_in; now exists r|].
  now rewrite (group_name_is r g g E), String.eqb_refl.
Qed.

Lemma cover_perm (ks : list string) :
  forall l : list json,
    NoDup ks ->
    (forall r, In r l -> exists g, In g ks /\ group_is g r = true) ->
    Permutation l (concat (map (fun g => members g l) ks)).
Proof.
  induction ks as [|k t IH]; intros l Hnd Hc.
  - destruct l as [|r l]; [apply Permutation_refl|].
    destruct (Hc r (or_introl eq_refl)) as (g & [] & _).
  - inversion Hnd as [|? ? Hk Ht]; subst. cbn [map concat].
    eapply Permutation_trans; [apply (filter_partition_perm (group_is k))|].
    apply Permutation_app_head.
    replace (map (fun g => members g l) t)
      with (map (fun g => members g (filter (fun r => negb (group_is k r)) l)) t).
    + apply IH; [exact Ht|]. intros r Hr. apply filter_In in Hr.
      destruct Hr as [Hr Hnk]. destruct (Hc r Hr) as (g & [<-|Hg] & E).
      * now rewrite E in Hnk.
      * now exists g.
    + apply map_ext_in. intros g Hg. apply members_others.
      intros ->. now apply Hk.
Qed.

Lemma members_members (g h : string) (l : list json) :
  members g (members h l) = if String.eqb g h then members h l else [].
Proof.
  destruct (String.eqb g h) eqn:E.
  - apply String.eqb_eq in E. subst h. unfold members.
    apply filter_all, forallb_filter.
  - apply String.eqb_neq in E. apply filter_none. intros x Hx.
    unfold members in Hx. apply filter_In in Hx. destruct Hx as [_ Hx].
    apply group_is_other with h; [congruence|exact Hx].
Qed.

Lemma members_concat (g : string) (l : list json) (ks : list string) :
  NoDup ks ->
  members g (concat (map (fun h => members h l) ks))
  = if set_mem g ks then members g l else [].
Proof.
  induction ks as [|k t IH]; intros Hnd; [reflexivity|].
  inversion Hnd as [|? ? Hk Ht]; subst. cbn [map concat].
  unfold members at 1. rewrite filter_app. fold (members g (members k l)).
  fold (members g (concat (map (fun h => members h l) t))).
  rewrite (IH Ht), members_members. unfold set_mem. cbn [existsb].
  fold (set_mem g t).
  destruct (String.eqb g k) eqn:E; cbn [orb].
  - apply String.eqb_eq in E. subst k.
    destruct (set_mem g t) eqn:M; [|apply app_nil_r].
    apply set_mem_In in M. contradiction.
  - reflexivity.
Qed.

Lemma read_all_group_files (cfg : list json) (ks : list string) :
  read_all (map (group_file cfg) ks)
  = Some (concat (map (fun g => members g cfg) ks)).
Proof.
  induction ks as [|k t IH]; [reflexivity|].
  cbn [map concat]. unfold group_file at 1. cbn [read_all].
  now rewrite IH.
Qed.

Lemma json_entries_group_files (cfg : list json) (ks : list string) :
  json_entries (map (group_file cfg) ks) = map (group_file cfg) ks.
Proof.
  unfold json_entries. apply filter_all. apply forallb_forall.
  intros e He. apply in_map_iff in He. destruct He as (g & <- & _).
  apply ends_with_json.
Qed.

End RoundTrip.

(** X12.  The partition of [_recreate_custom_config_files] on records whose
    groups are strings: the keys of the dictionary are the group names in
    the order of the first record of each group, every name once and only
    the names of groups that have a record, and each key holds the records
    of its group in sequence order. *)
Theorem X12_partition_in_first_seen_order (cfg : list json)
  (s : Compiler.state) :
  Layout.string_grouped cfg = true ->
  for_each cfg Rewriter.partition_step [] s
  = (Ret (map (fun g => (JStr g, Spec.members g cfg)) (Layout.group_names cfg)),
     s)
  /\ NoDup (Layout.group_names cfg)
  /\ forall g, In g (Layout.group_names cfg) <-> Spec.group_exists g cfg = true.
Proof.
  intros H. split; [now apply partition_closed|].
  split; [apply group_names_nodup|]. intros g. now apply string_grouped_exists.
Qed.

Lemma X12_witness :
  for_each [record "x" 1; record "y" 2; record "x" 3] Rewriter.partition_step []
    (Compiler.init (sample_disk []) [])
  = (Ret (map (fun g => (JStr g,
                         Spec.members g [record "x" 1; record "y" 2; record "x" 3]))
              (Layout.group_names [record "x" 1; record "y" 2; record "x" 3])),
     Compiler.init (sample_disk []) [])
  /\ NoDup (Layout.group_names [record "x" 1; record "y" 2; record "x" 3])
  /\ forall g,
       In g (Layout.group_names [record "x" 1; record "y" 2; record "x" 3])
       <-> Spec.group_exists g [record "x" 1; record "y" 2; record "x" 3] = true.
Proof.
  apply (X12_partition_in_first_seen_order
           [record "x" 1; record "y" 2; record "x" 3]
           (Compiler.init (sample_disk []) [])).
  reflexivity.
Defined.

(** X13.  A rewrite that meets no failure, on records whose groups are
    strings that name a file, with a manifest file and a group directory in
    place: the manifest then lists the group names in first-seen order, the
    group directory holds exactly one file per group, named after it and
    holding the records of the group in sequence order (files of groups that
    are gone are removed), and nothing else on the disk changes. *)
Theorem X13_rewrite_writes_one_file_per_group (s : Compiler.state)
  (bm : Disk.content) (bg : list (string * Disk.node)) :
  forallb Wf.valid_record (Compiler._custom_config s) = true ->
  Disk.order_json (Compiler.disk s) = Some (Disk.File bm) ->
  Disk.groups_dir (Compiler.disk s) = Some (Disk.Dir bg) ->
  Compiler.pending s = [] ->
  exists extra,
    Rewriter._recreate_custom_config_files s
    = (Ret tt,
       Compiler.State (Compiler._ordering_data s) (Compiler._main_config s)
         (Compiler._custom_config s)
         (Disk.FS (Disk.main_json (Compiler.disk s))
            (Some (Disk.Dir
                     (map (Layout.group_file (Compiler._custom_config s))
                          (Layout.group_names (Compiler._custom_config s)))))
            (Some (Disk.File (Disk.Doc
                     (JArr (map JStr
                              (Layout.group_names (Compiler._custom_config s)))))))
            (Disk.config_json (Compiler.disk s)))
         (Compiler.logged s ++ extra) []).
Proof.
  intros Hcc Hoj Hgd Hp. now apply recreate_exact with bm bg.
Qed.

Lemma X13_witness :
  exists extra,
    Rewriter._recreate_custom_config_files
      (Compiler.State (JArr []) (JObj [])
         [record "x" 1; record "y" 2; record "x" 3] (sample_disk ["q"]) [] [])
    = (Ret tt,
       Compiler.State (JArr []) (JObj [])
         [record "x" 1; record "y" 2; record "x" 3]
         (Disk.FS (Disk.main_json (sample_disk ["q"]))
            (Some (Disk.Dir
                     (map (Layout.group_file
                             [record "x" 1; record "y" 2; record "x" 3])
                          (Layout.group_names
                             [record "x" 1; record "y" 2; record "x" 3]))))
            (Some (Disk.File (Disk.Doc
                     (JArr (map JStr
                              (Layout.group_names
                                 [record "x" 1; record "y" 2; record "x" 3]))))))
            (Disk.config_json (sample_disk ["q"])))
         ([] ++ extra) []).
Proof.
  apply (X13_rewrite_writes_one_file_per_group
           (Compiler.State (JArr []) (JObj [])
              [record "x" 1; record "y" 2; record "x" 3] (sample_disk ["q"])
              [] [])
           (Disk.Doc (JArr (map JStr ["q"])))
           [("frag.json", Disk.File (Disk.Doc (JArr sample_fragment)))]);
    reflexivity.
Defined.

(** X14.  Round trip through the store: after such a rewrite, loading the
    fragments again from the rewritten directory returns, and the sequence
    loaded is a permutation of the sequence that was written in which the
    records of every group are in the same order. *)
Theorem X14_rewritten_store_loads_back (s : Compiler.state)
  (bm : Disk.content) (bg : list (string * Disk.node)) :
  forallb Wf.valid_record (Compiler._custom_config s) = true ->
  Disk.order_json (Compiler.disk s) = Some (Disk.File bm) ->
  Disk.groups_dir (Compiler.disk s) = Some (Disk.Dir bg) ->
  Compiler.pending s = [] ->
  exists s1 s2,
    Rewriter._recreate_custom_config_files s = (Ret tt, s1)
    /\ Compiler._load_custom_config (Compiler.init (Compiler.disk s1) [])
       = (Ret tt, s2)
    /\ Permutation (Compiler._custom_config s) (Compiler._custom_config s2)
    /\ forall g,
         Spec.members g (Compiler._custom_config s2)
         = Spec.members g (Compiler._custom_config s).
Proof.
  intros Hcc Hoj Hgd Hp.
  destruct (recreate_exact s bm bg Hcc Hoj Hgd Hp) as (extra & Hrun).
  set (cc := Compiler._custom_config s) in *.
  set (entries := map (Layout.group_file cc) (Layout.group_names cc)) in *.
  pose proof (sorted_glob_perm entries) as HP.
  unfold entries in HP at 2. rewrite json_entries_group_files in HP.
  destruct (Permutation_map_inv _ _ HP) as (ks & Eks & Pks).
  assert (Hnd : NoDup ks).
  { apply Permutation_NoDup with (Layout.group_names cc);
      [exact Pks|apply group_names_nodup]. }
  assert (Hs : Layout.string_grouped cc = true)
    by now apply valid_string_grouped.
  assert (Hcov : forall r, In r cc ->
                   exists g, In g ks /\ Spec.group_is g r = true).
  { intros r Hr. destruct (names_cover cc Hs r Hr) as (g & Hg & E).
    exists g. split; [|exact E]. now apply Permutation_in with (Layout.group_names cc). }
  destruct (load_custom_ok
              (Compiler.init
                 (Disk.FS (Disk.main_json (Compiler.disk s))
                    (Some (Disk.Dir entries))
                    (Some (Disk.File (Disk.Doc
                             (JArr (map JStr (Layout.group_names cc))))))
                    (Disk.config_json (Compiler.disk s))) [])
              entries (concat (map (fun g => Spec.members g cc) ks)))
    as (lg & Hload).
  { reflexivity. }
  { unfold Wf.fragments. cbn [Compiler.init Compiler.disk Disk.groups_dir].
    rewrite Eks. apply read_all_group_files. }
  eexists. eexists. split; [exact Hrun|].
  cbn [Compiler.disk]. split; [exact Hload|].
  cbn [Compiler._custom_config Compiler.init app].
  split; [now apply cover_perm|].
  intros g. rewrite (members_concat g cc ks Hnd).
  destruct (set_mem g ks) eqn:M; [reflexivity|].
  symmetry. apply filter_none. intros x Hx.
  destruct (Spec.group_is g x) eqn:E; [|reflexivity].
  destruct (Hcov x Hx) as (h & Hh & E').
  assert (g = h) by now apply group_is_unique with x. subst h.
  apply set_mem_In in Hh. congruence.
Qed.

Lemma X14_witness :
  exists s1 s2,
    Rewriter._recreate_custom_config_files
      (Compiler.State (JArr []) (JObj [])
         [record "x" 1; record "b" 2; record "x" 3] (sample_disk ["q"]) [] [])
    = (Ret tt, s1)
    /\ Compiler._load_custom_config (Compiler.init (Compiler.disk s1) [])
       = (Ret tt, s2)
    /\ Permutation [record "x" 1; record "b" 2; record "x" 3]
                   (Compiler._custom_config s2)
    /\ forall g,
         Spec.members g (Compiler._custom_config s2)
         = Spec.members g [record "x" 1; record "b" 2; record "x" 3].
Proof.
  apply (X14_rewritten_store_loads_back
           (Compiler.State (JArr []) (JObj [])
              [record "x" 1; record "b" 2; record "x" 3] (sample_disk ["q"])
              [] [])
           (Disk.Doc (JArr (map JStr ["q"])))
           [("frag.json", Disk.File (Disk.Doc (JArr sample_fragment)))]);
    reflexivity.
Defined.

Section Reports.
Import Disk Compiler Rewriter Wf Layout Spec.
Local Open Scope py_scope.

Lemma set_add_in (x g : string) (s : list string) :
  In g (set_add x s) <-> In g s \/ g = x.
Proof.
  unfold set_add. destruct (set_mem x s) eqn:M.
  - apply set_mem_In in M. split; [now left|]. intros [H| ->]; assumption.
  - rewrite in_app_iff. simpl. split.
    + intros [H|[<-|[]]]; [now left|now right].
    + intros [H| ->]; [now left|right; now left].
Qed.

Lemma set_of_list_in (names : list string) (g : string) :
  In g (set_of_list names) <-> In g names.
Proof.
  unfold set_of_list.
  assert (H : forall acc,
             In g (fold_left (fun s x => set_add x s) names acc)
             <-> In g acc \/ In g names).
  { induction names as [|n t IH]; intros acc; simpl; [tauto|].
    rewrite IH, set_add_in. intuition (subst; auto). }
  rewrite H. simpl. tauto.
Qed.

Lemma existsb_eq_str_names (g : string) (ks : list string) :
  existsb (fun k => eq_str k g) (map JStr ks) = set_mem g ks.
Proof.
  unfold set_mem. induction ks as [|k t IH]; [reflexivity|]. simpl.
  now rewrite IH, (String.eqb_sym k g).
Qed.

Lemma filter_JStr (q : json -> bool) (ks : list string) :
  filter q (map JStr ks) = map JStr (filter (fun g => q (JStr g)) ks).
Proof.
  induction ks as [|k t IH]; [reflexivity|]. simpl.
  destruct (q (JStr k)); simpl; now rewrite IH.
Qed.

Lemma existsb_eq_str_in (g : string) (names : list string) :
  existsb (eq_str (JStr g)) names = set_mem g names.
Proof. reflexivity. Qed.

Lemma build_scratch_reports (s : state) (names : list string) :
  forallb valid_record (_custom_config s) = true ->
  as_names (_ordering_data s) = Some names ->
  exists removed new,
    build_scratch s
    = (Ret (Doc (JArr (map JStr (group_names (_custom_config s)))),
            map (group_file (_custom_config s))
                (group_names (_custom_config s))),
       State (_ordering_data s) (_main_config s) (_custom_config s)
         (disk s)
         (logged s ++ report "Removed groups: %s" removed
                   ++ report "New groups: %s" new)
         (pending s))
    /\ (forall g, In g removed <->
                  In g names /\ ~ In g (group_names (_custom_config s)))
    /\ (forall g, In g new <->
                  In g (group_names (_custom_config s)) /\ ~ In g names).
Proof.
  intros Hcc Has.
  exists (filter (fun n => negb (existsb (fun k => eq_str k n)
                                   (map JStr (group_names (_custom_config s)))))
                 (set_of_list names)).
  exists (filter (fun g => negb (existsb (eq_str (JStr g)) names))
                 (group_names (_custom_config s))).
  split.
  - unfold build_scratch, bind at 1, get. unfold bind at 1.
    rewrite (partition_closed _ (valid_string_grouped _ Hcc) s).
    unfold bind at 1.
    rewrite (write_closed (fun g => members g (_custom_config s)) _
               (group_names_nodup _)
               (fun g => valid_names_no_slash _ g Hcc) s).
    assert (Hfst : map fst (map (fun g => (JStr g, members g (_custom_config s)))
                               (group_names (_custom_config s)))
                   = map JStr (group_names (_custom_config s)))
      by (rewrite map_map; reflexivity).
    rewrite Hfst. clear Hfst.
    unfold od_names. rewrite Has. rewrite filter_JStr.
    unfold join_names. rewrite names_of_map, length_map.
    destruct s as [od mc cc d lg p]. cbn [_ordering_data _custom_config] in *.
    unfold bind, log, ret, lift, report. cbn [logged]. unfold group_file.
    destruct (Nat.ltb 0 _); destruct (Nat.ltb 0 _); cbn;
      rewrite <- ?app_assoc, ?app_nil_r; reflexivity.
  - split; intros g; rewrite filter_In.
    + rewrite set_of_list_in, existsb_eq_str_names, negb_true_iff.
      rewrite <- (set_mem_In g (group_names _)).
      destruct (set_mem g (group_names (_custom_config s)));
        intuition congruence.
    + rewrite existsb_eq_str_in, negb_true_iff.
      rewrite <- (set_mem_In g names).
      destruct (set_mem g names); intuition congruence.
Qed.

End Reports.

(** X17.  The two reports of the rewriter, on records whose groups are
    strings that name a file and with a list of names as ordering data: the
    names reported as removed are exactly the names of the ordering data
    that no record of the sequence carries, the names reported as new are
    exactly the groups of the sequence that the ordering data does not
    name, and a report is logged only when it has a name to list. *)
Theorem X17_removed_and_new_groups_are_reported (s : Compiler.state)
  (names : list string) :
  forallb Wf.valid_record (Compiler._custom_config s) = true ->
  Compiler.as_names (Compiler._ordering_data s) = Some names ->
  exists removed new scratch,
    Rewriter.build_scratch s
    = (Ret scratch,
       Compiler.State (Compiler._ordering_data s) (Compiler._main_config s)
         (Compiler._custom_config s) (Compiler.disk s)
         (Compiler.logged s ++ Layout.report "Removed groups: %s" removed
                            ++ Layout.report "New groups: %s" new)
         (Compiler.pending s))
    /\ (forall g, In g removed <->
                  In g names
                  /\ Spec.group_exists g (Compiler._custom_config s) = false)
    /\ (forall g, In g new <->
                  Spec.group_exists g (Compiler._custom_config s) = true
                  /\ ~ In g names).
Proof.
  intros Hcc Has.
  destruct (build_scratch_reports s names Hcc Has)
    as (removed & new & Hrun & Hr & Hn).
  exists removed, new. eexists. split; [exact Hrun|].
  pose proof (string_grouped_exists (Compiler._custom_config s)) as Hex.
  specialize (fun g => Hex g (valid_string_grouped _ Hcc)).
  split; intros g.
  - rewrite Hr, Hex.
    destruct (Spec.group_exists g (Compiler._custom_config s));
      intuition congruence.
  - now rewrite Hn, Hex.
Qed.

Lemma X17_witness :
  exists removed new scratch,
    Rewriter.build_scratch
      (Compiler.State (JArr [JStr "x"; JStr "z"]) (JObj [])
         [record "x" 1; record "y" 2] (sample_disk ["x"; "z"]) [] [])
    = (Ret scratch,
       Compiler.State (JArr [JStr "x"; JStr "z"]) (JObj [])
         [record "x" 1; record "y" 2] (sample_disk ["x"; "z"])
         ([] ++ Layout.report "Removed groups: %s" removed
             ++ Layout.report "New groups: %s" new)
         [])
    /\ (forall g, In g removed <->
                  In g ["x"; "z"]
                  /\ Spec.group_exists g [record "x" 1; record "y" 2] = false)
    /\ (forall g, In g new <->
                  Spec.group_exists g [record "x" 1; record "y" 2] = true
                  /\ ~ In g ["x"; "z"]).
Proof.
  apply (X17_removed_and_new_groups_are_reported
           (Compiler.State (JArr [JStr "x"; JStr "z"]) (JObj [])
              [record "x" 1; record "y" 2] (sample_disk ["x"; "z"]) [] [])
           ["x"; "z"]); reflexivity.
Defined.

(* ================================================================== *)
(** * The merged document and the theme root *)
(* ================================================================== *)

Section Merged.

Lemma dict_keys_set_exact (k : string) (v : json) (d : list (string * json)) :
  dict_keys (dict_set k v d)
  = match dict_get k d with
    | Some _ => dict_keys d
    | None => dict_keys d ++ [k]
    end.
Proof.
  unfold dict_keys. induction d as [|[k' v'] rest IH]; simpl; [reflexivity|].
  destruct (String.eqb k' k) eqn:E; simpl; [reflexivity|].
  rewrite IH. now destruct (dict_get k rest).
Qed.

End Merged.

Section Root.
Import ThemeRoot.

Lemma search_cons (is_file : path -> bool) (c : path) (rest : list path)
  (lg : list log_record) :
  search is_file (c :: rest) lg
  = if is_file (PUBLII_THEME_ROOT_MARKER :: c)
    then (Ret c, lg ++ [LogRecord INFO "Theme root: %s" [AStr (render c)]])
    else search is_file rest lg.
Proof. cbn [search]. now destruct (is_file _). Qed.

Lemma search_nearest (is_file : path -> bool) (lg : list log_record) :
  forall p : path,
    match search is_file (p :: parents p) lg with
    | (Ret root, lg') =>
        exists below,
          p = below ++ root
          /\ is_file (PUBLII_THEME_ROOT_MARKER :: root) = true
          /\ (forall b1 b2, below = b1 ++ b2 -> b2 <> [] ->
                is_file (PUBLII_THEME_ROOT_MARKER :: b2 ++ root) = false)
          /\ lg' = lg ++ [LogRecord INFO "Theme root: %s" [AStr (render root)]]
    | (Raise e, lg') =>
        (exists msg, e = FileNotFoundError msg)
        /\ lg' = lg
        /\ forall below above, p = below ++ above ->
             is_file (PUBLII_THEME_ROOT_MARKER :: above) = false
    end.
Proof.
  induction p as [|c up IH].
  - cbn [parents]. rewrite search_cons.
    destruct (is_file [PUBLII_THEME_ROOT_MARKER]) eqn:E.
    + cbn. exists []. split; [reflexivity|]. split; [exact E|].
      split; [|reflexivity]. intros b1 b2 H Hb.
      symmetry in H. apply app_eq_nil in H. now destruct H.
    + cbn. split; [eexists; reflexivity|]. split; [reflexivity|].
      intros below above H. symmetry in H. apply app_eq_nil in H.
      destruct H as [_ ->]. exact E.
  - cbn [parents]. rewrite search_cons.
    destruct (is_file (PUBLII_THEME_ROOT_MARKER :: c :: up)) eqn:E.
    + cbn. exists []. split; [reflexivity|]. split; [exact E|].
      split; [|reflexivity]. intros b1 b2 H Hb.
      symmetry in H. apply app_eq_nil in H. now destruct H.
    + unfold path in *. revert IH.
      destruct (search is_file (up :: parents up) lg) as [[root|e] lg'];
        intros IH; cbv beta iota in IH.
      * destruct IH as (below & -> & Hm & Hn & ->).
        exists (c :: below). split; [reflexivity|]. split; [exact Hm|].
        split; [|reflexivity]. intros b1 b2 H Hb.
        destruct b1 as [|x b1'].
        -- simpl in H. subst b2. exact E.
        -- injection H as _ H. now apply (Hn b1' b2).
      * destruct IH as (Hmsg & -> & Hn). split; [exact Hmsg|].
        split; [reflexivity|]. intros below above H.
        destruct below as [|x below'].
        -- simpl in H. subst above. exact E.
        -- injection H as _ H. now apply (Hn below' above).
Qed.

End Root.

(** X15.  [_get_joined_main_and_custom_config] on a main config that is an
    object returns a new object and leaves the compiler, its main config
    included, as it was.  The reserved key customConfig holds the fragment
    sequence; a main config that already has this key keeps its keys as
    they are and has the value overwritten, otherwise the key is added after
    all the others; every other key keeps its value. *)
Theorem X15_reserved_key_is_added_last_or_overwritten (s : Compiler.state)
  (fields : list (string * json)) :
  Compiler._main_config s = JObj fields ->
  exists merged,
    Rewriter._get_joined_main_and_custom_config s = (Ret (JObj merged), s)
    /\ dict_keys merged
       = match dict_get "customConfig" fields with
         | Some _ => dict_keys fields
         | None => dict_keys fields ++ ["customConfig"]
         end
    /\ dict_get "customConfig" merged = Some (JArr (Compiler._custom_config s))
    /\ forall k, k <> "customConfig" -> dict_get k merged = dict_get k fields.
Proof.
  intros Hm.
  exists (dict_set "customConfig" (JArr (Compiler._custom_config s)) fields).
  split.
  - unfold Rewriter._get_joined_main_and_custom_config, bind, get, ret.
    now rewrite Hm.
  - split; [apply dict_keys_set_exact|].
    split; [apply dict_get_set|]. intros k Hk. now apply dict_get_set_other.
Qed.

Lemma X15_witness :
  exists merged,
    Rewriter._get_joined_main_and_custom_config
      (Compiler.State (JArr []) (JObj [("customConfig", JNull); ("a", JNum 1)])
         [record "x" 1] (sample_disk []) [] [])
    = (Ret (JObj merged),
       Compiler.State (JArr []) (JObj [("customConfig", JNull); ("a", JNum 1)])
         [record "x" 1] (sample_disk []) [] [])
    /\ dict_keys merged
       = match dict_get "customConfig" [("customConfig", JNull); ("a", JNum 1)] with
         | Some _ => dict_keys [("customConfig", JNull); ("a", JNum 1)]
         | None => dict_keys [("customConfig", JNull); ("a", JNum 1)]
                   ++ ["customConfig"]
         end
    /\ dict_get "customConfig" merged = Some (JArr [record "x" 1])
    /\ forall k, k <> "customConfig" ->
         dict_get k merged
         = dict_get k [("customConfig", JNull); ("a", JNum 1)].
Proof.
  apply (X15_reserved_key_is_added_last_or_overwritten
           (Compiler.State (JArr [])
              (JObj [("customConfig", JNull); ("a", JNum 1)])
              [record "x" 1] (sample_disk []) [] [])
           [("customConfig", JNull); ("a", JNum 1)]).
  reflexivity.
Defined.

(** X16.  [_get_theme_root] answers the nearest candidate that holds the
    marker file: the script path itself or one of its ancestors, such that
    no candidate nearer to the script holds the marker, and it logs that
    root.  It raises FileNotFoundError, logging nothing, exactly when no
    candidate holds the marker. *)
Theorem X16_theme_root_is_the_nearest_marked_candidate
  (is_file : ThemeRoot.path -> bool) (cwd : ThemeRoot.path)
  (lg : list log_record) :
  match ThemeRoot._get_theme_root is_file cwd lg with
  | (Ret root, lg') =>
      exists below,
        cwd = below ++ root
        /\ is_file (ThemeRoot.PUBLII_THEME_ROOT_MARKER :: root) = true
        /\ (forall b1 b2, below = b1 ++ b2 -> b2 <> [] ->
              is_file (ThemeRoot.PUBLII_THEME_ROOT_MARKER :: b2 ++ root) = false)
        /\ lg' = lg ++ [LogRecord INFO "Theme root: %s"
                          [AStr (ThemeRoot.render root)]]
  | (Raise e, lg') =>
      (exists msg, e = FileNotFoundError msg)
      /\ lg' = lg
      /\ forall below above, cwd = below ++ above ->
           is_file (ThemeRoot.PUBLII_THEME_ROOT_MARKER :: above) = false
  end.
Proof.
  unfold ThemeRoot._get_theme_root. apply search_nearest.
Qed.

(* ================================================================== *)
(** * The deep copy of the sorter denotes what the original denotes *)
(* ================================================================== *)

Section CopyFacts.
Import Heap Denote.

Lemma all_some_app {A} (l1 l2 : list (option A)) (r1 r2 : list A) :
  all_some l1 = Some r1 -> all_some l2 = Some r2 ->
  all_some (l1 ++ l2) = Some (r1 ++ r2).
Proof.
  revert r1. induction l1 as [|[a|] t IH]; intros r1 H1 H2; simpl in *.
  - injection H1 as <-. exact H2.
  - destruct (all_some t) as [r|]; [|discriminate]. simpl in H1.
    injection H1 as <-. now rewrite (IH r eq_refl H2).
  - discriminate.
Qed.

Lemma all_some_in {A B} (f : A -> option B) (l : list A) (r : list B) :
  all_some (map f l) = Some r -> forall a, In a l -> exists b, f a = Some b.
Proof.
  revert r. induction l as [|x t IH]; intros r H a Ha; [destruct Ha|].
  simpl in H. destruct (f x) as [b|] eqn:E; [|discriminate].
  destruct (all_some (map f t)) as [r'|]; [|discriminate].
  destruct Ha as [<-|Ha]; [now exists b|]. now apply (IH r').
Qed.

Lemma all_some_ext {A B} (f g : A -> option B) (l : list A) (r : list B) :
  (forall a b, In a l -> f a = Some b -> g a = Some b) ->
  all_some (map f l) = Some r -> all_some (map g l) = Some r.
Proof.
  revert r. induction l as [|x t IH]; intros r H E; [exact E|].
  simpl in *. destruct (f x) as [b|] eqn:Ef; [|discriminate].
  rewrite (H x b (or_introl eq_refl) Ef).
  destruct (all_some (map f t)) as [r'|]; [|discriminate].
  rewrite (IH r'); [exact E| |reflexivity].
  intros a b' Ha. apply H. now right.
Qed.

Lemma translate_mono (m m' : list (loc * loc)) (v v' : val) :
  (forall l y, assoc l m = Some y -> assoc l m' = Some y) ->
  translate m v = Some v' -> translate m' v = Some v'.
Proof.
  intros Hm. destruct v; simpl; auto.
  destruct (assoc l m) as [y|] eqn:E; [|discriminate].
  now rewrite (Hm l y E).
Qed.

Lemma image_mono (m m' : list (loc * loc)) (o o' : obj) :
  (forall l y, assoc l m = Some y -> assoc l m' = Some y) ->
  image m o = Some o' -> image m' o = Some o'.
Proof.
  intros Hm. destruct o as [items|fields]; simpl; intros H.
  - destruct (all_some (map (translate m) items)) as [r|] eqn:E;
      [|discriminate].
    rewrite (all_some_ext (translate m) (translate m') items r); [exact H| |exact E].
    intros a b _. now apply translate_mono.
  - destruct (all_some (map (fun kv => option_map (pair (fst kv))
                                         (translate m (snd kv))) fields))
      as [r|] eqn:E; [|discriminate].
    rewrite (all_some_ext
               (fun kv => option_map (pair (fst kv)) (translate m (snd kv)))
               (fun kv => option_map (pair (fst kv)) (translate m' (snd kv)))
               fields r);
      [exact H| |exact E].
    intros [k v] b _. simpl.
    destruct (translate m v) as [v'|] eqn:Ev; [|discriminate].
    now rewrite (translate_mono m m' v v' Hm Ev).
Qed.

Lemma complete_mono (h0 : list obj) (m m' : list (loc * loc))
  (h h' : list obj) (l y : loc) :
  (forall l y, assoc l m = Some y -> assoc l m' = Some y) ->
  nth_error h' y = nth_error h y ->
  complete h0 m h l y -> complete h0 m' h' l y.
Proof.
  intros Hm Hy (o & o' & H0 & H1 & Hi). exists o, o'.
  split; [exact H0|]. split; [now rewrite Hy|]. now apply image_mono with m.
Qed.

Lemma grows_refl (h0 : list obj) (m : list (loc * loc)) (h : list obj) :
  grows h0 m h m h.
Proof.
  split; [auto|]. split; [lia|]. split; [auto|].
  intros l y H1 H2. congruence.
Qed.

Lemma nth_error_snoc {A} (l : list A) (a : A) :
  nth_error (l ++ [a]) (length l) = Some a.
Proof. rewrite nth_error_app2 by lia. now rewrite Nat.sub_diag. Qed.

Lemma nth_error_old {A} (l : list A) (a : A) (k : nat) :
  k < length l -> nth_error (l ++ [a]) k = nth_error l k.
Proof. intros H. now rewrite nth_error_app1. Qed.

End CopyFacts.

Section Copy.
Import Heap Denote.

Variable h0 : list obj.

Lemma bounded_alloc (memo : list (loc * loc)) (h : list obj) (l : loc)
  (o : obj) :
  bounded memo h -> bounded ((l, length h) :: memo) (h ++ [o]).
Proof.
  intros Hb l0 y0 H. rewrite length_app. simpl in *.
  destruct (Nat.eqb l l0); [injection H as <-; lia|].
  specialize (Hb l0 y0 H). lia.
Qed.

Lemma assoc_cons_other (memo : list (loc * loc)) (l y l0 : loc) :
  l0 <> l -> assoc l0 ((l, y) :: memo) = assoc l0 memo.
Proof.
  intros H. simpl. destruct (Nat.eqb l l0) eqn:E; [|reflexivity].
  apply Nat.eqb_eq in E. congruence.
Qed.

Lemma assoc_cons_same (memo : list (loc * loc)) (l y : loc) :
  assoc l ((l, y) :: memo) = Some y.
Proof. simpl. now rewrite Nat.eqb_refl. Qed.

(** A deep copy of a value that has a reading returns when the recursion
    depth allows for the reading, and it only adds finished copies. *)
Lemma deepcopy_copies (depth : nat) :
  forall (k : nat) (x : val) (j : json) (memo : list (loc * loc))
         (h : list obj),
    k <= depth -> read k h0 x = Some j ->
    extends h0 h -> memo_fresh (length h0) memo -> bounded memo h ->
    exists v memo' h',
      deepcopy depth x memo h = (Ret v, (memo', h'))
      /\ translate memo' x = Some v
      /\ grows h0 memo h memo' h'
      /\ bounded memo' h'.
Proof.
  induction depth as [|depth IH]; intros k x j memo h Hk Hr Hh Hm Hb.
  { assert (k = 0) by lia. subst. discriminate. }
  destruct k as [|k]; [discriminate|].
  assert (Hkd : k <= depth) by lia.
  cbn [deepcopy].
  destruct x as [| b | z | s | l];
    try (do 3 eexists; split; [reflexivity|]; split; [reflexivity|];
         split; [apply grows_refl|exact Hb]).
  destruct (assoc l memo) as [y|] eqn:Ea.
  { do 3 eexists. split; [reflexivity|].
    split; [simpl; now rewrite Ea|]. split; [apply grows_refl|exact Hb]. }
  cbn [read] in Hr. destruct (nth_error h0 l) as [o|] eqn:E0; [|discriminate].
  assert (Hl : l < length h0) by (apply nth_error_Some; congruence).
  assert (El : nth_error h l = Some o).
  { rewrite (proj1 (proj2 Hh) l Hl). exact E0. }
  assert (Hn : length h0 <= length h) by apply Hh.
  rewrite El. destruct o as [items|fields].
  - destruct (all_some (map (read k h0) items)) as [js|] eqn:Ejs;
      [|discriminate].
    lazymatch goal with
    | |- context [?f items ((l, length h) :: memo) (h ++ [OList []])] =>
        assert (Loop :
          forall rest done done' m1 h1,
            items = done ++ rest ->
            extends h0 h1 -> memo_fresh (length h0) m1 -> bounded m1 h1 ->
            length h < length h1 ->
            assoc l m1 = Some (length h) ->
            nth_error h1 (length h) = Some (OList done') ->
            all_some (map (translate m1) done) = Some done' ->
            exists memo' h',
              f rest m1 h1 = (Ret (VRef (length h)), (memo', h'))
              /\ (forall l0 y0, assoc l0 m1 = Some y0 ->
                                assoc l0 memo' = Some y0)
              /\ length h1 <= length h'
              /\ (forall i, i < length h1 -> i <> length h ->
                            nth_error h' i = nth_error h1 i)
              /\ (forall l0 y0, assoc l0 memo' = Some y0 ->
                                assoc l0 m1 = None ->
                                length h1 <= y0 < length h'
                                /\ complete h0 memo' h' l0 y0)
              /\ (exists final,
                    nth_error h' (length h) = Some (OList final)
                    /\ all_some (map (translate memo') items) = Some final)
              /\ bounded memo' h')
    end.
    { induction rest as [|a rest IHr];
        intros done done' m1 h1 Hitems Hh1 Hm1 Hb1 Hlen Hl1 Hy1 Hdone.
      - rewrite app_nil_r in Hitems. subst done.
        exists m1, h1. split; [reflexivity|]. split; [auto|].
        split; [lia|]. split; [auto|].
        split; [intros l0 y0 H1 H2; congruence|].
        split; [now exists done'|exact Hb1].
      - assert (Ha : exists ja, read k h0 a = Some ja).
        { apply (all_some_in _ _ _ Ejs). rewrite Hitems.
          apply in_or_app. right. now left. }
        destruct Ha as [ja Ha].
        destruct (IH k a ja m1 h1 Hkd Ha Hh1 Hm1 Hb1)
          as (a' & m2 & h2 & Ed & Ht & (G1 & G2 & G3 & G4) & Hb2).
        destruct (deepcopy_extends h0 depth a m1 h1 _ _ _ Hh1 Hm1 Ed)
          as (Hh2 & Hm2 & Hf).
        specialize (Hf a' eq_refl).
        destruct (IHr (done ++ [a]) (done' ++ [a']) m2
                      (update_at (length h) (append_item a') h2))
          as (memo' & h' & Er & L1 & L2 & L3 & L4 & L5 & L6).
        + now rewrite <- app_assoc.
        + apply extends_update; [exact Hh2|exact Hn|].
          intros o. now apply closed_append.
        + exact Hm2.
        + intros l0 y0 H. rewrite update_at_length. now apply Hb2 with l0.
        + rewrite update_at_length. lia.
        + now apply G1.
        + rewrite update_at_same, (G3 _ Hlen), Hy1. reflexivity.
        + rewrite map_app. apply all_some_app.
          * apply (all_some_ext (translate m1)); [|exact Hdone].
            intros v v' _. now apply translate_mono.
          * simpl. now rewrite Ht.
        + rewrite update_at_length in *.
          exists memo', h'. split.
          { simpl. rewrite Ed. exact Er. }
          split; [intros l0 y0 H; now apply L1, G1|].
          split; [lia|].
          split.
          { intros i Hi Hne. rewrite L3 by (try lia; exact Hne).
            rewrite update_at_other by exact Hne. now apply G3. }
          split; [|split; [exact L5|exact L6]].
          intros l0 y0 H1 H2. destruct (assoc l0 m2) as [y2|] eqn:E2.
          * assert (y0 = y2) by (apply L1 in E2; congruence). subst y2.
            destruct (G4 l0 y0 E2 H2) as [Hr2 Hc2].
            split; [lia|].
            apply complete_mono with m2 h2; [exact L1| |exact Hc2].
            rewrite L3 by lia. apply update_at_other. lia.
          * destruct (L4 l0 y0 H1 E2) as [Hr2 Hc2]. split; [lia|exact Hc2]. }
    destruct (Loop items [] [] ((l, length h) :: memo) (h ++ [OList []]))
      as (memo' & h' & Er & L1 & L2 & L3 & L4 & (final & L5 & L5') & L6).
    + reflexivity.
    + now apply extends_alloc.
    + now apply memo_fresh_cons.
    + now apply bounded_alloc.
    + rewrite length_app. simpl. lia.
    + apply assoc_cons_same.
    + apply nth_error_snoc.
    + reflexivity.
    + rewrite length_app in *. cbn [length] in L2, L3, L4.
      exists (VRef (length h)), memo', h'. split; [exact Er|].
      split; [simpl; now rewrite (L1 l (length h) (assoc_cons_same _ _ _))|].
      split; [|exact L6].
      split.
      { intros l0 y0 H. apply L1. rewrite assoc_cons_other; [exact H|].
        intros ->. congruence. }
      split; [lia|].
      split.
      { intros i Hi. rewrite L3 by lia. now apply nth_error_old. }
      intros l0 y0 H1 H2. destruct (Nat.eq_dec l0 l) as [->|Hne].
      * rewrite (L1 l (length h) (assoc_cons_same _ _ _)) in H1.
        injection H1 as <-. split; [lia|].
        exists (OList items), (OList final).
        split; [exact E0|]. split; [exact L5|]. simpl. now rewrite L5'.
      * destruct (L4 l0 y0 H1) as [Hr2 Hc2].
        { rewrite assoc_cons_other; assumption. }
        split; [lia|exact Hc2].
  - destruct (all_some
                (map (fun kv => option_map (pair (fst kv)) (read k h0 (snd kv)))
                     fields)) as [js|] eqn:Ejs; [|discriminate].
    lazymatch goal with
    | |- context [?f fields ((l, length h) :: memo) (h ++ [ODict []])] =>
        assert (Loop :
          forall rest done done' m1 h1,
            fields = done ++ rest ->
            extends h0 h1 -> memo_fresh (length h0) m1 -> bounded m1 h1 ->
            length h < length h1 ->
            assoc l m1 = Some (length h) ->
            nth_error h1 (length h) = Some (ODict done') ->
            all_some (map (fun kv => option_map (pair (fst kv))
                                       (translate m1 (snd kv))) done)
            = Some done' ->
            exists memo' h',
              f rest m1 h1 = (Ret (VRef (length h)), (memo', h'))
              /\ (forall l0 y0, assoc l0 m1 = Some y0 ->
                                assoc l0 memo' = Some y0)
              /\ length h1 <= length h'
              /\ (forall i, i < length h1 -> i <> length h ->
                            nth_error h' i = nth_error h1 i)
              /\ (forall l0 y0, assoc l0 memo' = Some y0 ->
                                assoc l0 m1 = None ->
                                length h1 <= y0 < length h'
                                /\ complete h0 memo' h' l0 y0)
              /\ (exists final,
                    nth_error h' (length h) = Some (ODict final)
                    /\ all_some (map (fun kv => option_map (pair (fst kv))
                                               (translate memo' (snd kv)))
                                     fields)
                       = Some final)
              /\ bounded memo' h')
    end.
    { induction rest as [|[key a] rest IHr];
        intros done done' m1 h1 Hitems Hh1 Hm1 Hb1 Hlen Hl1 Hy1 Hdone.
      - rewrite app_nil_r in Hitems. subst done.
        exists m1, h1. split; [reflexivity|]. split; [auto|].
        split; [lia|]. split; [auto|].
        split; [intros l0 y0 H1 H2; congruence|].
        split; [now exists done'|exact Hb1].
      - assert (Ha : exists ja, read k h0 a = Some ja).
        { destruct (all_some_in _ _ _ Ejs (key, a)) as [b Hb'].
          - rewrite Hitems. apply in_or_app. right. now left.
          - simpl in Hb'. destruct (read k h0 a) as [ja|]; [|discriminate].
            now exists ja. }
        destruct Ha as [ja Ha].
        destruct (IH k a ja m1 h1 Hkd Ha Hh1 Hm1 Hb1)
          as (a' & m2 & h2 & Ed & Ht & (G1 & G2 & G3 & G4) & Hb2).
        destruct (deepcopy_extends h0 depth a m1 h1 _ _ _ Hh1 Hm1 Ed)
          as (Hh2 & Hm2 & Hf).
        specialize (Hf a' eq_refl).
        destruct (IHr (done ++ [(key, a)]) (done' ++ [(key, a')]) m2
                      (update_at (length h) (set_field key a') h2))
          as (memo' & h' & Er & L1 & L2 & L3 & L4 & L5 & L6).
        + now rewrite <- app_assoc.
        + apply extends_update; [exact Hh2|exact Hn|].
          intros o. now apply closed_set_field.
        + exact Hm2.
        + intros l0 y0 H. rewrite update_at_length. now apply Hb2 with l0.
        + rewrite update_at_length. lia.
        + now apply G1.
        + rewrite update_at_same, (G3 _ Hlen), Hy1. reflexivity.
        + rewrite map_app. apply all_some_app.
          * apply (all_some_ext
                     (fun kv => option_map (pair (fst kv))
                                  (translate m1 (snd kv))));
              [|exact Hdone].
            intros [k1 v1] b _. simpl.
            destruct (translate m1 v1) as [v1'|] eqn:Ev; [|discriminate].
            now rewrite (translate_mono m1 m2 v1 v1' G1 Ev).
          * simpl. now rewrite Ht.
        + rewrite update_at_length in *.
          exists memo', h'. split.
          { simpl. rewrite Ed. exact Er. }
          split; [intros l0 y0 H; now apply L1, G1|].
          split; [lia|].
          split.
          { intros i Hi Hne. rewrite L3 by (try lia; exact Hne).
            rewrite update_at_other by exact Hne. now apply G3. }
          split; [|split; [exact L5|exact L6]].
          intros l0 y0 H1 H2. destruct (assoc l0 m2) as [y2|] eqn:E2.
          * assert (y0 = y2) by (apply L1 in E2; congruence). subst y2.
            destruct (G4 l0 y0 E2 H2) as [Hr2 Hc2].
            split; [lia|].
            apply complete_mono with m2 h2; [exact L1| |exact Hc2].
            rewrite L3 by lia. apply update_at_other. lia.
          * destruct (L4 l0 y0 H1 E2) as [Hr2 Hc2]. split; [lia|exact Hc2]. }
    destruct (Loop fields [] [] ((l, length h) :: memo) (h ++ [ODict []]))
      as (memo' & h' & Er & L1 & L2 & L3 & L4 & (final & L5 & L5') & L6).
    + reflexivity.
    + now apply extends_alloc.
    + now apply memo_fresh_cons.
    + now apply bounded_alloc.
    + rewrite length_app. simpl. lia.
    + apply assoc_cons_same.
    + apply nth_error_snoc.
    + reflexivity.
    + rewrite length_app in *. cbn [length] in L2, L3, L4.
      exists (VRef (length h)), memo', h'. split; [exact Er|].
      split; [simpl; now rewrite (L1 l (length h) (assoc_cons_same _ _ _))|].
      split; [|exact L6].
      split.
      { intros l0 y0 H. apply L1. rewrite assoc_cons_other; [exact H|].
        intros ->. congruence. }
      split; [lia|].
      split.
      { intros i Hi. rewrite L3 by lia. now apply nth_error_old. }
      intros l0 y0 H1 H2. destruct (Nat.eq_dec l0 l) as [->|Hne].
      * rewrite (L1 l (length h) (assoc_cons_same _ _ _)) in H1.
        injection H1 as <-. split; [lia|].
        exists (ODict fields), (ODict final).
        split; [exact E0|]. split; [exact L5|]. simpl. now rewrite L5'.
      * destruct (L4 l0 y0 H1) as [Hr2 Hc2].
        { rewrite assoc_cons_other; assumption. }
        split; [lia|exact Hc2].
Qed.

End Copy.

Section ReadFacts.
Import Heap Denote.

Lemma read_copy (h0 : list obj) (memo : list (loc * loc)) (h : list obj) :
  (forall l y, assoc l memo = Some y -> complete h0 memo h l y) ->
  forall (f : nat) (v v' : val) (j : json),
    read f h0 v = Some j -> translate memo v = Some v' ->
    read f h v' = Some j.
Proof.
  intros Hc. induction f as [|f IH]; intros v v' j Hr Ht; [discriminate|].
  destruct v as [| b | z | s | l]; try (injection Ht as <-; exact Hr).
  simpl in Ht. destruct (assoc l memo) as [y|] eqn:Ea; [|discriminate].
  injection Ht as <-.
  destruct (Hc l y Ea) as (o & o' & E0 & Ey & Hi).
  cbn [read] in *. rewrite E0 in Hr. rewrite Ey.
  destruct o as [items|fields]; simpl in Hi.
  - destruct (all_some (map (translate memo) items)) as [items'|] eqn:Et;
      [|discriminate].
    injection Hi as <-.
    destruct (all_some (map (read f h0) items)) as [js|] eqn:Ej;
      [|discriminate].
    assert (H : all_some (map (read f h) items') = Some js).
    { clear Hr E0 Ey. revert items' js Et Ej.
      induction items as [|a t IHt]; intros items' js Et Ej; simpl in *.
      - injection Et as <-. exact Ej.
      - destruct (translate memo a) as [a'|] eqn:Ea'; [|discriminate].
        destruct (all_some (map (translate memo) t)) as [t'|]; [|discriminate].
        injection Et as <-.
        destruct (read f h0 a) as [ja|] eqn:Eja; [|discriminate].
        destruct (all_some (map (read f h0) t)) as [jt|]; [|discriminate].
        injection Ej as <-. simpl.
        rewrite (IH a a' ja Eja Ea'), (IHt t' jt eq_refl eq_refl).
        reflexivity. }
    now rewrite H.
  - destruct (all_some
                (map (fun kv => option_map (pair (fst kv))
                                  (translate memo (snd kv))) fields))
      as [fields'|] eqn:Et; [|discriminate].
    injection Hi as <-.
    destruct (all_some
                (map (fun kv => option_map (pair (fst kv)) (read f h0 (snd kv)))
                     fields)) as [js|] eqn:Ej; [|discriminate].
    assert (H : all_some
                  (map (fun kv => option_map (pair (fst kv)) (read f h (snd kv)))
                       fields') = Some js).
    { clear Hr E0 Ey. revert fields' js Et Ej.
      induction fields as [|[key a] t IHt]; intros fields' js Et Ej;
        simpl in *.
      - injection Et as <-. exact Ej.
      - destruct (translate memo a) as [a'|] eqn:Ea'; [|discriminate].
        simpl in Et.
        destruct (all_some
                    (map (fun kv => option_map (pair (fst kv))
                                      (translate memo (snd kv))) t))
          as [t'|]; [|discriminate].
        injection Et as <-.
        destruct (read f h0 a) as [ja|] eqn:Eja; [|discriminate].
        simpl in Ej.
        destruct (all_some
                    (map (fun kv => option_map (pair (fst kv))
                                      (read f h0 (snd kv))) t))
          as [jt|]; [|discriminate].
        injection Ej as <-. simpl.
        rewrite (IH a a' ja Eja Ea'). simpl.
        rewrite (IHt t' jt eq_refl eq_refl). reflexivity. }
    now rewrite H.
Qed.

Lemma init_copies (h0 : list obj) (depth k : nat) (x : val) (j : json)
  (od : list string) :
  read k h0 x = Some j -> k <= depth ->
  exists v h',
    init depth h0 x od = (Ret tt, State h' v od [])
    /\ read k h' v = Some j
    /\ fresh (length h0) v = true
    /\ extends h0 h'.
Proof.
  intros Hr Hk.
  destruct (deepcopy_copies h0 depth k x j [] h0 Hk Hr)
    as (v & memo' & h' & Ed & Ht & (G1 & G2 & G3 & G4) & Hb).
  - apply extends_base.
  - intros a y H. discriminate.
  - intros a y H. discriminate.
  - assert (Hm0 : memo_fresh (length h0) [])
      by (intros a y H; discriminate).
    destruct (deepcopy_extends h0 depth x [] h0 _ _ _ (extends_base h0)
                Hm0 Ed) as (He & _ & Hf).
    exists v, h'. unfold init. rewrite Ed. split; [reflexivity|].
    split.
    + apply read_copy with h0 memo' x; [|exact Hr|exact Ht].
      intros l y H. now apply G4.
    + split; [now apply Hf|exact He].
Qed.

End ReadFacts.

(* ================================================================== *)
(** * The engine on the heap does what the engine on values does *)
(* ================================================================== *)

Section Simulation.
Import Heap Denote.

Lemma read_alloc (o : obj) :
  forall (f : nat) (h : list obj) (v : val) (j : json),
    read f h v = Some j -> read f (h ++ [o]) v = Some j.
Proof.
  induction f as [|f IH]; intros h v j H; [discriminate|].
  destruct v as [| b | z | s | l]; try exact H. cbn [read] in *.
  destruct (nth_error h l) as [ob|] eqn:E; [|discriminate].
  rewrite nth_error_app1 by (apply nth_error_Some; congruence). rewrite E.
  destruct ob as [items|fields].
  - destruct (all_some (map (read f h) items)) as [js|] eqn:Ej;
      [|discriminate].
    rewrite (all_some_ext (read f h) (read f (h ++ [o])) items js);
      [exact H| |exact Ej].
    intros a b _. apply IH.
  - destruct (all_some
                (map (fun kv => option_map (pair (fst kv)) (read f h (snd kv)))
                     fields)) as [js|] eqn:Ej; [|discriminate].
    rewrite (all_some_ext
               (fun kv => option_map (pair (fst kv)) (read f h (snd kv)))
               (fun kv => option_map (pair (fst kv))
                            (read f (h ++ [o]) (snd kv))) fields js);
      [exact H| |exact Ej].
    intros [key a] b _. simpl.
    destruct (read f h a) as [ja|] eqn:Ea; [|discriminate].
    now rewrite (IH h a ja Ea).
Qed.

Lemma list_of_alloc (f : nat) (h : list obj) (v : val) (js : list json)
  (o : obj) :
  list_of f h v js -> list_of f (h ++ [o]) v js.
Proof.
  intros (l & items & -> & E & F). exists l, items. split; [reflexivity|].
  split.
  - rewrite nth_error_app1 by (apply nth_error_Some; congruence). exact E.
  - eapply Forall2_impl; [|exact F]. intros a j. apply read_alloc.
Qed.

Lemma list_of_new (f : nat) (h : list obj) (items : list val)
  (js : list json) :
  Forall2 (fun a j => read f h a = Some j) items js ->
  list_of f (h ++ [OList items]) (VRef (length h)) js.
Proof.
  intros F. exists (length h), items. split; [reflexivity|].
  split; [apply nth_error_snoc|].
  eapply Forall2_impl; [|exact F]. intros a j. apply read_alloc.
Qed.

Lemma Forall2_firstn {A B} (R : A -> B -> Prop) (n : nat) :
  forall l1 l2, Forall2 R l1 l2 -> Forall2 R (firstn n l1) (firstn n l2).
Proof.
  induction n as [|n IH]; intros l1 l2 F; [constructor|].
  destruct F; simpl; constructor; auto.
Qed.

Lemma Forall2_skipn {A B} (R : A -> B -> Prop) (n : nat) :
  forall l1 l2, Forall2 R l1 l2 -> Forall2 R (skipn n l1) (skipn n l2).
Proof.
  induction n as [|n IH]; intros l1 l2 F; [exact F|].
  destruct F; simpl; [constructor|auto].
Qed.

Lemma all_some_Forall2 {A B} (r : A -> option B) (items : list A)
  (js : list B) :
  Forall2 (fun a j => r a = Some j) items js ->
  all_some (map r items) = Some js.
Proof.
  induction 1 as [|a j t jt Ha _ IH]; [reflexivity|]. simpl.
  rewrite Ha, IH. reflexivity.
Qed.

Lemma read_list (f : nat) (h : list obj) (v : val) (js : list json) :
  list_of f h v js -> read (S f) h v = Some (JArr js).
Proof.
  intros (l & items & -> & E & F). cbn [read]. rewrite E.
  now rewrite (all_some_Forall2 (read f h) items js F).
Qed.

Lemma list_read (f : nat) (h : list obj) (v : val) (js : list json) :
  read (S f) h v = Some (JArr js) -> list_of f h v js.
Proof.
  destruct v as [| b | z | s | l]; try discriminate. cbn [read].
  destruct (nth_error h l) as [[items|fields]|] eqn:E; try discriminate.
  - intros H. exists l, items. split; [reflexivity|]. split; [exact E|].
    destruct (all_some (map (read f h) items)) as [js'|] eqn:Ej;
      [|discriminate].
    injection H as <-. clear E. revert js' Ej.
    induction items as [|a t IH]; intros js' Ej; simpl in Ej.
    + injection Ej as <-. constructor.
    + destruct (read f h a) as [ja|] eqn:Ea; [|discriminate].
      destruct (all_some (map (read f h) t)) as [jt|]; [|discriminate].
      injection Ej as <-. constructor; [exact Ea|now apply IH].
  - destruct (all_some _); discriminate.
Qed.

(** ** The lookup of the group *)

Lemma eq_name_read (f : nat) (h : list obj) (hv : val) (v : json)
  (g : string) :
  read f h hv = Some v -> eq_name hv g = eq_str v g.
Proof.
  destruct f as [|f]; [discriminate|].
  destruct hv as [| b | z | s | l]; cbn [read];
    try (intros [= <-]; reflexivity).
  destruct (nth_error h l) as [[items|fields]|]; try discriminate.
  - destruct (all_some _); [|discriminate]. intros [= <-]. reflexivity.
  - destruct (all_some _); [|discriminate]. intros [= <-]. reflexivity.
Qed.

Lemma find_group (f : nat) (h : list obj) (hfields : list (string * val)) :
  forall fields,
    all_some (map (fun kv => option_map (pair (fst kv)) (read f h (snd kv)))
                  hfields) = Some fields ->
    match dict_get "group" fields with
    | Some v =>
        exists kv,
          find (fun kv => String.eqb (fst kv) "group") hfields = Some kv
          /\ read f h (snd kv) = Some v
    | None => find (fun kv => String.eqb (fst kv) "group") hfields = None
    end.
Proof.
  induction hfields as [|[key a] t IH]; intros fields H; simpl in H.
  - injection H as <-. reflexivity.
  - destruct (read f h a) as [ja|] eqn:Ea; [|discriminate]. simpl in H.
    destruct (all_some
                (map (fun kv => option_map (pair (fst kv)) (read f h (snd kv)))
                     t)) as [jt|] eqn:Et; [|discriminate].
    injection H as <-. cbn [dict_get find fst].
    destruct (String.eqb key "group"); [now exists (key, a)|].
    now apply IH.
Qed.

Lemma getitem_sim (f : nat) (a : val) (j : json) (s : state) :
  read f (heap s) a = Some j -> Spec.has_group j = true ->
  exists hv,
    getitem_group a s = (Ret hv, s)
    /\ forall g, eq_name hv g = Spec.group_is g j.
Proof.
  destruct f as [|f]; [discriminate|]. intros Hr Hg.
  unfold Spec.has_group in Hg. unfold Spec.group_is.
  destruct a as [| b | z | str | l]; cbn [read] in Hr;
    try (injection Hr as <-; discriminate).
  destruct (nth_error (heap s) l) as [[items|fields]|] eqn:E;
    try discriminate.
  - destruct (all_some _); [|discriminate]. injection Hr as <-. discriminate.
  - destruct (all_some
                (map (fun kv => option_map (pair (fst kv))
                                  (read f (heap s) (snd kv))) fields))
      as [jf|] eqn:Ej; [|discriminate].
    injection Hr as <-. pose proof (find_group f (heap s) fields jf Ej) as Hf.
    cbn [getitem] in *. unfold getitem_group. rewrite E.
    destruct (dict_get "group" jf) as [v|]; [|discriminate].
    destruct Hf as (kv & -> & Hv). exists (snd kv). split; [reflexivity|].
    intros g. now apply eq_name_read with f (heap s).
Qed.

Lemma collect_loop_sim (g : string) (f : nat) (s : state) :
  forall items cfg,
    Forall2 (fun a j => read f (heap s) a = Some j) items cfg ->
    Spec.records_ok cfg = true ->
    forall (i : nat) (item : Sorter.GroupOrderingDataItem),
      collect_loop g i items item s
      = (Ret (Sorter.Item
                match Sorter.first_item_index item with
                | Some fi => Some fi
                | None => option_map (Nat.add i)
                            (Spec.first_idx (Spec.group_is g) cfg)
                end
                match Spec.last_idx (Spec.group_is g) cfg with
                | Some k => Some (i + k)
                | None => Sorter.last_item_index item
                end), s).
Proof.
  induction 1 as [|a j t jt Ha _ IH]; intros Hok i item.
  - simpl. destruct item as [fi la]. simpl. destruct fi; reflexivity.
  - simpl in Hok. apply andb_prop in Hok. destruct Hok as [Hj Hrest].
    cbn [collect_loop]. unfold bind at 1, try_except.
    destruct (getitem_sim f a j s Ha Hj) as (hv & -> & Hg).
    cbn [Spec.first_idx Spec.last_idx]. rewrite <- (Hg g).
    rewrite (IH Hrest). clear IH Hg.
    destruct item as [[fi|] la]; destruct (eq_name hv g);
      destruct (Spec.last_idx (Spec.group_is g) jt);
      destruct (Spec.first_idx (Spec.group_is g) jt);
      cbn; repeat f_equal; lia.
Qed.

Lemma collect_sim (g : string) (f : nat) (sh : state) (sp : Sorter.state) :
  sim f sh sp -> Spec.records_ok (Sorter._custom_config sp) = true ->
  match Spec.first_idx (Spec.group_is g) (Sorter._custom_config sp),
        Spec.last_idx (Spec.group_is g) (Sorter._custom_config sp) with
  | Some fi, Some la =>
      _collect_group_ordering_data_item g sh
      = (Ret (Sorter.Item (Some fi) (Some la)), sh)
  | _, _ =>
      _collect_group_ordering_data_item g sh
      = (Raise (SortingGroupDoesNotExist g),
         State (heap sh) (_custom_config sh) (_ordering_data sh)
               (logged sh ++ [Spec.warning g]))
  end.
Proof.
  intros ((l & items & Hv & E & F) & _ & _) Hok.
  destruct sh as [hh cc odh lgh]. cbn [heap _custom_config] in *. subst cc.
  unfold _collect_group_ordering_data_item, bind, get, iterate.
  cbn [heap _custom_config]. rewrite E.
  rewrite (collect_loop_sim g f (State hh (VRef l) odh lgh) items _ F Hok).
  cbn [Sorter.first_item_index Sorter.last_item_index].
  destruct (Spec.first_idx (Spec.group_is g) (Sorter._custom_config sp));
    destruct (Spec.last_idx (Spec.group_is g) (Sorter._custom_config sp));
    reflexivity.
Qed.

End Simulation.

Section EngineSimulation.
Import Heap Denote.

Lemma slice_sim (f : nat) (lo : nat) (hi : option nat) (v : val)
  (js : list json) (s : state) :
  list_of f (heap s) v js ->
  exists o,
    py_slice lo hi v s
    = (Ret (VRef (length (heap s))), set_heap (heap s ++ [o]) s)
    /\ list_of f (heap s ++ [o]) (VRef (length (heap s)))
         (skipn lo match hi with
                   | Some n => firstn n js
                   | None => js
                   end).
Proof.
  intros (l & items & -> & E & F). unfold py_slice. rewrite E.
  eexists. split; [reflexivity|]. apply list_of_new.
  apply Forall2_skipn. destruct hi; [now apply Forall2_firstn|exact F].
Qed.

Lemma concat_sim (f : nat) (x y : val) (xs ys : list json) (s : state) :
  list_of f (heap s) x xs -> list_of f (heap s) y ys ->
  exists o,
    py_concat x y s
    = (Ret (VRef (length (heap s))), set_heap (heap s ++ [o]) s)
    /\ list_of f (heap s ++ [o]) (VRef (length (heap s))) (xs ++ ys).
Proof.
  intros (a & ia & -> & Ea & Fa) (b & ib & -> & Eb & Fb).
  unfold py_concat. rewrite Ea, Eb.
  eexists. split; [reflexivity|]. apply list_of_new.
  now apply Forall2_app.
Qed.

Lemma bind_ret {S A B} (m : M S A) (k : A -> M S B) (s s' : S) (a : A) :
  m s = (Ret a, s') -> bind m k s = k a s'.
Proof. intros H. unfold bind. now rewrite H. Qed.

Lemma bind_raise {S A B} (m : M S A) (k : A -> M S B) (s s' : S) (e : exn) :
  m s = (Raise e, s') -> bind m k s = (Raise e, s').
Proof. intros H. unfold bind. now rewrite H. Qed.

Lemma pop_sim (g : string) (f : nat) (sh : state) (sp : Sorter.state)
  (fi la : nat) :
  sim f sh sp -> Spec.records_ok (Sorter._custom_config sp) = true ->
  Spec.first_idx (Spec.group_is g) (Sorter._custom_config sp) = Some fi ->
  Spec.last_idx (Spec.group_is g) (Sorter._custom_config sp) = Some la ->
  exists v2 sh',
    _pop_group_2 g sh = (Ret v2, sh')
    /\ sim f sh'
         (Spec.with_config
            (firstn fi (Sorter._custom_config sp)
             ++ skipn (la + 1) (Sorter._custom_config sp)) sp)
    /\ list_of f (heap sh') v2
         (skipn fi (firstn (la + 1) (Sorter._custom_config sp))).
Proof.
  intros Hs Hok Hf Hl. pose proof (collect_sim g f sh sp Hs Hok) as Hc.
  rewrite Hf, Hl in Hc. destruct Hs as (Hcc & Hod & Hlg).
  unfold _pop_group_2. rewrite (bind_ret _ _ _ _ _ Hc).
  cbn [Sorter.first_item_index Sorter.last_item_index index].
  rewrite (bind_ret (ret fi) _ sh sh fi eq_refl).
  rewrite (bind_ret (ret la) _ sh sh la eq_refl).
  rewrite (bind_ret get _ sh sh sh eq_refl).
  destruct (slice_sim f 0 (Some fi) _ _ sh Hcc) as (o1 & E1 & L1).
  rewrite (bind_ret _ _ _ _ _ E1).
  set (s1 := set_heap (heap sh ++ [o1]) sh) in *.
  assert (Hcc1 : list_of f (heap s1) (_custom_config sh)
                   (Sorter._custom_config sp))
    by now apply list_of_alloc.
  destruct (slice_sim f fi (Some (la + 1)) _ _ s1 Hcc1) as (o2 & E2 & L2).
  rewrite (bind_ret _ _ _ _ _ E2).
  set (s2 := set_heap (heap s1 ++ [o2]) s1) in *.
  assert (Hcc2 : list_of f (heap s2) (_custom_config sh)
                   (Sorter._custom_config sp))
    by now apply list_of_alloc.
  destruct (slice_sim f (la + 1) None _ _ s2 Hcc2) as (o3 & E3 & L3).
  rewrite (bind_ret _ _ _ _ _ E3).
  set (s3 := set_heap (heap s2 ++ [o3]) s2) in *.
  assert (L1' : list_of f (heap s3) (VRef (length (heap sh)))
                  (firstn fi (Sorter._custom_config sp))).
  { apply list_of_alloc. apply (list_of_alloc f (heap s1)). exact L1. }
  destruct (concat_sim f _ _ _ _ s3 L1' L3) as (o4 & E4 & L4).
  rewrite (bind_ret _ _ _ _ _ E4).
  unfold bind, set_custom_config, ret.
  do 2 eexists. split; [reflexivity|]. split.
  - split; [exact L4|]. split; [exact Hod|exact Hlg].
  - cbn [heap set_heap]. apply list_of_alloc. apply list_of_alloc.
    exact L2.
Qed.

Lemma insert_sim (g : string) (f : nat) (sh : state) (sp : Sorter.state)
  (v2 : val) (B : list json) (fi la : nat) :
  sim f sh sp -> Spec.records_ok (Sorter._custom_config sp) = true ->
  list_of f (heap sh) v2 B ->
  Spec.first_idx (Spec.group_is g) (Sorter._custom_config sp) = Some fi ->
  Spec.last_idx (Spec.group_is g) (Sorter._custom_config sp) = Some la ->
  exists sh',
    _insert_group_2_after_group_1 g v2 sh = (Ret tt, sh')
    /\ sim f sh'
         (Spec.with_config
            (firstn (la + 1) (Sorter._custom_config sp) ++ B
             ++ skipn (la + 1) (Sorter._custom_config sp)) sp).
Proof.
  intros Hs Hok HB Hf Hl. pose proof (collect_sim g f sh sp Hs Hok) as Hc.
  rewrite Hf, Hl in Hc. destruct Hs as (Hcc & Hod & Hlg).
  unfold _insert_group_2_after_group_1. rewrite (bind_ret _ _ _ _ _ Hc).
  cbn [Sorter.first_item_index Sorter.last_item_index index].
  rewrite (bind_ret (ret la) _ sh sh la eq_refl).
  rewrite (bind_ret get _ sh sh sh eq_refl).
  destruct (slice_sim f 0 (Some (la + 1)) _ _ sh Hcc) as (o1 & E1 & L1).
  rewrite (bind_ret _ _ _ _ _ E1).
  set (s1 := set_heap (heap sh ++ [o1]) sh) in *.
  assert (Hcc1 : list_of f (heap s1) (_custom_config sh)
                   (Sorter._custom_config sp))
    by now apply list_of_alloc.
  destruct (slice_sim f (la + 1) None _ _ s1 Hcc1) as (o2 & E2 & L2).
  rewrite (bind_ret _ _ _ _ _ E2).
  set (s2 := set_heap (heap s1 ++ [o2]) s1) in *.
  assert (L1' : list_of f (heap s2) (VRef (length (heap sh)))
                  (firstn (la + 1) (Sorter._custom_config sp))).
  { apply (list_of_alloc f (heap s1)). exact L1. }
  assert (HB' : list_of f (heap s2) v2 B).
  { apply (list_of_alloc f (heap s1)). apply list_of_alloc. exact HB. }
  destruct (concat_sim f _ _ _ _ s2 L1' HB') as (o3 & E3 & L3).
  rewrite (bind_ret _ _ _ _ _ E3).
  set (s3 := set_heap (heap s2 ++ [o3]) s2) in *.
  assert (L2' : list_of f (heap s3) (VRef (length (heap s1)))
                  (skipn (la + 1) (Sorter._custom_config sp))).
  { apply list_of_alloc. exact L2. }
  destruct (concat_sim f _ _ _ _ s3 L3 L2') as (o4 & E4 & L4).
  rewrite (bind_ret _ _ _ _ _ E4).
  unfold set_custom_config.
  eexists. split; [reflexivity|].
  split; [|split; [exact Hod|exact Hlg]].
  cbn [heap set_heap _custom_config Sorter._custom_config Spec.with_config].
  rewrite <- app_assoc in L4. exact L4.
Qed.

Lemma idx_both {A} (p : A -> bool) (l : list A) (la : nat) :
  Spec.last_idx p l = Some la -> exists fi, Spec.first_idx p l = Some fi.
Proof.
  intros H. destruct (Spec.first_idx p l) as [fi|] eqn:E; [now exists fi|].
  apply first_idx_none in E. apply last_idx_none in E. congruence.
Qed.

Lemma sort_pair_sim (g1 g2 : string) (missing : list string) (f : nat)
  (sh : state) (sp : Sorter.state) :
  sim f sh sp -> Spec.records_ok (Sorter._custom_config sp) = true ->
  exists m' sh' sp',
    sort_pair (g1, g2) missing sh = (Ret m', sh')
    /\ Sorter.sort_pair (g1, g2) missing sp = (Ret m', sp')
    /\ sim f sh' sp'
    /\ Spec.records_ok (Sorter._custom_config sp') = true.
Proof.
  intros Hs Hok. rewrite (sort_pair_ok g1 g2 missing sp Hok).
  assert (Hok' : Spec.records_ok
                   (Spec.move g1 g2 (Sorter._custom_config sp)) = true)
    by now apply records_ok_move.
  unfold Spec.move, Spec.move_missing in *.
  pose proof (collect_sim g2 f sh sp Hs Hok) as Hc2.
  unfold sort_pair, try_except.
  destruct (Spec.first_idx (Spec.group_is g2) (Sorter._custom_config sp))
    as [fi|] eqn:Ef;
    [destruct (Spec.last_idx (Spec.group_is g2) (Sorter._custom_config sp))
       as [la|] eqn:El|].
  - destruct (pop_sim g2 f sh sp fi la Hs Hok Ef El)
      as (v2 & sh1 & Ep & Hs1 & HB).
    rewrite (bind_ret _ _ _ _ _ Ep).
    set (rest := firstn fi (Sorter._custom_config sp)
                 ++ skipn (la + 1) (Sorter._custom_config sp)) in *.
    assert (Hok1 : Spec.records_ok rest = true).
    { unfold rest. rewrite records_ok_app.
      rewrite records_ok_firstn, records_ok_skipn by exact Hok. reflexivity. }
    pose proof (collect_sim g1 f sh1 (Spec.with_config rest sp) Hs1 Hok1)
      as Hc1.
    cbn [Sorter._custom_config Spec.with_config] in Hc1.
    cbv zeta in Hok' |- *.
    destruct (Spec.last_idx (Spec.group_is g1) rest) as [l1|] eqn:E1.
    + destruct (idx_both _ _ _ E1) as [f1 Ef1].
      destruct (insert_sim g1 f sh1 (Spec.with_config rest sp) v2 _ f1 l1
                  Hs1 Hok1 HB Ef1 E1) as (sh2 & Ei & Hs2).
      rewrite (bind_ret _ _ _ _ _ Ei).
      do 3 eexists. split; [reflexivity|]. split; [reflexivity|].
      split; [|exact Hok'].
      destruct Hs2 as (L & Hod & Hlg). split; [exact L|].
      split; [exact Hod|]. cbn in Hlg |- *. now rewrite app_nil_r.
    + assert (Hr : _insert_group_2_after_group_1 g1 v2 sh1
                   = (Raise (SortingGroupDoesNotExist g1),
                      State (heap sh1) (_custom_config sh1)
                            (_ordering_data sh1)
                            (logged sh1 ++ [Spec.warning g1]))).
      { unfold _insert_group_2_after_group_1. apply bind_raise.
        destruct (Spec.first_idx (Spec.group_is g1) rest); exact Hc1. }
      rewrite (bind_raise _ _ _ _ _ Hr).
      do 3 eexists. split; [reflexivity|]. split; [reflexivity|].
      split; [|exact Hok'].
      destruct Hs1 as (L & Hod & Hlg). split; [exact L|].
      split; [exact Hod|]. cbn in Hlg |- *. now rewrite Hlg.
  - assert (Hr : _pop_group_2 g2 sh
                 = (Raise (SortingGroupDoesNotExist g2),
                    State (heap sh) (_custom_config sh) (_ordering_data sh)
                          (logged sh ++ [Spec.warning g2]))).
    { unfold _pop_group_2. now apply bind_raise. }
    rewrite (bind_raise _ _ _ _ _ Hr).
    do 3 eexists. split; [reflexivity|]. split; [reflexivity|].
    split; [|exact Hok'].
    destruct Hs as (L & Hod & Hlg). split; [exact L|].
    split; [exact Hod|]. cbn. now rewrite Hlg.
  - assert (Hr : _pop_group_2 g2 sh
                 = (Raise (SortingGroupDoesNotExist g2),
                    State (heap sh) (_custom_config sh) (_ordering_data sh)
                          (logged sh ++ [Spec.warning g2]))).
    { unfold _pop_group_2. now apply bind_raise. }
    rewrite (bind_raise _ _ _ _ _ Hr).
    do 3 eexists. split; [reflexivity|]. split; [reflexivity|].
    split; [|exact Hok'].
    destruct Hs as (L & Hod & Hlg). split; [exact L|].
    split; [exact Hod|]. cbn. now rewrite Hlg.
Qed.

Lemma loop_sim (f : nat) (pairs : list (string * string)) :
  forall (missing : list string) (sh : state) (sp : Sorter.state),
    sim f sh sp -> Spec.records_ok (Sorter._custom_config sp) = true ->
    exists m' sh' sp',
      for_each pairs sort_pair missing sh = (Ret m', sh')
      /\ for_each pairs Sorter.sort_pair missing sp = (Ret m', sp')
      /\ sim f sh' sp'.
Proof.
  induction pairs as [|[g1 g2] rest IH]; intros missing sh sp Hs Hok.
  - do 3 eexists. split; [reflexivity|]. split; [reflexivity|exact Hs].
  - destruct (sort_pair_sim g1 g2 missing f sh sp Hs Hok)
      as (m1 & sh1 & sp1 & E1 & E2 & Hs1 & Hok1).
    destruct (IH m1 sh1 sp1 Hs1 Hok1) as (m' & sh' & sp' & E3 & E4 & Hs').
    exists m', sh', sp'. cbn [for_each].
    rewrite (bind_ret _ _ _ _ _ E1), (bind_ret _ _ _ _ _ E2).
    split; [exact E3|]. split; [exact E4|exact Hs'].
Qed.

Lemma get_sorted_sim (f : nat) (sh : state) (sp : Sorter.state) :
  sim f sh sp -> Spec.records_ok (Sorter._custom_config sp) = true ->
  exists sh' sp',
    get_sorted_custom_config sh = (Ret (_custom_config sh'), sh')
    /\ Sorter.get_sorted_custom_config sp
       = (Ret (Sorter._custom_config sp'), sp')
    /\ sim f sh' sp'.
Proof.
  intros Hs Hok.
  assert (Hod : _ordering_data sh = Sorter._ordering_data sp) by apply Hs.
  destruct (loop_sim f (Sorter.adjacent_pairs (Sorter._ordering_data sp)) []
              sh sp Hs Hok) as (m' & sh1 & sp1 & E1 & E2 & L & Hod1 & Hlg1).
  unfold get_sorted_custom_config, Sorter.get_sorted_custom_config.
  rewrite (bind_ret get _ sh sh sh eq_refl).
  rewrite (bind_ret get _ sp sp sp eq_refl).
  rewrite Hod, (bind_ret _ _ _ _ _ E1), (bind_ret _ _ _ _ _ E2).
  unfold bind, log, Sorter.log, get, ret.
  do 2 eexists. split; [reflexivity|]. split; [reflexivity|].
  split; [exact L|]. split; [exact Hod1|]. cbn. now rewrite Hlg1.
Qed.

End EngineSimulation.

(** X18.  The constructor of the sorter, called with a sequence that denotes
    a JSON value and with a recursion depth that allows for its nesting,
    returns, and the sequence it holds is a new object that denotes the same
    JSON value, elements shared in the original included; the objects of
    the caller are as they were. *)
Theorem X18_constructor_copy_denotes_the_argument (h0 : list Heap.obj)
  (depth k : nat) (x : Heap.val) (j : json) (od : list string) :
  Denote.read k h0 x = Some j -> k <= depth ->
  exists s,
    Heap.init depth h0 x od = (Ret tt, s)
    /\ Denote.read k (Heap.heap s) (Heap._custom_config s) = Some j
    /\ Heap.fresh (length h0) (Heap._custom_config s) = true
    /\ forall l, l < length h0 -> nth_error (Heap.heap s) l = nth_error h0 l.
Proof.
  intros Hr Hk.
  destruct (init_copies h0 depth k x j od Hr Hk) as (v & h' & E & R & F & X).
  eexists. split; [exact E|]. split; [exact R|]. split; [exact F|].
  apply X.
Qed.

Lemma X18_witness :
  exists s,
    Heap.init 3
      [Heap.ODict [("group", Heap.VStr "x")];
       Heap.OList [Heap.VRef 0; Heap.VRef 0]]
      (Heap.VRef 1) ["a"; "b"]
    = (Ret tt, s)
    /\ Denote.read 3 (Heap.heap s) (Heap._custom_config s)
       = Some (JArr [JObj [("group", JStr "x")]; JObj [("group", JStr "x")]])
    /\ Heap.fresh
         (length [Heap.ODict [("group", Heap.VStr "x")];
                  Heap.OList [Heap.VRef 0; Heap.VRef 0]])
         (Heap._custom_config s) = true
    /\ forall l,
         l < length [Heap.ODict [("group", Heap.VStr "x")];
                     Heap.OList [Heap.VRef 0; Heap.VRef 0]] ->
         nth_error (Heap.heap s) l
         = nth_error [Heap.ODict [("group", Heap.VStr "x")];
                      Heap.OList [Heap.VRef 0; Heap.VRef 0]] l.
Proof.
  apply (X18_constructor_copy_denotes_the_argument
           [Heap.ODict [("group", Heap.VStr "x")];
            Heap.OList [Heap.VRef 0; Heap.VRef 0]]
           3 3 (Heap.VRef 1)
           (JArr [JObj [("group", JStr "x")]; JObj [("group", JStr "x")]])
           ["a"; "b"]).
  - reflexivity.
  - lia.
Defined.

(** X19.  On a sequence that denotes a Record Sequence, the engine run on
    the heap, with its deep copy, its slices and its concatenations, does
    what the engine run on values does: both return, the list returned on
    the heap denotes the sequence returned on values, and the two logs are
    the same. *)
Theorem X19_heap_engine_agrees_with_value_engine (h0 : list Heap.obj)
  (depth k : nat) (x : Heap.val) (cfg : list json) (od : list string) :
  Denote.read k h0 x = Some (JArr cfg) -> k <= depth ->
  Spec.records_ok cfg = true ->
  exists v s out sp,
    Heap.sorter depth h0 x od = (Ret v, s)
    /\ Sorter.run cfg od = (Ret out, sp)
    /\ Denote.read k (Heap.heap s) v = Some (JArr out)
    /\ Heap.logged s = Sorter.logged sp.
Proof.
  intros Hr Hk Hok.
  destruct (init_copies h0 depth k x (JArr cfg) od Hr Hk)
    as (v & h' & E & R & _ & _).
  destruct k as [|k]; [discriminate|].
  assert (Hs : Denote.sim k (Heap.State h' v od []) (Sorter.init cfg od [])).
  { split; [now apply list_read|]. split; reflexivity. }
  destruct (get_sorted_sim k _ _ Hs Hok) as (sh' & sp' & E1 & E2 & L & _ & Hlg).
  exists (Heap._custom_config sh'), sh', (Sorter._custom_config sp'), sp'.
  unfold Heap.sorter, Sorter.run. rewrite E.
  split; [exact E1|]. split; [exact E2|].
  split; [now apply read_list|exact Hlg].
Qed.

Lemma X19_witness :
  exists v s out sp,
    Heap.sorter 3
      [Heap.ODict [("group", Heap.VStr "x")];
       Heap.ODict [("group", Heap.VStr "y")];
       Heap.OList [Heap.VRef 0; Heap.VRef 1; Heap.VRef 0]]
      (Heap.VRef 2) ["y"; "x"]
    = (Ret v, s)
    /\ Sorter.run
         [JObj [("group", JStr "x")]; JObj [("group", JStr "y")];
          JObj [("group", JStr "x")]] ["y"; "x"]
       = (Ret out, sp)
    /\ Denote.read 3 (Heap.heap s) v = Some (JArr out)
    /\ Heap.logged s = Sorter.logged sp.
Proof.
  apply (X19_heap_engine_agrees_with_value_engine
           [Heap.ODict [("group", Heap.VStr "x")];
            Heap.ODict [("group", Heap.VStr "y")];
            Heap.OList [Heap.VRef 0; Heap.VRef 1; Heap.VRef 0]]
           3 3 (Heap.VRef 2)
           [JObj [("group", JStr "x")]; JObj [("group", JStr "y")];
            JObj [("group", JStr "x")]] ["y"; "x"]).
  - reflexivity.
  - lia.
  - reflexivity.
Defined.
